(** * Order-Flow Imbalance pipeline ([src/ofi.py]): a shallow embedding.

    The development follows the Python module function by function:
    [_side_flow], [add_level_ofi], [aggregate_ofi], [integrated_ofi] and
    [multi_asset_ofi], together with the fragment of pandas / numpy they
    call.

    Numbers.  A float64 cell is modelled by [float64]: an exact rational,
    one of the two infinities, or NaN.  The IEEE-754 rules for the
    special values are written out (NaN is absorbing, comparisons with
    NaN are false, [x / 0] is an infinity or NaN, ...); rounding, overflow
    and the sign of zero are not modelled.  Finite results are kept in
    lowest terms ([Qred]) so that equal numbers are equal terms.

    Frames.  A [DataFrame] is a row index together with an ordered list of
    named, typed columns.  Frames that Python code mutates live in a
    [heap] and are passed by reference. *)

From Stdlib Require Import List Sorted ZArith QArith Qabs Qreduction Qcanon Bool Lia.
From Stdlib Require Import Ascii String DecimalString.
Import ListNotations.

Local Open Scope Z_scope.

(* ------------------------------------------------------------------ *)
(** ** float64 cells *)
(* ------------------------------------------------------------------ *)

Inductive float64 : Type :=
| Fin (q : Q)
| PInf
| NInf
| NaN.

Definition isna (x : float64) : bool :=
  match x with NaN => true | _ => false end.

Definition notna (x : float64) : bool := negb (isna x).

Definition fzero : float64 := Fin 0.

Definition Qsign (q : Q) : comparison := (q ?= 0)%Q.

Definition fneg (x : float64) : float64 :=
  match x with
  | Fin a => Fin (Qred (- a))
  | PInf => NInf
  | NInf => PInf
  | NaN => NaN
  end.

Definition fadd (x y : float64) : float64 :=
  match x, y with
  | NaN, _ | _, NaN => NaN
  | Fin a, Fin b => Fin (Qred (a + b))
  | PInf, NInf | NInf, PInf => NaN
  | PInf, _ | _, PInf => PInf
  | NInf, _ | _, NInf => NInf
  end.

Definition fsub (x y : float64) : float64 :=
  match x, y with
  | NaN, _ | _, NaN => NaN
  | Fin a, Fin b => Fin (Qred (a - b))
  | PInf, PInf | NInf, NInf => NaN
  | PInf, _ | _, NInf => PInf
  | NInf, _ | _, PInf => NInf
  end.

Definition fmul (x y : float64) : float64 :=
  match x, y with
  | NaN, _ | _, NaN => NaN
  | Fin a, Fin b => Fin (Qred (a * b))
  | Fin a, PInf | PInf, Fin a =>
      match Qsign a with Gt => PInf | Lt => NInf | Eq => NaN end
  | Fin a, NInf | NInf, Fin a =>
      match Qsign a with Gt => NInf | Lt => PInf | Eq => NaN end
  | PInf, PInf | NInf, NInf => PInf
  | PInf, NInf | NInf, PInf => NInf
  end.

(** True division.  A finite numerator over zero is an infinity carrying
    the numerator's sign; [0 / 0] is NaN. *)
Definition fdiv (x y : float64) : float64 :=
  match x, y with
  | NaN, _ | _, NaN => NaN
  | Fin a, Fin b =>
      match Qsign b with
      | Eq => match Qsign a with Gt => PInf | Lt => NInf | Eq => NaN end
      | _ => Fin (Qred (a / b))
      end
  | Fin _, (PInf | NInf) => Fin 0
  | PInf, Fin b => match Qsign b with Lt => NInf | _ => PInf end
  | NInf, Fin b => match Qsign b with Lt => PInf | _ => NInf end
  | (PInf | NInf), (PInf | NInf) => NaN
  end.

Definition fabs (x : float64) : float64 :=
  match x with
  | Fin a => Fin (Qred (Qabs a))
  | PInf | NInf => PInf
  | NaN => NaN
  end.

(** Comparisons; every comparison with NaN is [false]. *)
Definition flt (x y : float64) : bool :=
  match x, y with
  | NaN, _ | _, NaN => false
  | Fin a, Fin b => match (a ?= b)%Q with Lt => true | _ => false end
  | _, NInf => false
  | PInf, _ => false
  | NInf, _ => true
  | Fin _, PInf => true
  end.

Definition fgt (x y : float64) : bool := flt y x.

Definition feq (x y : float64) : bool :=
  match x, y with
  | Fin a, Fin b => match (a ?= b)%Q with Eq => true | _ => false end
  | PInf, PInf | NInf, NInf => true
  | _, _ => false
  end.

Definition of_int (n : Z) : float64 := Fin (inject_Z n).

(* ------------------------------------------------------------------ *)
(** ** Exceptions and the two monads *)
(* ------------------------------------------------------------------ *)

(** [KeyError_column] is the [KeyError] pandas raises for a missing column
    label, [KeyError_symbol] the one [multi_asset_ofi] raises itself. *)
Inductive exn : Type :=
| KeyError_column (name : string)
| KeyError_symbol (sym : string)
| TypeError
| ValueError.

Definition result (A : Type) : Type := (exn + A)%type.

Definition rbind {A B} (c : result A) (k : A -> result B) : result B :=
  match c with
  | inl e => inl e
  | inr a => k a
  end.

Declare Scope result_scope.
Delimit Scope result_scope with res.
Notation "x <- c ;; k" := (rbind c (fun x => k))
  (at level 61, c at next level, right associativity) : result_scope.

(* ------------------------------------------------------------------ *)
(** ** Columns, series, frames *)
(* ------------------------------------------------------------------ *)

(** Timestamps are integers: nanoseconds since the epoch. *)
Inductive column : Type :=
| NumCol (v : list float64)
| TimeCol (v : list Z)
| StrCol (v : list string).

Record Series : Type := mkSeries
  { s_index : list Z;
    s_values : list float64 }.

Record DataFrame : Type := mkFrame
  { index : list Z;
    columns : list (string * column) }.

Definition col_length (c : column) : nat :=
  match c with
  | NumCol v => List.length v
  | TimeCol v => List.length v
  | StrCol v => List.length v
  end.

(** Every column has one cell per index entry, and labels are unique. *)
Definition wf_frame (d : DataFrame) : Prop :=
  NoDup (map fst (columns d)) /\
  forall n c, In (n, c) (columns d) -> col_length c = List.length (index d).

Fixpoint assoc (name : string) (cs : list (string * column)) : option column :=
  match cs with
  | [] => None
  | (n, c) :: cs' => if String.eqb n name then Some c else assoc name cs'
  end.

(** [df[name]] *)
Definition getitem (d : DataFrame) (name : string) : result column :=
  match assoc name (columns d) with
  | Some c => inr c
  | None => inl (KeyError_column name)
  end.

(** Arithmetic and comparisons need a numeric dtype. *)
Definition to_numeric (c : column) : result (list float64) :=
  match c with
  | NumCol v => inr v
  | _ => inl TypeError
  end.

Fixpoint set_assoc (name : string) (c : column) (cs : list (string * column))
  : list (string * column) :=
  match cs with
  | [] => [(name, c)]
  | (n, c0) :: cs' =>
      if String.eqb n name then (n, c) :: cs' else (n, c0) :: set_assoc name c cs'
  end.

(** [df[name] = values]: replaces the column in place when the label
    exists, appends it otherwise. *)
Definition setitem (d : DataFrame) (name : string) (c : column) : DataFrame :=
  mkFrame (index d) (set_assoc name c (columns d)).

(* ------------------------------------------------------------------ *)
(** ** Element-wise operations (numpy / pandas) *)
(* ------------------------------------------------------------------ *)

Fixpoint map2 {A B C} (f : A -> B -> C) (l1 : list A) (l2 : list B) : list C :=
  match l1, l2 with
  | a :: l1', b :: l2' => f a b :: map2 f l1' l2'
  | _, _ => []
  end.

(** [Series.diff()]: NaN in the first row, then [x[i] - x[i-1]]. *)
Definition diff (v : list float64) : list float64 :=
  match v with
  | [] => []
  | _ :: tl => NaN :: map2 fsub tl v
  end.

(** [np.where(cond, a, b)] *)
Fixpoint np_where (c : list bool) (a b : list float64) : list float64 :=
  match c, a, b with
  | ci :: c', ai :: a', bi :: b' => (if ci then ai else bi) :: np_where c' a' b'
  | _, _, _ => []
  end.

(* ------------------------------------------------------------------ *)
(** ** Column labels *)
(* ------------------------------------------------------------------ *)

Local Open Scope string_scope.

(** [f"{n:02d}"] *)
Definition fmt02 (n : nat) : string :=
  let s := NilZero.string_of_uint (Nat.to_uint n) in
  if Nat.ltb (String.length s) 2 then "0" ++ s else s.

Inductive side : Type := bid | ask.

Definition side_name (s : side) : string :=
  match s with bid => "bid" | ask => "ask" end.

Definition px_col (s : side) (level : nat) : string :=
  side_name s ++ "_px_" ++ fmt02 level.
Definition sz_col (s : side) (level : nat) : string :=
  side_name s ++ "_sz_" ++ fmt02 level.
Definition of_col (s : side) (level : nat) : string :=
  "of_" ++ side_name s ++ "_" ++ fmt02 level.
Definition ofi_col (level : nat) : string := "ofi_" ++ fmt02 level.
Definition depth_col (level : nat) : string := "depth_" ++ fmt02 level.

(** [LEVELS = tuple(range(10))] *)
Definition LEVELS : list nat := seq 0 10.

Local Close Scope string_scope.

(* ------------------------------------------------------------------ *)
(** ** [_side_flow] *)
(* ------------------------------------------------------------------ *)

Local Open Scope result_scope.

Definition _side_flow (df : DataFrame) (s : side) (level : nat) : result Series :=
  p <- getitem df (px_col s level) ;;
  q <- getitem df (sz_col s level) ;;
  pv <- to_numeric p ;;
  qv <- to_numeric q ;;
  let dp := diff pv in
  let dq := diff qv in
  let of_ :=
    match s with
    | bid =>
        np_where (map (fun x => fgt x fzero) dp) qv
          (np_where (map (fun x => feq x fzero) dp) dq
             (map fneg qv))
    | ask =>
        np_where (map (fun x => flt x fzero) dp) (map fneg qv)
          (np_where (map (fun x => feq x fzero) dp) dq
             qv)
    end in
  inr (mkSeries (index df) of_).

(* ------------------------------------------------------------------ *)
(** ** The heap of frames *)
(* ------------------------------------------------------------------ *)

(** A Python variable bound to a frame is a reference into the heap;
    [df.copy()] allocates, [df[name] = ...] updates in place. *)
Definition ref : Type := nat.
Definition heap : Type := list DataFrame.

Definition M (A : Type) : Type := heap -> result A * heap.

Definition mret {A} (a : A) : M A := fun h => (inr a, h).

Definition mbind {A B} (c : M A) (k : A -> M B) : M B :=
  fun h =>
    match c h with
    | (inl e, h') => (inl e, h')
    | (inr a, h') => k a h'
    end.

Definition raise {A} (e : exn) : M A := fun h => (inl e, h).

Definition lift {A} (r : result A) : M A := fun h => (r, h).

Declare Scope heap_scope.
Delimit Scope heap_scope with M.
Notation "x <- c ;; k" := (mbind c (fun x => k))
  (at level 61, c at next level, right associativity) : heap_scope.
Notation "c ;; k" := (mbind c (fun _ => k))
  (at level 61, right associativity) : heap_scope.

Fixpoint update {A} (n : nat) (x : A) (l : list A) : list A :=
  match n, l with
  | _, [] => []
  | O, _ :: l' => x :: l'
  | S n', y :: l' => y :: update n' x l'
  end.

(** A reference handed out by [alloc] is never dangling; the error branch
    is only there to make [deref] total. *)
Definition deref (r : ref) : M DataFrame :=
  fun h =>
    match nth_error h r with
    | Some d => (inr d, h)
    | None => (inl ValueError, h)
    end.

Definition alloc (d : DataFrame) : M ref :=
  fun h => (inr (List.length h), h ++ [d]).

(** [df.copy()] *)
Definition copy (r : ref) : M ref :=
  (d <- deref r ;; alloc d)%M.

(** Statements that work on one frame in place ([df[name] = ...] in a
    loop) are computations over the contents of that frame; when one of
    them raises, the assignments made before it stay. *)
Definition L (A : Type) : Type := DataFrame -> result A * DataFrame.

Definition lret {A} (a : A) : L A := fun d => (inr a, d).

Definition lbind {A B} (c : L A) (k : A -> L B) : L B :=
  fun d =>
    match c d with
    | (inl e, d') => (inl e, d')
    | (inr a, d') => k a d'
    end.

Declare Scope frame_scope.
Delimit Scope frame_scope with L.
Notation "c ;; k" := (lbind c (fun _ => k))
  (at level 61, right associativity) : frame_scope.

(** [df[name] = rhs], where [rhs] is evaluated on the current contents of
    the frame. *)
Definition setcol (name : string) (rhs : DataFrame -> result column) : L unit :=
  fun d =>
    match rhs d with
    | inl e => (inl e, d)
    | inr c => (inr tt, setitem d name c)
    end.

Fixpoint for_ {A} (l : list A) (body : A -> L unit) : L unit :=
  match l with
  | [] => lret tt
  | x :: l' => (body x ;; for_ l' body)%L
  end.

(** Runs in-place statements on the frame behind [r]. *)
Definition with_frame {A} (r : ref) (c : L A) : M A :=
  fun h =>
    match nth_error h r with
    | Some d => let (res, d') := c d in (res, update r d' h)
    | None => (inl ValueError, h)
    end.

(** Binary operators on two columns of one frame (same index, so no
    alignment takes place). *)
Definition col_binop (f : float64 -> float64 -> float64) (a b : column)
  : result column :=
  av <- to_numeric a ;;
  bv <- to_numeric b ;;
  inr (NumCol (map2 f av bv)).

(* ------------------------------------------------------------------ *)
(** ** [add_level_ofi] *)
(* ------------------------------------------------------------------ *)

(** The body of the loop over [LEVELS]. *)
Definition level_body (m : nat) : L unit :=
  (setcol (of_col bid m)
     (fun d => (s <- _side_flow d bid m ;; inr (NumCol (s_values s)))%res) ;;
   setcol (of_col ask m)
     (fun d => (s <- _side_flow d ask m ;; inr (NumCol (s_values s)))%res) ;;
   setcol (ofi_col m)
     (fun d => (a <- getitem d (of_col bid m) ;;
                b <- getitem d (of_col ask m) ;;
                col_binop fsub a b)%res))%L.

Definition add_level_ofi (df : ref) : M ref :=
  (out <- copy df ;;
   with_frame out (for_ LEVELS level_body) ;;
   mret out)%M.

(* ------------------------------------------------------------------ *)
(** ** Resampling *)
(* ------------------------------------------------------------------ *)

(** [df.set_index(key)] yields a frame whose index is the former column
    [key], whatever its dtype. *)
Record KeyedFrame : Type := mkKeyed
  { key : column;
    kcolumns : list (string * column) }.

Fixpoint remove_assoc (name : string) (cs : list (string * column))
  : list (string * column) :=
  match cs with
  | [] => []
  | (n, c) :: cs' =>
      if String.eqb n name then cs' else (n, c) :: remove_assoc name cs'
  end.

Definition set_index (d : DataFrame) (name : string) : result KeyedFrame :=
  c <- getitem d name ;;
  inr (mkKeyed c (remove_assoc name (columns d))).

(** [frame[cols]] with a list of labels. *)
Fixpoint select_columns (cs : list (string * column)) (names : list string)
  : result (list (string * column)) :=
  match names with
  | [] => inr []
  | n :: names' =>
      match assoc n cs with
      | None => inl (KeyError_column n)
      | Some c =>
          rest <- select_columns cs names' ;;
          inr ((n, c) :: rest)
      end
  end.

Definition getitems (k : KeyedFrame) (names : list string) : result KeyedFrame :=
  cs <- select_columns (kcolumns k) names ;;
  inr (mkKeyed (key k) cs).

Definition DAY : Z := 86400000000000.

(** [Timestamp.normalize()]: midnight of the timestamp's day. *)
Definition start_day (t : Z) : Z := (t / DAY) * DAY.

(** Left edge of the bin of width [w] that holds [t], on the grid
    anchored at [origin]. *)
Definition bin_label (origin w t : Z) : Z := origin + ((t - origin) / w) * w.

(** The bin labels [resample] generates: the grid is anchored at midnight
    of the first day, and runs from the bin of the earliest timestamp to
    the bin of the latest one, empty bins included. *)
Definition earliest (ts : list Z) : Z :=
  match ts with
  | [] => 0
  | t0 :: rest => fold_right Z.min t0 rest
  end.

Definition latest (ts : list Z) : Z :=
  match ts with
  | [] => 0
  | t0 :: rest => fold_right Z.max t0 rest
  end.

Definition bin_labels (w : Z) (ts : list Z) : list Z :=
  match ts with
  | [] => []
  | _ :: _ =>
      let origin := start_day (earliest ts) in
      let first := bin_label origin w (earliest ts) in
      let last := bin_label origin w (latest ts) in
      map (fun k => first + Z.of_nat k * w)
          (seq 0 (S (Z.to_nat ((last - first) / w))))
  end.

(** Bins are closed on the left and labelled by their left edge. *)
Definition in_bin (w b t : Z) : bool := (b <=? t) && (t <? b + w).

Fixpoint select {A} (mask : list bool) (l : list A) : list A :=
  match mask, l with
  | true :: mask', x :: l' => x :: select mask' l'
  | false :: mask', _ :: l' => select mask' l'
  | _, _ => []
  end.

Definition bin_values (w b : Z) (ts : list Z) (v : list float64) : list float64 :=
  select (map (in_bin w b) ts) v.

Definition fsum (v : list float64) : float64 := fold_left fadd v fzero.

(** [sum(min_count=1)] of one group: missing values are skipped; with
    no value left the result is missing. *)
Definition sum_min_count1 (v : list float64) : float64 :=
  match filter notna v with
  | [] => NaN
  | x :: xs => fsum (x :: xs)
  end.

(** [mean()] of one group or row, missing values skipped. *)
Definition nanmean (v : list float64) : float64 :=
  match filter notna v with
  | [] => NaN
  | x :: xs => fdiv (fsum (x :: xs)) (of_int (Z.of_nat (List.length (x :: xs))))
  end.

Fixpoint numeric_columns (cs : list (string * column))
  : result (list (string * list float64)) :=
  match cs with
  | [] => inr []
  | (n, c) :: cs' =>
      v <- to_numeric c ;;
      rest <- numeric_columns cs' ;;
      inr ((n, v) :: rest)
  end.

(** [k.resample(freq).agg()]: [freq] is the bin width in nanoseconds. *)
Definition resample (agg : list float64 -> float64) (freq : Z) (k : KeyedFrame)
  : result DataFrame :=
  if freq <=? 0 then inl ValueError else
  match key k with
  | TimeCol ts =>
      cs <- numeric_columns (kcolumns k) ;;
      let bins := bin_labels freq ts in
      inr (mkFrame bins
             (map (fun nv =>
                     (fst nv,
                      NumCol (map (fun b => agg (bin_values freq b ts (snd nv))) bins)))
                  cs))
  | _ => inl TypeError
  end.

(** Per-cell missing-value mask of a column. *)
Definition col_notna (c : column) : list bool :=
  match c with
  | NumCol v => map notna v
  | TimeCol v => map (fun _ => true) v
  | StrCol v => map (fun _ => true) v
  end.

Definition select_col (mask : list bool) (c : column) : column :=
  match c with
  | NumCol v => NumCol (select mask v)
  | TimeCol v => TimeCol (select mask v)
  | StrCol v => StrCol (select mask v)
  end.

(** [df[mask]] with a boolean mask over the rows. *)
Definition select_rows (mask : list bool) (d : DataFrame) : DataFrame :=
  mkFrame (select mask (index d))
          (map (fun nc => (fst nc, select_col mask (snd nc))) (columns d)).

(** [df.dropna()]: keeps the rows with no missing cell. *)
Definition dropna (d : DataFrame) : DataFrame :=
  let mask :=
    fold_right (fun nc acc => map2 andb (col_notna (snd nc)) acc)
               (map (fun _ => true) (index d)) (columns d) in
  select_rows mask d.

(** [df.mean(axis=1)]: one mean per row, across the columns. *)
Fixpoint rows_of (n : nat) (cols : list (list float64)) : list (list float64) :=
  match n with
  | O => []
  | S n' => map (hd NaN) cols :: rows_of n' (map (@tl float64) cols)
  end.

Definition mean_axis1 (d : DataFrame) : result Series :=
  cs <- numeric_columns (columns d) ;;
  inr (mkSeries (index d)
         (map nanmean (rows_of (List.length (index d)) (map snd cs)))).

(** [series / x] with a scalar [x]. *)
Definition series_div_scalar (s : Series) (x : float64) : Series :=
  mkSeries (s_index s) (map (fun v => fdiv v x) (s_values s)).

(** Value stored under label [b], if the label occurs. *)
Fixpoint at_label {A} (idx : list Z) (v : list A) (b : Z) : option A :=
  match idx, v with
  | i :: idx', x :: v' => if Z.eqb i b then Some x else at_label idx' v' b
  | _, _ => None
  end.

(** [reindex]: labels the old index does not have are filled with NaN. *)
Definition reindex (idx : list Z) (v : list float64) (new : list Z) : list float64 :=
  map (fun b => match at_label idx v b with Some x => x | None => NaN end) new.

Fixpoint insert_label (x : Z) (l : list Z) : list Z :=
  match l with
  | [] => [x]
  | y :: l' =>
      if x <? y then x :: y :: l'
      else if x =? y then y :: l'
      else y :: insert_label x l'
  end.

(** Outer join of two indexes: the sorted union of their labels. *)
Definition index_union (l1 l2 : list Z) : list Z :=
  fold_right insert_label [] (l1 ++ l2).

Fixpoint index_eqb (l1 l2 : list Z) : bool :=
  match l1, l2 with
  | [], [] => true
  | x :: l1', y :: l2' => (x =? y) && index_eqb l1' l2'
  | _, _ => false
  end.

(** [frame.div(series, axis=0)]: frame and series are aligned on their
    row labels by an outer join unless the two indexes are equal, then
    every column is divided cell by cell.  (Both indexes come out of
    [resample] here, so their labels are unique.) *)
Definition div_axis0 (d : DataFrame) (s : Series) : result DataFrame :=
  cs <- numeric_columns (columns d) ;;
  if index_eqb (index d) (s_index s) then
    inr (mkFrame (index d)
           (map (fun nv => (fst nv, NumCol (map2 fdiv (snd nv) (s_values s)))) cs))
  else
    let idx := index_union (index d) (s_index s) in
    inr (mkFrame idx
           (map (fun nv =>
                   (fst nv,
                    NumCol (map2 fdiv (reindex (index d) (snd nv) idx)
                                      (reindex (s_index s) (s_values s) idx))))
                cs)).

(* ------------------------------------------------------------------ *)
(** ** [aggregate_ofi] *)
(* ------------------------------------------------------------------ *)

(** The body of the loop that writes the [depth_NN] columns. *)
Definition depth_body (m : nat) : L unit :=
  setcol (depth_col m)
    (fun d => (b <- getitem d (sz_col bid m) ;;
               a <- getitem d (sz_col ask m) ;;
               col_binop fadd b a)%res).

Definition aggregate_ofi (df : ref) (freq : Z) (normalise : bool) : M DataFrame :=
  (let ofi_cols := map ofi_col LEVELS in
   d <- deref df ;;
   bar <- lift (k <- set_index d "ts_event" ;;
                k <- getitems k ofi_cols ;;
                r <- resample sum_min_count1 freq k ;;
                inr (dropna r))%res ;;
   if negb normalise then mret bar else
   let depth_cols := map depth_col LEVELS in
   with_frame df (for_ LEVELS depth_body) ;;
   d <- deref df ;;
   lift (k <- set_index d "ts_event" ;;
         k <- getitems k depth_cols ;;
         r <- resample nanmean freq k ;;
         let depth := dropna r in
         m <- mean_axis1 depth ;;
         let depth_bar := series_div_scalar m (of_int 2) in
         div_axis0 bar depth_bar)%res)%M.

(* ------------------------------------------------------------------ *)
(** ** [integrated_ofi] *)
(* ------------------------------------------------------------------ *)

(** [np.sum]: missing values are not skipped. *)
Definition np_sum (v : list float64) : float64 := fsum v.

Definition dot (x w : list float64) : float64 := np_sum (map2 fmul x w).

(** [frame @ w] *)
Definition matmul (d : DataFrame) (w : list float64) : result Series :=
  cs <- numeric_columns (columns d) ;;
  if Nat.eqb (List.length cs) (List.length w) then
    inr (mkSeries (index d)
           (map (fun row => dot row w)
                (rows_of (List.length (index d)) (map snd cs))))
  else inl ValueError.

Section IntegratedOFI.

(** [PCA(n_components=k, svd_solver="full").fit(X).components_] of
    scikit-learn: the fitted directions, one row per component, or the
    exception the fit raises. *)
Variable PCA_components : DataFrame -> nat -> result (list (list float64)).

Definition integrated_ofi (ofi_bar : DataFrame) (n_components : nat)
  : result Series :=
  comps <- PCA_components ofi_bar n_components ;;
  w <- match comps with
       | w :: _ => inr w
       | [] => inl ValueError
       end ;;
  let norm := np_sum (map fabs w) in
  let w := map (fun x => fdiv x norm) w in
  matmul ofi_bar w.

End IntegratedOFI.

(* ------------------------------------------------------------------ *)
(** ** [multi_asset_ofi] *)
(* ------------------------------------------------------------------ *)

(** A frame whose columns carry a two-level label (symbol, column). *)
Record MultiFrame : Type := mkMulti
  { m_index : list Z;
    m_columns : list ((string * string) * column) }.

(** [raw_df["symbol"] == sym] *)
Definition eq_mask (c : column) (sym : string) : list bool :=
  match c with
  | StrCol v => map (fun s => String.eqb s sym) v
  | NumCol v => map (fun _ => false) v
  | TimeCol v => map (fun _ => false) v
  end.

(** [df.empty] *)
Definition empty (d : DataFrame) : bool :=
  match index d, columns d with
  | [], _ | _, [] => true
  | _, _ => false
  end.

(** [frames[sym] = bar]: a dict keeps the position of an existing key. *)
Fixpoint dict_set (sym : string) (d : DataFrame) (frames : list (string * DataFrame))
  : list (string * DataFrame) :=
  match frames with
  | [] => [(sym, d)]
  | (s, d0) :: frames' =>
      if String.eqb s sym then (s, d) :: frames'
      else (s, d0) :: dict_set sym d frames'
  end.

Definition mem_label (b : Z) (l : list Z) : bool := existsb (Z.eqb b) l.

(** [pd.concat(frames, axis=1, join="inner")]; bar tables only hold
    numeric columns. *)
Definition concat_inner (frames : list (string * DataFrame)) : result MultiFrame :=
  match frames with
  | [] => inl ValueError
  | (_, f0) :: rest =>
      let idx :=
        fold_left (fun acc sf => filter (fun b => mem_label b (index (snd sf))) acc)
                  rest (index f0) in
      cols <-
        fold_right
          (fun sf acc =>
             acc <- acc ;;
             cs <- numeric_columns (columns (snd sf)) ;;
             inr (map (fun nv =>
                         ((fst sf, fst nv),
                          NumCol (reindex (index (snd sf)) (snd nv) idx))) cs
                    ++ acc))
          (inr []) frames ;;
      inr (mkMulti idx cols)
  end.

Fixpoint collect_frames (raw_df : ref) (symbols : list string) (freq : Z)
    (normalise : bool) (frames : list (string * DataFrame))
  : M (list (string * DataFrame)) :=
  match symbols with
  | [] => mret frames
  | sym :: symbols' =>
      (raw <- deref raw_df ;;
       c <- lift (getitem raw "symbol") ;;
       sym_df <- alloc (select_rows (eq_mask c sym) raw) ;;
       d <- deref sym_df ;;
       if empty d then raise (KeyError_symbol sym) else
       msg_df <- add_level_ofi sym_df ;;
       bar_df <- aggregate_ofi msg_df freq normalise ;;
       collect_frames raw_df symbols' freq normalise (dict_set sym bar_df frames))%M
  end.

Definition multi_asset_ofi (raw_df : ref) (symbols : list string) (freq : Z)
    (normalise : bool) : M MultiFrame :=
  (frames <- collect_frames raw_df symbols freq normalise [] ;;
   lift (concat_inner frames))%M.

(* ------------------------------------------------------------------ *)
(** ** Vocabulary of the statements *)
(* ------------------------------------------------------------------ *)

(** The flow [_side_flow] computes from a price and a size column. *)
Definition flow_values (s : side) (pv qv : list float64) : list float64 :=
  let dp := diff pv in
  let dq := diff qv in
  match s with
  | bid =>
      np_where (map (fun x => fgt x fzero) dp) qv
        (np_where (map (fun x => feq x fzero) dp) dq (map fneg qv))
  | ask =>
      np_where (map (fun x => flt x fzero) dp) (map fneg qv)
        (np_where (map (fun x => feq x fzero) dp) dq qv)
  end.

(** The three columns [add_level_ofi] builds for one level. *)
Definition level_columns (P S : side -> nat -> list float64) (m : nat)
  : list (string * column) :=
  [ (of_col bid m, NumCol (flow_values bid (P bid m) (S bid m)));
    (of_col ask m, NumCol (flow_values ask (P ask m) (S ask m)));
    (ofi_col m, NumCol (map2 fsub (flow_values bid (P bid m) (S bid m))
                                  (flow_values ask (P ask m) (S ask m)))) ].

(** Writes the columns [new] one after the other. *)
Definition set_all (new cs : list (string * column)) : list (string * column) :=
  fold_left (fun acc nc => set_assoc (fst nc) (snd nc) acc) new cs.

(** The labels of the thirty columns [add_level_ofi] writes. *)
Definition flow_labels : list string :=
  flat_map (fun m => [of_col bid m; of_col ask m; ofi_col m]) LEVELS.

(** Cell of a numeric column, by row label. *)
Definition loc (d : DataFrame) (b : Z) (name : string) : option float64 :=
  match assoc name (columns d) with
  | Some (NumCol v) => at_label (index d) v b
  | _ => None
  end.

(** A frame given by a cell function: one numeric column per level. *)
Definition tabulate (idx : list Z) (ls : list nat) (name : nat -> string)
    (cell : nat -> Z -> float64) : DataFrame :=
  mkFrame idx (map (fun m => (name m, NumCol (map (cell m) idx))) ls).

(** A row of a tabulated frame is kept when no level is missing there. *)
Definition complete_row (ls : list nat) (cell : nat -> Z -> float64) (b : Z) : bool :=
  forallb (fun m => notna (cell m b)) ls.

(** The values of the messages whose timestamp lies in the half-open
    bucket [[b, b + w)]. *)
Definition bucket_rows (w b : Z) (ts : list Z) (v : list float64) : list float64 :=
  map snd (filter (fun tv => (b <=? fst tv) && (fst tv <? b + w)) (combine ts v)).

(** Sum of the non-missing values of a bucket; missing when the bucket
    has no such value. *)
Definition bucket_sum (w b : Z) (ts : list Z) (v : list float64) : float64 :=
  sum_min_count1 (bucket_rows w b ts v).

(** The buckets that survive [dropna]: those of the grid in which every
    level has a defined value. *)
Definition kept_labels (w : Z) (ts : list Z) (cell : nat -> Z -> float64)
  : list Z :=
  filter (complete_row LEVELS cell) (bin_labels w ts).

(** The unnormalised bar table of OFI columns [V] stamped [ts]. *)
Definition ofi_cell (w : Z) (ts : list Z) (V : nat -> list float64)
  : nat -> Z -> float64 :=
  fun m b => bucket_sum w b ts (V m).

Definition ofi_bars (w : Z) (ts : list Z) (V : nat -> list float64) : DataFrame :=
  tabulate (kept_labels w ts (ofi_cell w ts V)) LEVELS ofi_col (ofi_cell w ts V).

(** Per-message depth of one level: bid size plus ask size. *)
Definition depth_values (S : side -> nat -> list float64) (m : nat) : list float64 :=
  map2 fadd (S bid m) (S ask m).

(** The arithmetic mean of a list of numbers. *)
Definition mean (v : list float64) : float64 :=
  fdiv (fsum v) (of_int (Z.of_nat (List.length v))).

(** The normalisation divisor of a bucket as the specification words it:
    per-message depth per level, mean over the messages of the bucket
    (a message whose depth is missing does not count), mean over the ten
    levels, halved. *)
Definition bucket_divisor (w b : Z) (ts : list Z) (S : side -> nat -> list float64)
  : float64 :=
  fdiv (mean (map (fun m => nanmean (bucket_rows w b ts (depth_values S m)))
                  LEVELS))
       (of_int 2).

(** The divisor [aggregate_ofi] computes on a row of the depth table. *)
Definition row_divisor (w b : Z) (ts : list Z) (S : side -> nat -> list float64)
  : float64 :=
  fdiv (nanmean (map (fun m => nanmean (bucket_rows w b ts (depth_values S m)))
                     LEVELS))
       (of_int 2).

(** The per-level mean depth of a bucket, and the table of the buckets
    where it is defined on every level. *)
Definition depth_cell (w : Z) (ts : list Z) (S : side -> nat -> list float64)
  : nat -> Z -> float64 :=
  fun m b => nanmean (bucket_rows w b ts (depth_values S m)).

Definition depth_bars (w : Z) (ts : list Z) (S : side -> nat -> list float64)
  : DataFrame :=
  tabulate (kept_labels w ts (depth_cell w ts S)) LEVELS depth_col
           (depth_cell w ts S).

(** The frame [aggregate_ofi] leaves behind when it normalises: the input
    with the ten [depth_NN] columns written into it. *)
Definition with_depth (d : DataFrame) (S : side -> nat -> list float64)
  : DataFrame :=
  mkFrame (index d)
    (fold_left (fun cs m => set_assoc (depth_col m) (NumCol (depth_values S m)) cs)
               LEVELS (columns d)).

(** Row labels after the alignment of [div]. *)
Definition joined_labels (kb kd : list Z) : list Z :=
  if index_eqb kb kd then kb else index_union kb kd.

(** A value of a table at a label, missing when the table has no such
    row. *)
Definition or_missing (present : bool) (x : float64) : float64 :=
  if present then x else NaN.

(** The summed OFI and the divisor that meet in a cell of the normalised
    table. *)
Definition aligned_sum (w : Z) (ts : list Z) (V : nat -> list float64)
    (m : nat) (b : Z) : float64 :=
  or_missing (mem_label b (index (ofi_bars w ts V))) (bucket_sum w b ts (V m)).

Definition aligned_divisor (w : Z) (ts : list Z)
    (S : side -> nat -> list float64) (b : Z) : float64 :=
  or_missing (mem_label b (index (depth_bars w ts S))) (row_divisor w b ts S).

Definition normalised_bars (w : Z) (ts : list Z) (V : nat -> list float64)
    (S : side -> nat -> list float64) : DataFrame :=
  tabulate (joined_labels (index (ofi_bars w ts V)) (index (depth_bars w ts S)))
           LEVELS ofi_col
           (fun m b => fdiv (aligned_sum w ts V m b) (aligned_divisor w ts S b)).

(** [x / 0]: the numerator decides between the infinities and NaN. *)
Definition div_by_zero (x : float64) : float64 :=
  match x with
  | Fin a => match Qsign a with Gt => PInf | Lt => NInf | Eq => NaN end
  | PInf => PInf
  | NInf => NInf
  | NaN => NaN
  end.

(** [df] has a [ts_event] datetime column [ts]. *)
Definition has_timestamps (d : DataFrame) (ts : list Z) : Prop :=
  getitem d "ts_event" = inr (TimeCol ts).

(** [df] has numeric [ofi_NN] columns [V NN]. *)
Definition has_ofi (d : DataFrame) (V : nat -> list float64) : Prop :=
  forall m, (m < 10)%nat -> getitem d (ofi_col m) = inr (NumCol (V m)).

(** [df] has numeric size columns [S side NN]. *)
Definition has_sizes (d : DataFrame) (S : side -> nat -> list float64) : Prop :=
  forall s m, (m < 10)%nat -> getitem d (sz_col s m) = inr (NumCol (S s m)).

(** [df] has numeric price columns [P side NN]. *)
Definition has_prices (d : DataFrame) (P : side -> nat -> list float64) : Prop :=
  forall s m, (m < 10)%nat -> getitem d (px_col s m) = inr (NumCol (P s m)).

(** Whether some row of [d] carries the symbol [sym]. *)
Definition has_symbol (d : DataFrame) (sym : string) : bool :=
  match getitem d "symbol" with
  | inr c => existsb (fun b : bool => b) (eq_mask c sym)
  | inl _ => false
  end.

(** Finite cells and their rational value. *)
Definition finite (x : float64) : Prop :=
  match x with Fin _ => True | _ => False end.

Definition qval (x : float64) : Q :=
  match x with Fin a => a | _ => 0%Q end.

Definition Qsum (l : list Q) : Q := fold_right Qplus 0%Q l.

(** Absolute values, in lowest terms. *)
Definition Qabs_list (l : list Q) : list Q := map (fun a => Qred (Qabs a)) l.

(** The weight vector [integrated_ofi] projects on: [w] scaled by the sum
    of the absolute values of its entries. *)
Definition l1_normalised (w : list float64) : list float64 :=
  map (fun x => fdiv x (np_sum (map fabs w))) w.

(** The raw table has the columns the pipeline reads. *)
Definition raw_schema (d : DataFrame) : Prop :=
  wf_frame d /\
  (exists syms, getitem d "symbol" = inr (StrCol syms)) /\
  (exists ts, has_timestamps d ts) /\
  (exists P, has_prices d P) /\
  (exists S, has_sizes d S).

(* ------------------------------------------------------------------ *)
(** ** Example books *)
(* ------------------------------------------------------------------ *)

(** A raw table with the same book on every level. *)
Definition book (ts : list Z) (sym : list string)
    (bid_px bid_sz ask_px ask_sz : list float64) : DataFrame :=
  mkFrame (map Z.of_nat (seq 0 (List.length ts)))
    ([("ts_event"%string, TimeCol ts); ("symbol"%string, StrCol sym)] ++
     flat_map (fun m => [ (px_col bid m, NumCol bid_px);
                          (sz_col bid m, NumCol bid_sz);
                          (px_col ask m, NumCol ask_px);
                          (sz_col ask m, NumCol ask_sz) ]) LEVELS).

Definition num (n : Z) : float64 := of_int n.

Definition minute : Z := 60000000000.

(** Four messages of one symbol; the last one falls in the next minute. *)
Definition book4 : DataFrame :=
  book [0; 1000; 2000; 61000000000] ["A"; "A"; "A"; "A"]%string
       [num 100; num 101; num 101; num 100] [num 5; num 7; num 9; num 4]
       [num 102; num 102; num 101; num 103] [num 6; num 6; num 8; num 2].

(** A per-message table as [aggregate_ofi] reads it, with the same OFI
    and the same sizes on every level. *)
Definition ofi_messages (ts : list Z) (ofi bid_sz ask_sz : list float64)
  : DataFrame :=
  mkFrame (map Z.of_nat (seq 0 (List.length ts)))
    (("ts_event"%string, TimeCol ts) ::
     flat_map (fun m => [ (sz_col bid m, NumCol bid_sz);
                          (sz_col ask m, NumCol ask_sz);
                          (ofi_col m, NumCol ofi) ]) LEVELS).

(** [book4] with an [ofi_00] column already in place. *)
Definition book4_with_ofi : DataFrame :=
  setitem book4 "ofi_00" (NumCol [num 99; num 99; num 99; num 99]).

(** Two messages in two consecutive minutes. *)
Definition two_minutes : DataFrame :=
  ofi_messages [0; minute] [num 3; num 4] [num 1; num 1] [num 1; num 1].

(** The same, with nothing displayed on either side in the first minute. *)
Definition empty_first_minute : DataFrame :=
  ofi_messages [0; minute] [num 3; num 4] [num 0; num 1] [num 0; num 1].

(** The same, with the first OFI missing. *)
Definition missing_first_ofi : DataFrame :=
  ofi_messages [0; minute] [NaN; num 4] [num 1; num 1] [num 1; num 1].

(** A bar table with two levels and two bars, and a fit that returns the
    direction [(3/5, -4/5)] for it. *)
Definition two_level_bars : DataFrame :=
  mkFrame [0; minute]
    [ ("ofi_00"%string, NumCol [num 1; num 2]);
      ("ofi_01"%string, NumCol [num 3; num 4]) ].

Definition fit_3_4_5 (_ : DataFrame) (_ : nat) : result (list (list float64)) :=
  inr [[Fin (3 # 5); Fin (- 4 # 5)]; [Fin (4 # 5); Fin (3 # 5)]].

(** What the specification says of the output of the level-flow stage:
    the input's index, the input's columns untouched, and the thirty
    flow columns after them. *)
Definition appends_flow_columns (d out : DataFrame) : Prop :=
  index out = index d /\
  exists new, columns out = columns d ++ new /\ map fst new = flow_labels.

(* ------------------------------------------------------------------ *)
(** ** Vocabulary of the further properties *)
(* ------------------------------------------------------------------ *)

(** The forty labels [add_level_ofi] reads, in the order it reads them. *)
Definition book_labels : list string :=
  flat_map (fun m => [px_col bid m; sz_col bid m; px_col ask m; sz_col ask m])
           LEVELS.

Definition is_missing (d : DataFrame) (name : string) : bool :=
  match assoc name (columns d) with
  | None => true
  | Some _ => false
  end.

(** The first label of [labels] that [d] has no column for. *)
Definition first_missing (labels : list string) (d : DataFrame) : option string :=
  find (is_missing d) labels.

(** The columns of [d] under [labels], where present, are numeric. *)
Definition numeric_where_present (labels : list string) (d : DataFrame) : Prop :=
  forall n c, In n labels -> getitem d n = inr c -> exists v, c = NumCol v.

(** [book4] without the ask sizes of level 2. *)
Definition book4_without_ask_size : DataFrame :=
  mkFrame (index book4) (remove_assoc "ask_sz_02" (columns book4)).

(** [two_minutes] without the OFI of level 4, and without the ask sizes
    of level 1. *)
Definition two_minutes_without_ofi : DataFrame :=
  mkFrame (index two_minutes) (remove_assoc "ofi_04" (columns two_minutes)).

Definition two_minutes_without_ask_size : DataFrame :=
  mkFrame (index two_minutes) (remove_assoc "ask_sz_01" (columns two_minutes)).

(** The input of [aggregate_ofi] after the depth columns of the levels
    below [k] have been written. *)
Definition with_depth_below (k : nat) (d : DataFrame)
    (S : side -> nat -> list float64) : DataFrame :=
  mkFrame (index d)
    (fold_left (fun cs m => set_assoc (depth_col m) (NumCol (depth_values S m)) cs)
               (seq 0 k) (columns d)).

(** A finite, strictly positive cell. *)
Definition positive (x : float64) : Prop :=
  match x with Fin a => (0 < a)%Q | _ => False end.

(** Some message is stamped in the bucket [[b, b + w)]. *)
Definition occupied (w : Z) (ts : list Z) (b : Z) : Prop :=
  exists t, In t ts /\ b <= t < b + w.

(** A fit that returns the opposite first direction, [(-3/5, 4/5)]. *)
Definition fit_3_4_5_flipped (_ : DataFrame) (_ : nat)
  : result (list (list float64)) :=
  inr [[Fin (- 3 # 5); Fin (4 # 5)]; [Fin (4 # 5); Fin (3 # 5)]].


(** The rows of the raw table that carry the symbol [sym]. *)
Definition symbol_rows (rawd : DataFrame) (sym : string) : result DataFrame :=
  (c <- getitem rawd "symbol" ;; inr (select_rows (eq_mask c sym) rawd))%res.

(** The bar table the two stages return for the rows of one symbol, run
    on their own. *)
Definition symbol_bars (rawd : DataFrame) (sym : string) (w : Z) (n : bool)
  : result DataFrame :=
  (rows <- symbol_rows rawd sym ;;
   fst ((msg <- add_level_ofi 0%nat ;; aggregate_ofi msg w n)%M [rows]))%res.

Definition bars_of (rawd : DataFrame) (w : Z) (n : bool) (sym : string)
  : DataFrame :=
  match symbol_bars rawd sym w n with
  | inr bar => bar
  | inl _ => mkFrame [] []
  end.

(** The symbols of a request, each one once, in the order of their first
    occurrence: the keys of the dict [frames]. *)
Fixpoint distinct (l : list string) : list string :=
  match l with
  | [] => []
  | s :: l' => s :: filter (fun x => negb (String.eqb x s)) (distinct l')
  end.

(** Column of a two-level label, and its cell by row label. *)
Fixpoint massoc (key : string * string) (cs : list ((string * string) * column))
  : option column :=
  match cs with
  | [] => None
  | (k, c) :: cs' =>
      if String.eqb (fst k) (fst key) && String.eqb (snd k) (snd key)
      then Some c else massoc key cs'
  end.

Definition mloc (mf : MultiFrame) (b : Z) (key : string * string)
  : option float64 :=
  match massoc key (m_columns mf) with
  | Some (NumCol v) => at_label (m_index mf) v b
  | _ => None
  end.

(** Messages of two symbols, interleaved, over two minutes; the second
    symbol has no message in the second minute. *)
Definition book_two_symbols : DataFrame :=
  book [0; 1000; 2000; 61000000000] ["A"; "B"; "B"; "A"]%string
       [num 100; num 101; num 101; num 100] [num 5; num 7; num 9; num 4]
       [num 102; num 102; num 101; num 103] [num 6; num 6; num 8; num 2].

(* ================================================================== *)
(** * Properties *)
(* ================================================================== *)

(* ------------------------------------------------------------------ *)
(** ** Element-wise operations *)
(* ------------------------------------------------------------------ *)

Lemma nth_error_map2 {A B C} (f : A -> B -> C) :
  forall l1 l2 i a b,
    nth_error l1 i = Some a -> nth_error l2 i = Some b ->
    nth_error (map2 f l1 l2) i = Some (f a b).
Proof.
  induction l1 as [|x l1 IH]; intros [|y l2] [|i] a b H1 H2;
    simpl in *; try discriminate.
  - now inversion H1; inversion H2.
  - now apply IH.
Qed.

Lemma nth_error_np_where :
  forall c a b i ci ai bi,
    nth_error c i = Some ci -> nth_error a i = Some ai ->
    nth_error b i = Some bi ->
    nth_error (np_where c a b) i = Some (if ci then ai else bi).
Proof.
  induction c as [|c0 c IH]; intros [|a0 a] [|b0 b] [|i] ci ai bi Hc Ha Hb;
    simpl in *; try discriminate.
  - now inversion Hc; inversion Ha; inversion Hb.
  - now apply IH.
Qed.

Lemma nth_error_diff :
  forall v i x_prev x,
    nth_error v i = Some x_prev -> nth_error v (S i) = Some x ->
    nth_error (diff v) (S i) = Some (fsub x x_prev).
Proof.
  intros [|x0 v] i x_prev x Hp Hx; simpl in *.
  - now destruct i.
  - now apply nth_error_map2.
Qed.

Lemma length_map2 {A B C} (f : A -> B -> C) :
  forall l1 l2, List.length l1 = List.length l2 ->
                List.length (map2 f l1 l2) = List.length l1.
Proof.
  induction l1 as [|x l1 IH]; intros [|y l2] H; simpl in *;
    try discriminate; auto.
Qed.

Lemma length_diff : forall v, List.length (diff v) = List.length v.
Proof.
  intros [|x v]; simpl; auto. f_equal.
  revert x. induction v as [|y v IH]; intros x; simpl; auto.
Qed.

Lemma length_np_where :
  forall c a b,
    List.length a = List.length c -> List.length b = List.length c ->
    List.length (np_where c a b) = List.length c.
Proof.
  induction c as [|c0 c IH]; intros [|a0 a] [|b0 b] Ha Hb; simpl in *;
    try discriminate; auto.
Qed.

(** The three tests of the sign rule exclude one another. *)
Lemma sign_tests_exclusive :
  forall x,
    (fgt x fzero = true -> feq x fzero = false /\ flt x fzero = false) /\
    (feq x fzero = true -> fgt x fzero = false /\ flt x fzero = false) /\
    (flt x fzero = true -> fgt x fzero = false /\ feq x fzero = false).
Proof.
  intros [q| | |]; unfold fgt, fzero; simpl;
    try rewrite <- (Qcompare_antisym q 0);
    try destruct (q ?= 0)%Q; simpl;
    repeat split; try reflexivity; discriminate.
Qed.

(* ------------------------------------------------------------------ *)
(** ** C1: the three-branch sign rule of [_side_flow] *)
(* ------------------------------------------------------------------ *)

(** For finite numbers the sign of a difference is the order of its
    operands. *)
Lemma Qcompare_minus :
  forall a b : Q, (Qred (a - b) ?= 0)%Q = (a ?= b)%Q.
Proof.
  intros a b. rewrite (Qred_correct (a - b)).
  destruct (Qcompare_spec a b) as [E|E|E].
  - apply Qeq_alt. rewrite E. ring.
  - apply Qlt_alt. apply (Qplus_lt_l _ _ b). ring_simplify. exact E.
  - apply Qgt_alt. apply (Qplus_lt_l _ _ b). ring_simplify. exact E.
Qed.

Lemma sign_of_difference :
  forall x y,
    finite x -> finite y ->
    fgt (fsub x y) fzero = flt y x /\
    feq (fsub x y) fzero = feq x y /\
    flt (fsub x y) fzero = flt x y.
Proof.
  intros [a| | |] [b| | |] Hx Hy; try contradiction.
  unfold fgt, fzero, fsub, flt, feq. rewrite Qcompare_minus.
  rewrite <- (Qcompare_antisym a b), <- (Qcompare_antisym (Qred (a - b)) 0).
  rewrite Qcompare_minus.
  destruct (a ?= b)%Q; auto.
Qed.

(** C1.  Take a frame holding numeric price and size columns for one side
    and one level, and a row [S i] together with the row [i] before it.
    Then [_side_flow] returns a series over the frame's index whose value
    in row [S i] follows the three-branch rule, with [dp] and [dq] the
    differences of price and size to the previous row: on the bid side
    [q] when [dp > 0], [dq] when [dp == 0] and [-q] when [dp < 0]; on the
    ask side [-q] when [dp < 0], [dq] when [dp == 0] and [q] when
    [dp > 0].  For finite prices [dp > 0], [dp == 0] and [dp < 0] say
    that the price increased, is unchanged and decreased. *)
Theorem side_flow_three_branch_rule :
  forall df s level P Q i p_prev p q_prev q,
    getitem df (px_col s level) = inr (NumCol P) ->
    getitem df (sz_col s level) = inr (NumCol Q) ->
    nth_error P i = Some p_prev -> nth_error P (S i) = Some p ->
    nth_error Q i = Some q_prev -> nth_error Q (S i) = Some q ->
    exists flow v,
      _side_flow df s level = inr flow /\
      s_index flow = index df /\
      nth_error (s_values flow) (S i) = Some v /\
      let dp := fsub p p_prev in
      let dq := fsub q q_prev in
      match s with
      | bid =>
          (fgt dp fzero = true -> v = q) /\
          (feq dp fzero = true -> v = dq) /\
          (flt dp fzero = true -> v = fneg q)
      | ask =>
          (flt dp fzero = true -> v = fneg q) /\
          (feq dp fzero = true -> v = dq) /\
          (fgt dp fzero = true -> v = q)
      end /\
      (finite p -> finite p_prev ->
       match s with
       | bid =>
           (flt p_prev p = true -> v = q) /\
           (feq p p_prev = true -> v = dq) /\
           (flt p p_prev = true -> v = fneg q)
       | ask =>
           (flt p p_prev = true -> v = fneg q) /\
           (feq p p_prev = true -> v = dq) /\
           (flt p_prev p = true -> v = q)
       end).
Proof.
  intros df s level P Q i p_prev p q_prev q HP HQ Hpp Hp Hqp Hq.
  pose proof (nth_error_diff P i p_prev p Hpp Hp) as Hdp.
  pose proof (nth_error_diff Q i q_prev q Hqp Hq) as Hdq.
  pose proof (sign_tests_exclusive (fsub p p_prev)) as [Hgt [Heq Hlt]].
  unfold _side_flow. rewrite HP, HQ. cbn [rbind to_numeric].
  assert (Hrule :
    forall v,
      v = (if fgt (fsub p p_prev) fzero then q
           else if feq (fsub p p_prev) fzero then fsub q q_prev else fneg q) ->
      (fgt (fsub p p_prev) fzero = true -> v = q) /\
      (feq (fsub p p_prev) fzero = true -> v = fsub q q_prev) /\
      (flt (fsub p p_prev) fzero = true -> v = fneg q)).
  { intros v ->. repeat split; intros H.
    - now rewrite H.
    - destruct (Heq H) as [-> _]. now rewrite H.
    - destruct (Hlt H) as [-> ->]. reflexivity. }
  assert (Hmirror :
    forall v,
      v = (if flt (fsub p p_prev) fzero then fneg q
           else if feq (fsub p p_prev) fzero then fsub q q_prev else q) ->
      (flt (fsub p p_prev) fzero = true -> v = fneg q) /\
      (feq (fsub p p_prev) fzero = true -> v = fsub q q_prev) /\
      (fgt (fsub p p_prev) fzero = true -> v = q)).
  { intros v ->. repeat split; intros H.
    - now rewrite H.
    - destruct (Heq H) as [_ ->]. now rewrite H.
    - destruct (Hgt H) as [-> ->]. reflexivity. }
  destruct s; eexists; eexists; (split; [reflexivity|]); (split; [reflexivity|]);
    cbn [s_values].
  - split.
    + eapply nth_error_np_where.
      * apply map_nth_error. exact Hdp.
      * exact Hq.
      * eapply nth_error_np_where.
        -- apply map_nth_error. exact Hdp.
        -- exact Hdq.
        -- apply map_nth_error. exact Hq.
    + cbv zeta. split; [now apply Hrule|].
      intros Fp Fq.
      destruct (sign_of_difference p p_prev Fp Fq) as (E1 & E2 & E3).
      rewrite <- E1, <- E2, <- E3. now apply Hrule.
  - split.
    + eapply nth_error_np_where.
      * apply map_nth_error. exact Hdp.
      * apply map_nth_error. exact Hq.
      * eapply nth_error_np_where.
        -- apply map_nth_error. exact Hdp.
        -- exact Hdq.
        -- exact Hq.
    + cbv zeta. split; [now apply Hmirror|].
      intros Fp Fq.
      destruct (sign_of_difference p p_prev Fp Fq) as (E1 & E2 & E3).
      rewrite <- E1, <- E2, <- E3. now apply Hmirror.
Qed.

(* ------------------------------------------------------------------ *)
(** ** Column labels and association lists *)
(* ------------------------------------------------------------------ *)

Lemma In_LEVELS : forall m, In m LEVELS <-> (m < 10)%nat.
Proof. intros m. unfold LEVELS. rewrite in_seq. lia. Qed.

Lemma fmt02_inj :
  forall m m', (m < 10)%nat -> (m' < 10)%nat -> fmt02 m = fmt02 m' -> m = m'.
Proof.
  intros m m' Hm Hm'. apply In_LEVELS in Hm, Hm'.
  unfold LEVELS in Hm, Hm'; simpl in Hm, Hm'.
  repeat (destruct Hm as [<-|Hm]); try contradiction;
    repeat (destruct Hm' as [<-|Hm']); try contradiction;
    intros H; try reflexivity; vm_compute in H; discriminate.
Qed.

Lemma assoc_set_same :
  forall n c cs, assoc n (set_assoc n c cs) = Some c.
Proof.
  induction cs as [|[k v] cs IH]; simpl.
  - now rewrite String.eqb_refl.
  - destruct (String.eqb k n) eqn:E; simpl; rewrite E; auto.
Qed.

Lemma assoc_set_other :
  forall n n' c cs, n <> n' -> assoc n' (set_assoc n c cs) = assoc n' cs.
Proof.
  induction cs as [|[k v] cs IH]; intros Hn; simpl.
  - destruct (String.eqb_spec n n'); congruence.
  - destruct (String.eqb_spec k n); simpl.
    + subst. destruct (String.eqb_spec n n'); congruence.
    + destruct (String.eqb_spec k n'); auto.
Qed.

Lemma assoc_none_iff :
  forall n cs, assoc n cs = None <-> ~ In n (map fst cs).
Proof.
  induction cs as [|[k v] cs IH]; simpl.
  - tauto.
  - destruct (String.eqb_spec k n).
    + split; [discriminate | intros H; exfalso; auto].
    + rewrite IH. tauto.
Qed.

Lemma set_assoc_fresh :
  forall n c cs, ~ In n (map fst cs) -> set_assoc n c cs = cs ++ [(n, c)].
Proof.
  induction cs as [|[k v] cs IH]; simpl; intros H; auto.
  destruct (String.eqb_spec k n).
  - exfalso; auto.
  - now rewrite IH by tauto.
Qed.

Lemma assoc_remove_other :
  forall n n' cs, n <> n' -> assoc n' (remove_assoc n cs) = assoc n' cs.
Proof.
  induction cs as [|[k v] cs IH]; intros Hn; simpl; auto.
  destruct (String.eqb_spec k n); simpl.
  - subst. destruct (String.eqb_spec n n'); congruence.
  - destruct (String.eqb_spec k n'); auto.
Qed.

Lemma getitem_setitem_same :
  forall d n c, getitem (setitem d n c) n = inr c.
Proof.
  intros. unfold getitem, setitem. simpl. now rewrite assoc_set_same.
Qed.

Lemma getitem_setitem_other :
  forall d n n' c, n <> n' -> getitem (setitem d n c) n' = getitem d n'.
Proof.
  intros. unfold getitem, setitem. simpl. now rewrite assoc_set_other.
Qed.

(** Labels of different families never coincide. *)
Lemma flow_label_not_book :
  forall s m s' m',
    of_col s m <> px_col s' m' /\ of_col s m <> sz_col s' m' /\
    ofi_col m <> px_col s' m' /\ ofi_col m <> sz_col s' m'.
Proof.
  intros s m s' m'; destruct s, s'; repeat split; discriminate.
Qed.

Lemma ofi_not_of : forall m s m', ofi_col m <> of_col s m'.
Proof. intros m s m'; destruct s; discriminate. Qed.

Lemma of_col_inj :
  forall s m s' m', (m < 10)%nat -> (m' < 10)%nat ->
    of_col s m = of_col s' m' -> s = s' /\ m = m'.
Proof.
  intros s m s' m' Hm Hm' H.
  destruct s, s'; try discriminate; split; auto;
    apply fmt02_inj; auto; unfold of_col in H; simpl in H; now inversion H.
Qed.

Lemma ofi_col_inj :
  forall m m', (m < 10)%nat -> (m' < 10)%nat -> ofi_col m = ofi_col m' -> m = m'.
Proof.
  intros m m' Hm Hm' H. apply fmt02_inj; auto.
  unfold ofi_col in H; simpl in H; now inversion H.
Qed.

Lemma depth_col_inj :
  forall m m', (m < 10)%nat -> (m' < 10)%nat -> depth_col m = depth_col m' -> m = m'.
Proof.
  intros m m' Hm Hm' H. apply fmt02_inj; auto.
  unfold depth_col in H; simpl in H; now inversion H.
Qed.

Lemma depth_not_size : forall m s m', depth_col m <> sz_col s m'.
Proof. intros m s m'; destruct s; discriminate. Qed.

(* ------------------------------------------------------------------ *)
(** ** [_side_flow] and the loop of [add_level_ofi] *)
(* ------------------------------------------------------------------ *)

Lemma side_flow_eq :
  forall df s level P Q,
    getitem df (px_col s level) = inr (NumCol P) ->
    getitem df (sz_col s level) = inr (NumCol Q) ->
    _side_flow df s level = inr (mkSeries (index df) (flow_values s P Q)).
Proof.
  intros df s level P Q HP HQ. unfold _side_flow. rewrite HP, HQ.
  destruct s; reflexivity.
Qed.

Lemma level_body_run :
  forall P S m d,
    (forall s, getitem d (px_col s m) = inr (NumCol (P s m))) ->
    (forall s, getitem d (sz_col s m) = inr (NumCol (S s m))) ->
    level_body m d =
    (inr tt, mkFrame (index d) (set_all (level_columns P S m) (columns d))).
Proof.
  intros P S m d HP HS.
  pose proof (flow_label_not_book bid m) as Hb.
  pose proof (flow_label_not_book ask m) as Ha.
  unfold level_body, lbind, setcol.
  rewrite (side_flow_eq d bid m _ _ (HP bid) (HS bid)). cbn [rbind s_values].
  rewrite (side_flow_eq _ ask m (P ask m) (S ask m)).
  2: { rewrite getitem_setitem_other; [apply HP | apply Hb]. }
  2: { rewrite getitem_setitem_other; [apply HS | apply Hb]. }
  cbn [rbind s_values].
  rewrite getitem_setitem_other by (unfold of_col; simpl; discriminate).
  rewrite getitem_setitem_same, getitem_setitem_same.
  reflexivity.
Qed.

Lemma assoc_set_all_other :
  forall n new cs,
    (forall nc, In nc new -> fst nc <> n) ->
    assoc n (set_all new cs) = assoc n cs.
Proof.
  unfold set_all. induction new as [|[k v] new IH]; intros cs H; simpl; auto.
  rewrite IH by (intros nc Hnc; apply H; now right).
  apply assoc_set_other. apply (H (k, v)). now left.
Qed.

Lemma level_columns_not_book :
  forall P S m nc s m',
    In nc (level_columns P S m) ->
    fst nc <> px_col s m' /\ fst nc <> sz_col s m'.
Proof.
  intros P S m nc s m' H.
  pose proof (flow_label_not_book bid m s m') as Hb.
  pose proof (flow_label_not_book ask m s m') as Ha.
  simpl in H. destruct H as [<-|[<-|[<-|[]]]]; simpl; tauto.
Qed.

Lemma level_loop_run :
  forall P S ls d,
    (forall s m, In m ls -> getitem d (px_col s m) = inr (NumCol (P s m))) ->
    (forall s m, In m ls -> getitem d (sz_col s m) = inr (NumCol (S s m))) ->
    for_ ls level_body d =
    (inr tt,
     mkFrame (index d)
       (fold_left (fun cs m => set_all (level_columns P S m) cs) ls (columns d))).
Proof.
  induction ls as [|m ls IH]; intros d HP HS.
  - now destruct d.
  - cbn [for_]. unfold lbind.
    rewrite (level_body_run P S) by (intros; (apply HP || apply HS); now left).
    rewrite IH; [reflexivity | |]; intros s m' Hm'; unfold getitem; cbn [columns];
      rewrite assoc_set_all_other
        by (intros nc Hnc; apply (level_columns_not_book P S m nc s m' Hnc)).
    + apply HP. now right.
    + apply HS. now right.
Qed.

Lemma set_all_level_fresh :
  forall P S m cs,
    (forall n, In n [of_col bid m; of_col ask m; ofi_col m] ->
               ~ In n (map fst cs)) ->
    set_all (level_columns P S m) cs = cs ++ level_columns P S m.
Proof.
  intros P S m cs H. unfold set_all, level_columns. cbn [fold_left fst snd].
  rewrite (set_assoc_fresh (of_col bid m)) by (apply H; simpl; auto).
  rewrite (set_assoc_fresh (of_col ask m)).
  2: { rewrite map_app, in_app_iff. intros [Hin|[Heq|[]]].
       - revert Hin. apply H. simpl; auto.
       - simpl in Heq. discriminate. }
  rewrite (set_assoc_fresh (ofi_col m)).
  2: { rewrite !map_app, !in_app_iff. intros [[Hin|[Heq|[]]]|[Heq|[]]].
       - revert Hin. apply H. simpl; auto.
       - simpl in Heq. discriminate.
       - simpl in Heq. discriminate. }
  now rewrite <- !app_assoc.
Qed.

Lemma level_labels_disjoint :
  forall m m' n,
    (m < 10)%nat -> (m' < 10)%nat -> m <> m' ->
    In n [of_col bid m; of_col ask m; ofi_col m] ->
    In n [of_col bid m'; of_col ask m'; ofi_col m'] -> False.
Proof.
  intros m m' n Hm Hm' Hne H H'. simpl in H, H'.
  destruct H as [<-|[<-|[<-|[]]]]; destruct H' as [E|[E|[E|[]]]];
    try (apply of_col_inj in E; auto; destruct E; congruence);
    try (apply ofi_col_inj in E; auto; congruence);
    try (symmetry in E; now apply ofi_not_of in E);
    try (now apply ofi_not_of in E).
Qed.

Lemma level_loop_fresh :
  forall P S ls cs,
    NoDup ls -> (forall m, In m ls -> (m < 10)%nat) ->
    (forall m n, In m ls -> In n [of_col bid m; of_col ask m; ofi_col m] ->
                 ~ In n (map fst cs)) ->
    fold_left (fun cs m => set_all (level_columns P S m) cs) ls cs =
    cs ++ flat_map (level_columns P S) ls.
Proof.
  induction ls as [|m ls IH]; intros cs Hnd Hlt Hfresh; cbn [fold_left flat_map].
  - now rewrite app_nil_r.
  - inversion Hnd as [|? ? Hnotin Hnd']; subst.
    rewrite set_all_level_fresh by (intros n Hn; apply (Hfresh m n); simpl; auto).
    rewrite IH; auto.
    + now rewrite <- app_assoc.
    + intros m' Hm'. apply Hlt. now right.
    + intros m' n Hm' Hn. rewrite map_app, in_app_iff. intros [Hin|Hin].
      * revert Hin. apply (Hfresh m' n); [now right | exact Hn].
      * apply (level_labels_disjoint m' m n); auto.
        -- apply Hlt. now right.
        -- apply Hlt. now left.
        -- intros ->. contradiction.
Qed.

(* ------------------------------------------------------------------ *)
(** ** The heap *)
(* ------------------------------------------------------------------ *)

Lemma nth_error_alloc :
  forall (h : heap) d, nth_error (h ++ [d]) (List.length h) = Some d.
Proof.
  intros. rewrite nth_error_app2 by lia. now rewrite Nat.sub_diag.
Qed.

Lemma update_alloc :
  forall (h : heap) d d', update (List.length h) d' (h ++ [d]) = h ++ [d'].
Proof.
  induction h as [|x h IH]; intros; simpl; auto. now rewrite IH.
Qed.

Lemma nth_error_update_other :
  forall (h : heap) r d i, i <> r -> nth_error (update r d h) i = nth_error h i.
Proof.
  induction h as [|x h IH]; intros [|r] d [|i] Hne; simpl; auto; congruence.
Qed.

Lemma nth_error_update_same :
  forall (h : heap) r d, (r < List.length h)%nat -> nth_error (update r d h) r = Some d.
Proof.
  induction h as [|x h IH]; intros [|r] d Hr; simpl in *; try lia; auto.
  apply IH. lia.
Qed.

Lemma length_update :
  forall (h : heap) r d, List.length (update r d h) = List.length h.
Proof.
  induction h as [|x h IH]; intros [|r] d; simpl; auto.
Qed.

Lemma update_same :
  forall (h : heap) r d, nth_error h r = Some d -> update r d h = h.
Proof.
  induction h as [|x h IH]; intros [|r] d H; simpl in *; try discriminate.
  - now inversion H.
  - now rewrite IH.
Qed.

(** [add_level_ofi] on a frame with the forty book columns. *)
Lemma add_level_ofi_run :
  forall h r d P S,
    nth_error h r = Some d -> has_prices d P -> has_sizes d S ->
    add_level_ofi r h =
    (inr (List.length h),
     h ++ [mkFrame (index d)
             (fold_left (fun cs m => set_all (level_columns P S m) cs)
                        LEVELS (columns d))]).
Proof.
  intros h r d P S Hr HP HS.
  unfold add_level_ofi, copy, mbind, deref, alloc, with_frame, mret.
  rewrite Hr, nth_error_alloc.
  rewrite (level_loop_run P S).
  - now rewrite update_alloc.
  - intros s m Hm. apply HP. now apply In_LEVELS.
  - intros s m Hm. apply HS. now apply In_LEVELS.
Qed.

(** Whatever it returns, [add_level_ofi] only extends the heap: every
    frame that existed before the call is left as it was. *)
Lemma add_level_ofi_extends_heap :
  forall r h, exists extra, snd (add_level_ofi r h) = h ++ extra.
Proof.
  intros r h.
  unfold add_level_ofi, copy, mbind, deref, alloc, with_frame, mret.
  destruct (nth_error h r) as [d|] eqn:Hr.
  - rewrite nth_error_alloc.
    destruct (for_ LEVELS level_body d) as [[e|[]] d'] eqn:E;
      rewrite update_alloc; exists [d']; reflexivity.
  - exists []. simpl. now rewrite app_nil_r.
Qed.

(* ------------------------------------------------------------------ *)
(** ** C10: the output columns of [add_level_ofi] *)
(* ------------------------------------------------------------------ *)

Lemma level_columns_labels :
  forall P S ls,
    map fst (flat_map (level_columns P S) ls) =
    flat_map (fun m => [of_col bid m; of_col ask m; ofi_col m]) ls.
Proof.
  induction ls as [|m ls IH]; simpl; auto. now rewrite IH.
Qed.

Lemma book_has_prices :
  forall ts sym bp bs ap az,
    has_prices (book ts sym bp bs ap az)
               (fun s _ => match s with bid => bp | ask => ap end).
Proof.
  intros ts sym bp bs ap az s m Hm. apply In_LEVELS in Hm.
  unfold LEVELS in Hm; simpl in Hm.
  repeat (destruct Hm as [<-|Hm]); try contradiction; destruct s; reflexivity.
Qed.

Lemma book_has_sizes :
  forall ts sym bp bs ap az,
    has_sizes (book ts sym bp bs ap az)
              (fun s _ => match s with bid => bs | ask => az end).
Proof.
  intros ts sym bp bs ap az s m Hm. apply In_LEVELS in Hm.
  unfold LEVELS in Hm; simpl in Hm.
  repeat (destruct Hm as [<-|Hm]); try contradiction; destruct s; reflexivity.
Qed.

(** C10, as stated, fails: on a frame that already has an [ofi_00] column
    the stage overwrites that column, so not every column of the input
    comes out unchanged (and only twenty-nine columns are new). *)
Lemma add_level_ofi_overwrites_existing_label :
  ~ (forall h r d P S,
        nth_error h r = Some d -> has_prices d P -> has_sizes d S ->
        exists out,
          add_level_ofi r h = (inr (List.length h), h ++ [out]) /\
          index out = index d /\
          forall n c, getitem d n = inr c -> getitem out n = inr c).
Proof.
  intros H.
  destruct (H [book4_with_ofi] 0%nat book4_with_ofi
              (fun s _ => match s with
                          | bid => [num 100; num 101; num 101; num 100]
                          | ask => [num 102; num 102; num 101; num 103]
                          end)
              (fun s _ => match s with
                          | bid => [num 5; num 7; num 9; num 4]
                          | ask => [num 6; num 6; num 8; num 2]
                          end) eq_refl)
    as (out & Hrun & _ & Hkeep).
  - intros s m Hm. apply In_LEVELS in Hm. unfold LEVELS in Hm; simpl in Hm.
    repeat (destruct Hm as [<-|Hm]); try contradiction; destruct s; reflexivity.
  - intros s m Hm. apply In_LEVELS in Hm. unfold LEVELS in Hm; simpl in Hm.
    repeat (destruct Hm as [<-|Hm]); try contradiction; destruct s; reflexivity.
  - apply (f_equal snd) in Hrun. cbn [snd app] in Hrun.
    assert (E : nth_error (snd (add_level_ofi 0%nat [book4_with_ofi])) 1%nat
                = Some out) by (rewrite Hrun; reflexivity).
    clear Hrun. vm_compute in E. inversion E as [Hout]. clear E.
    specialize (Hkeep "ofi_00"%string
                  (NumCol [num 99; num 99; num 99; num 99]) eq_refl).
    rewrite <- Hout in Hkeep. vm_compute in Hkeep. discriminate.
Qed.

Lemma assoc_app_some :
  forall n c cs new, assoc n cs = Some c -> assoc n (cs ++ new) = Some c.
Proof.
  induction cs as [|[k v] cs IH]; intros new H; simpl in *; [discriminate|].
  destruct (String.eqb k n); auto.
Qed.

Lemma level_labels_in_flow_labels :
  forall m n, (m < 10)%nat ->
    In n [of_col bid m; of_col ask m; ofi_col m] -> In n flow_labels.
Proof.
  intros m n Hm Hn. unfold flow_labels. apply in_flat_map.
  exists m. split; [now apply In_LEVELS | exact Hn].
Qed.

(** C10 (amended).  On a frame holding numeric price and size columns for
    both sides and all ten levels, and none of the thirty labels
    [of_bid_NN], [of_ask_NN], [ofi_NN], the level-flow stage returns a
    new frame with the index of the input, every column of the input
    unchanged and in place, followed by exactly the thirty flow columns,
    level by level. *)
Theorem add_level_ofi_output_columns :
  forall h r d P S,
    nth_error h r = Some d -> has_prices d P -> has_sizes d S ->
    (forall n, In n flow_labels -> ~ In n (map fst (columns d))) ->
    exists out,
      add_level_ofi r h = (inr (List.length h), h ++ [out]) /\
      index out = index d /\
      columns out = columns d ++ flat_map (level_columns P S) LEVELS /\
      (forall n c, getitem d n = inr c -> getitem out n = inr c) /\
      appends_flow_columns d out /\
      List.length flow_labels = 30%nat.
Proof.
  intros h r d P S Hr HP HS Hfresh.
  rewrite (add_level_ofi_run h r d P S Hr HP HS).
  rewrite level_loop_fresh.
  - eexists. split; [reflexivity|]. cbn [index columns].
    split; [reflexivity|]. split; [reflexivity|].
    split.
    { intros n c Hn. unfold getitem in *. cbn [columns].
      destruct (assoc n (columns d)) as [c'|] eqn:E; inversion Hn; subst.
      now rewrite (assoc_app_some n c _ _ E). }
    split; [|reflexivity].
    unfold appends_flow_columns. cbn [index columns].
    split; [reflexivity|].
    exists (flat_map (level_columns P S) LEVELS).
    split; [reflexivity | apply level_columns_labels].
  - apply seq_NoDup.
  - intros m. apply In_LEVELS.
  - intros m n Hm Hn. apply Hfresh.
    apply (level_labels_in_flow_labels m); auto. now apply In_LEVELS.
Qed.

Lemma add_level_ofi_output_columns_witness :
  exists out,
    add_level_ofi 0%nat [book4] = (inr 1%nat, [book4; out]) /\
    index out = index book4 /\
    getitem out "ofi_00" = inr (NumCol [num (-11); num 7; num 10; num (-6)]).
Proof.
  destruct (add_level_ofi_output_columns [book4] 0%nat book4 _ _ eq_refl
              (book_has_prices _ _ _ _ _ _) (book_has_sizes _ _ _ _ _ _))
    as (out & Hrun & Hidx & Hcols & _).
  - intros n Hn. vm_compute in Hn. vm_compute.
    intros Hin. repeat (destruct Hn as [<-|Hn]; [repeat (destruct Hin as [Hin|Hin]; [discriminate Hin|]); exact Hin|]).
    exact Hn.
  - exists out. repeat split; auto.
    unfold getitem. rewrite Hcols. reflexivity.
Defined.

(* ------------------------------------------------------------------ *)
(** ** C2: the first row of a flow series *)
(* ------------------------------------------------------------------ *)

(** The first row has no previous row: [dp] is NaN there, both tests of
    the rule are false, and the flow is the value of the last branch:
    [-q] on the bid side and [q] on the ask side. *)
Lemma side_flow_first_row :
  forall df s level P Q p0 q0,
    getitem df (px_col s level) = inr (NumCol P) ->
    getitem df (sz_col s level) = inr (NumCol Q) ->
    nth_error P 0 = Some p0 -> nth_error Q 0 = Some q0 ->
    exists flow,
      _side_flow df s level = inr flow /\
      nth_error (s_values flow) 0 =
      Some (match s with bid => fneg q0 | ask => q0 end).
Proof.
  intros df s level P Q p0 q0 HP HQ Hp Hq.
  rewrite (side_flow_eq df s level P Q HP HQ).
  eexists. split; [reflexivity|]. cbn [s_values].
  destruct P as [|p P]; [discriminate|]. destruct Q as [|q Q]; [discriminate|].
  simpl in Hp, Hq. inversion Hp; inversion Hq; subst.
  destruct s; reflexivity.
Qed.

(** C2.  On [book4] the flows of the first message are numbers, not
    missing values: [-5] on the bid side (the negated bid size), [6] on
    the ask side, [-11] for the OFI; and the bar of the first minute, [6],
    is the sum [-11 + 7 + 10] that counts the first message. *)
Theorem first_row_flow_on_book4 :
  _side_flow book4 bid 0 =
    inr (mkSeries [0; 1; 2; 3] [num (-5); num 7; num 2; num (-4)]) /\
  _side_flow book4 ask 0 =
    inr (mkSeries [0; 1; 2; 3] [num 6; num 0; num (-8); num 2]) /\
  exists out bar h,
    add_level_ofi 0%nat [book4] = (inr 1%nat, [book4; out]) /\
    getitem out "ofi_00" = inr (NumCol [num (-11); num 7; num 10; num (-6)]) /\
    aggregate_ofi 1%nat minute false [book4; out] = (inr bar, h) /\
    index bar = [0; minute] /\
    getitem bar "ofi_00" = inr (NumCol [num 6; num (-6)]).
Proof.
  split; [reflexivity|]. split; [reflexivity|].
  destruct (add_level_ofi 0%nat [book4]) as [[e|r] h] eqn:E;
    vm_compute in E; [discriminate|].
  inversion E as [[Hr Hh]]. clear E.
  eexists. eexists. eexists.
  split; [reflexivity|]. split; [reflexivity|].
  split; [vm_compute; reflexivity|]. split; reflexivity.
Qed.

(* ------------------------------------------------------------------ *)
(** ** Masks, groups and [dropna] *)
(* ------------------------------------------------------------------ *)

Lemma select_map_filter {A B} (p : A -> bool) (g : A -> B) :
  forall l, select (map p l) (map g l) = map g (filter p l).
Proof.
  induction l as [|x l IH]; simpl; auto.
  destruct (p x); simpl; now rewrite IH.
Qed.

Lemma select_filter {A} (p : A -> bool) :
  forall l, select (map p l) l = filter p l.
Proof.
  intros l. rewrite <- (map_id l) at 2. rewrite select_map_filter.
  apply map_id.
Qed.

Lemma map2_map {A B C D} (f : B -> C -> D) (g : A -> B) (k : A -> C) :
  forall l, map2 f (map g l) (map k l) = map (fun x => f (g x) (k x)) l.
Proof.
  induction l as [|x l IH]; simpl; auto. now rewrite IH.
Qed.

(** The group [resample] forms for a bin holds the values of the
    messages of that bucket. *)
Lemma bin_values_bucket_rows :
  forall w b ts v, bin_values w b ts v = bucket_rows w b ts v.
Proof.
  intros w b. unfold bin_values, bucket_rows, in_bin.
  induction ts as [|t ts IH]; intros [|x v]; simpl; auto.
  - now destruct ((b <=? t) && (t <? b + w)).
  - destruct ((b <=? t) && (t <? b + w)); simpl; now rewrite IH.
Qed.

Lemma dropna_mask_tabulate :
  forall idx name cell ls,
    fold_right (fun (nc : string * column) acc =>
                  map2 andb (col_notna (snd nc)) acc)
               (map (fun _ => true) idx)
               (map (fun m => (name m, NumCol (map (cell m) idx))) ls)
    = map (complete_row ls cell) idx.
Proof.
  intros idx name cell. induction ls as [|m ls IH]; simpl.
  - reflexivity.
  - rewrite IH. cbn [col_notna]. rewrite map_map. now rewrite map2_map.
Qed.

Lemma dropna_tabulate :
  forall idx ls name cell,
    dropna (tabulate idx ls name cell) =
    tabulate (filter (complete_row ls cell) idx) ls name cell.
Proof.
  intros idx ls name cell. unfold dropna, tabulate. cbn [index columns].
  rewrite dropna_mask_tabulate. unfold select_rows. cbn [index columns].
  rewrite select_filter. f_equal. rewrite map_map.
  apply map_ext. intros m. cbn [fst snd select_col].
  now rewrite select_map_filter.
Qed.

Lemma select_columns_levels :
  forall cs (name : nat -> string) (V : nat -> list float64) ls,
    (forall m, In m ls -> assoc (name m) cs = Some (NumCol (V m))) ->
    select_columns cs (map name ls) =
    inr (map (fun m => (name m, NumCol (V m))) ls).
Proof.
  intros cs name V. induction ls as [|m ls IH]; intros H; simpl; auto.
  rewrite (H m) by now left. rewrite IH by (intros; apply H; now right).
  reflexivity.
Qed.

Lemma numeric_columns_levels :
  forall (name : nat -> string) (V : nat -> list float64) ls,
    numeric_columns (map (fun m : nat => (name m, NumCol (V m))) ls) =
    inr (map (fun m => (name m, V m)) ls).
Proof.
  intros name V. induction ls as [|m ls IH]; simpl; auto. now rewrite IH.
Qed.

Lemma numeric_columns_tabulate :
  forall idx ls name cell,
    numeric_columns (columns (tabulate idx ls name cell)) =
    inr (map (fun m => (name m, map (cell m) idx)) ls).
Proof.
  intros. unfold tabulate. cbn [columns].
  apply (numeric_columns_levels name (fun m => map (cell m) idx)).
Qed.

(** [set_index("ts_event")[labels].resample(freq).agg()] on a frame whose
    labelled columns are numeric, followed by any computation [K]. *)
Lemma resample_levels_then :
  forall {A} (K : DataFrame -> result A) agg w d ts
         (name : nat -> string) (V : nat -> list float64),
    0 < w -> has_timestamps d ts ->
    (forall m, (m < 10)%nat -> name m <> "ts_event"%string) ->
    (forall m, (m < 10)%nat -> getitem d (name m) = inr (NumCol (V m))) ->
    (k <- set_index d "ts_event" ;;
     k <- getitems k (map name LEVELS) ;;
     r <- resample agg w k ;;
     K r)%res =
    K (tabulate (bin_labels w ts) LEVELS name
                (fun m b => agg (bucket_rows w b ts (V m)))).
Proof.
  intros A K agg w d ts name V Hw Hts Hname HV.
  unfold set_index. rewrite Hts. cbn [rbind]. unfold getitems. cbn [kcolumns key].
  rewrite (select_columns_levels _ name V).
  2: { intros m Hm. apply In_LEVELS in Hm.
       rewrite assoc_remove_other by (apply not_eq_sym, Hname, Hm).
       specialize (HV m Hm). unfold getitem in HV.
       destruct (assoc (name m) (columns d)); now inversion HV. }
  cbn [rbind]. unfold resample. cbn [key kcolumns].
  destruct (Z.leb_spec w 0) as [Hle|_]; [lia|].
  rewrite numeric_columns_levels. cbn [rbind].
  rewrite map_map. cbn [fst snd].
  f_equal. unfold tabulate. f_equal.
  apply map_ext. intros m. f_equal. f_equal.
  apply map_ext. intros b. now rewrite bin_values_bucket_rows.
Qed.

(* ------------------------------------------------------------------ *)
(** ** The bucket grid *)
(* ------------------------------------------------------------------ *)

Lemma fold_min_le :
  forall rest t0 t, In t (t0 :: rest) -> fold_right Z.min t0 rest <= t.
Proof.
  induction rest as [|x rest IH]; intros t0 t H; simpl in *.
  - destruct H as [<-|[]]. lia.
  - destruct H as [<-|[<-|H]].
    + specialize (IH t0 t0 (or_introl eq_refl)). lia.
    + lia.
    + specialize (IH t0 t (or_intror H)). lia.
Qed.

Lemma fold_max_ge :
  forall rest t0 t, In t (t0 :: rest) -> t <= fold_right Z.max t0 rest.
Proof.
  induction rest as [|x rest IH]; intros t0 t H; simpl in *.
  - destruct H as [<-|[]]. lia.
  - destruct H as [<-|[<-|H]].
    + specialize (IH t0 t0 (or_introl eq_refl)). lia.
    + lia.
    + specialize (IH t0 t (or_intror H)). lia.
Qed.

Lemma earliest_le : forall ts t, In t ts -> earliest ts <= t.
Proof. intros [|t0 rest] t H; [contradiction | now apply fold_min_le]. Qed.

Lemma latest_ge : forall ts t, In t ts -> t <= latest ts.
Proof. intros [|t0 rest] t H; [contradiction | now apply fold_max_ge]. Qed.

(** A timestamp lies in the bucket that carries its label. *)
Lemma bin_label_bounds :
  forall o w t, 0 < w -> bin_label o w t <= t < bin_label o w t + w.
Proof.
  intros o w t Hw. unfold bin_label.
  pose proof (Z.div_mod (t - o) w ltac:(lia)) as Hdm.
  pose proof (Z.mod_pos_bound (t - o) w Hw) as Hb.
  lia.
Qed.

Lemma bin_label_mono :
  forall o w a b, 0 < w -> a <= b -> (a - o) / w <= (b - o) / w.
Proof. intros. apply Z.div_le_mono; lia. Qed.

(** The grid [resample] lays out has a bin for every message. *)
Lemma bin_label_in_labels :
  forall w ts t,
    0 < w -> In t ts ->
    In (bin_label (start_day (earliest ts)) w t) (bin_labels w ts).
Proof.
  intros w ts t Hw Ht.
  pose proof (earliest_le ts t Ht) as Hlo.
  pose proof (latest_ge ts t Ht) as Hhi.
  unfold bin_labels. destruct ts as [|t0 rest]; [contradiction|].
  set (o := start_day (earliest (t0 :: rest))).
  cbv zeta. unfold bin_label.
  set (ql := (earliest (t0 :: rest) - o) / w).
  set (qh := (latest (t0 :: rest) - o) / w).
  set (qt := (t - o) / w).
  assert (Hql : ql <= qt) by (apply bin_label_mono; lia).
  assert (Hqh : qt <= qh) by (apply bin_label_mono; lia).
  replace (o + qh * w - (o + ql * w)) with ((qh - ql) * w) by lia.
  rewrite Z.div_mul by lia.
  apply in_map_iff. exists (Z.to_nat (qt - ql)). split.
  - rewrite Z2Nat.id by lia. lia.
  - apply in_seq. lia.
Qed.

Lemma Forall_lt_grid :
  forall a w s n x,
    0 < w -> x < a + Z.of_nat s * w ->
    Forall (Z.lt x) (map (fun k => a + Z.of_nat k * w) (seq s n)).
Proof.
  intros a w s n x Hw Hx. apply Forall_forall. intros y Hy.
  apply in_map_iff in Hy. destruct Hy as (k & <- & Hk).
  apply in_seq in Hk. nia.
Qed.

Lemma grid_sorted :
  forall a w n s,
    0 < w -> StronglySorted Z.lt (map (fun k => a + Z.of_nat k * w) (seq s n)).
Proof.
  intros a w. induction n as [|n IH]; intros s Hw; simpl.
  - constructor.
  - constructor; [now apply IH|]. apply Forall_lt_grid; auto. lia.
Qed.

Lemma bin_labels_sorted :
  forall w ts, 0 < w -> StronglySorted Z.lt (bin_labels w ts).
Proof.
  intros w [|t0 rest] Hw; unfold bin_labels.
  - constructor.
  - now apply grid_sorted.
Qed.

Lemma filter_sorted :
  forall (p : Z -> bool) l,
    StronglySorted Z.lt l -> StronglySorted Z.lt (filter p l).
Proof.
  intros p. induction l as [|x l IH]; intros H; simpl.
  - constructor.
  - inversion H as [|? ? Hs Hall]; subst.
    destruct (p x); [|now apply IH].
    constructor; [now apply IH|].
    apply Forall_forall. intros y Hy. apply filter_In in Hy.
    rewrite Forall_forall in Hall. now apply Hall.
Qed.

Lemma sorted_NoDup : forall l, StronglySorted Z.lt l -> NoDup l.
Proof.
  induction l as [|x l IH]; intros H; constructor;
    inversion H as [|? ? Hs Hall]; subst.
  - intros Hin. rewrite Forall_forall in Hall. specialize (Hall x Hin). lia.
  - now apply IH.
Qed.

(* ------------------------------------------------------------------ *)
(** ** Cells of a tabulated frame *)
(* ------------------------------------------------------------------ *)

Lemma at_label_map {A} (g : Z -> A) :
  forall idx b, In b idx -> at_label idx (map g idx) b = Some (g b).
Proof.
  induction idx as [|i idx IH]; intros b H; simpl in *; [contradiction|].
  destruct (Z.eqb_spec i b) as [->|Hne]; auto.
  destruct H as [H|H]; [contradiction | now apply IH].
Qed.

Lemma at_label_map_absent {A} (g : Z -> A) :
  forall idx b, ~ In b idx -> at_label idx (map g idx) b = None.
Proof.
  induction idx as [|i idx IH]; intros b H; simpl in *; auto.
  destruct (Z.eqb_spec i b) as [->|Hne]; [tauto|]. apply IH. tauto.
Qed.

Lemma assoc_levels :
  forall (name : nat -> string) (c : nat -> column) ls m,
    In m ls -> (forall m', In m' ls -> name m' = name m -> m' = m) ->
    assoc (name m) (map (fun k => (name k, c k)) ls) = Some (c m).
Proof.
  intros name c. induction ls as [|k ls IH]; intros m Hm Hinj; simpl in *.
  - contradiction.
  - destruct (String.eqb_spec (name k) (name m)) as [E|E].
    + now rewrite (Hinj k (or_introl eq_refl) E).
    + destruct Hm as [->|Hm]; [congruence|]. apply IH; auto.
Qed.

Lemma loc_tabulate :
  forall idx ls name cell b m,
    In b idx -> In m ls ->
    (forall m', In m' ls -> name m' = name m -> m' = m) ->
    loc (tabulate idx ls name cell) b (name m) = Some (cell m b).
Proof.
  intros idx ls name cell b m Hb Hm Hinj. unfold loc, tabulate.
  cbn [columns index].
  rewrite (assoc_levels name (fun k => NumCol (map (cell k) idx))) by auto.
  now apply at_label_map.
Qed.

Lemma bucket_rows_nonempty :
  forall w b ts v,
    bucket_rows w b ts v <> [] -> exists t, In t ts /\ b <= t < b + w.
Proof.
  intros w b ts v H. unfold bucket_rows in H.
  destruct (filter _ (combine ts v)) as [|[t x] l] eqn:E; [now elim H|].
  assert (Hin : In (t, x) (filter (fun tv => (b <=? fst tv) && (fst tv <? b + w))
                                  (combine ts v))) by (rewrite E; now left).
  apply filter_In in Hin. destruct Hin as [Hin Hp]. simpl in Hp.
  apply andb_true_iff in Hp. destruct Hp as [H1 H2].
  exists t. split; [eapply in_combine_l; eauto | lia].
Qed.

Lemma bucket_sum_defined :
  forall w b ts v,
    notna (bucket_sum w b ts v) = true -> exists t, In t ts /\ b <= t < b + w.
Proof.
  intros w b ts v H. apply (bucket_rows_nonempty w b ts v).
  intros E. unfold bucket_sum in H. rewrite E in H. discriminate.
Qed.

(* ------------------------------------------------------------------ *)
(** ** C5: bars without normalisation *)
(* ------------------------------------------------------------------ *)

Lemma ofi_label_not_ts : forall m, ofi_col m <> "ts_event"%string.
Proof. intros m. discriminate. Qed.

Lemma aggregate_ofi_unnormalised_run :
  forall h r d ts V w,
    0 < w -> nth_error h r = Some d -> has_timestamps d ts -> has_ofi d V ->
    aggregate_ofi r w false h = (inr (ofi_bars w ts V), h).
Proof.
  intros h r d ts V w Hw Hr Hts HV.
  unfold aggregate_ofi, mbind, deref, lift, mret. rewrite Hr.
  rewrite (resample_levels_then _ sum_min_count1 w d ts ofi_col V Hw Hts
             (fun m _ => ofi_label_not_ts m) HV).
  now rewrite dropna_tabulate.
Qed.

(** Without normalisation the heap is left as it was, whatever the
    frame and whatever the outcome. *)
Lemma aggregate_ofi_unnormalised_heap :
  forall r w h, snd (aggregate_ofi r w false h) = h.
Proof.
  intros r w h. unfold aggregate_ofi, mbind, deref, mret.
  destruct (nth_error h r) as [d|]; [|reflexivity].
  match goal with |- context [lift ?x h] => destruct x as [e|bar] end;
    reflexivity.
Qed.

Lemma kept_labels_sorted :
  forall w ts cell, 0 < w -> StronglySorted Z.lt (kept_labels w ts cell).
Proof.
  intros. unfold kept_labels. apply filter_sorted. now apply bin_labels_sorted.
Qed.

Lemma kept_labels_iff :
  forall w ts cell b,
    In b (kept_labels w ts cell) <->
    In b (bin_labels w ts) /\
    forall m, (m < 10)%nat -> notna (cell m b) = true.
Proof.
  intros w ts cell b. unfold kept_labels, complete_row.
  rewrite filter_In, forallb_forall.
  split; intros [H1 H2]; split; auto; intros m Hm; apply H2; now apply In_LEVELS.
Qed.

(** C5.  For a per-message table with a timestamp column [ts] and numeric
    OFI columns [V], and a bucket width [w > 0], the unnormalised
    aggregation returns a bar table, leaving the heap as it was, such
    that: the bucket labels are strictly increasing (one row per bucket);
    the cell of a bucket [b] and a level is exactly the sum of the
    (non-missing) OFI values of the messages stamped in [[b, b + w)]; a
    bucket holding no message is not a row of the table; and the bucket of
    a message is a row as soon as every level has a defined sum there. *)
Theorem aggregate_ofi_bar_sums :
  forall h r d ts V w,
    0 < w -> nth_error h r = Some d -> has_timestamps d ts -> has_ofi d V ->
    exists bar,
      aggregate_ofi r w false h = (inr bar, h) /\
      map fst (columns bar) = map ofi_col LEVELS /\
      StronglySorted Z.lt (index bar) /\
      (forall b m, In b (index bar) -> (m < 10)%nat ->
         loc bar b (ofi_col m) = Some (bucket_sum w b ts (V m)) /\
         notna (bucket_sum w b ts (V m)) = true) /\
      (forall b, (forall t, In t ts -> ~ (b <= t < b + w)) ->
         ~ In b (index bar)) /\
      (forall t, In t ts ->
         let b := bin_label (start_day (earliest ts)) w t in
         b <= t < b + w /\
         ((forall m, (m < 10)%nat -> notna (bucket_sum w b ts (V m)) = true) ->
          In b (index bar))).
Proof.
  intros h r d ts V w Hw Hr Hts HV.
  exists (ofi_bars w ts V).
  split; [now apply (aggregate_ofi_unnormalised_run h r d)|].
  unfold ofi_bars, tabulate. cbn [index columns].
  split; [now rewrite map_map|].
  split; [now apply kept_labels_sorted|].
  split; [|split].
  - intros b m Hb Hm. split.
    + apply (loc_tabulate _ LEVELS ofi_col (ofi_cell w ts V)); auto.
      * now apply In_LEVELS.
      * intros m' Hm' E. apply ofi_col_inj; auto. now apply In_LEVELS.
    + apply kept_labels_iff in Hb. now apply (proj2 Hb).
  - intros b Hempty Hb. apply kept_labels_iff in Hb.
    destruct Hb as [_ Hb]. specialize (Hb 0%nat ltac:(lia)).
    apply bucket_sum_defined in Hb. destruct Hb as (t & Ht & Hin).
    now apply (Hempty t).
  - intros t Ht. cbv zeta. split; [now apply bin_label_bounds|].
    intros Hdef. apply kept_labels_iff. split; auto.
    now apply bin_label_in_labels.
Qed.

(* ------------------------------------------------------------------ *)
(** ** The depth columns *)
(* ------------------------------------------------------------------ *)

Lemma assoc_fold_set_other :
  forall (name : nat -> string) (c : nat -> column) n ls cs,
    (forall m, In m ls -> name m <> n) ->
    assoc n (fold_left (fun cs m => set_assoc (name m) (c m) cs) ls cs) =
    assoc n cs.
Proof.
  intros name c n. induction ls as [|k ls IH]; intros cs H; simpl; auto.
  rewrite IH by (intros; apply H; now right).
  apply assoc_set_other. apply H. now left.
Qed.

Lemma assoc_fold_set_in :
  forall (name : nat -> string) (c : nat -> column) ls m cs,
    In m ls ->
    (forall m', In m' ls -> name m' = name m -> m' = m) ->
    assoc (name m) (fold_left (fun cs m => set_assoc (name m) (c m) cs) ls cs) =
    Some (c m).
Proof.
  intros name c. induction ls as [|k ls IH]; intros m cs Hm Hinj; simpl.
  - contradiction.
  - destruct (in_dec Nat.eq_dec m ls) as [Hin|Hout].
    + apply IH; auto. intros m' Hm'. apply Hinj. now right.
    + destruct Hm as [->|Hm]; [|contradiction].
      rewrite assoc_fold_set_other.
      * apply assoc_set_same.
      * intros m' Hm' E. apply Hinj in E; [|now right]. congruence.
Qed.

Lemma depth_body_run :
  forall S m d,
    (forall s, getitem d (sz_col s m) = inr (NumCol (S s m))) ->
    depth_body m d =
    (inr tt, setitem d (depth_col m) (NumCol (depth_values S m))).
Proof.
  intros S m d HS. unfold depth_body, setcol.
  now rewrite (HS bid), (HS ask).
Qed.

Lemma depth_loop_run :
  forall S ls d,
    (forall s m, In m ls -> getitem d (sz_col s m) = inr (NumCol (S s m))) ->
    for_ ls depth_body d =
    (inr tt,
     mkFrame (index d)
       (fold_left (fun cs m => set_assoc (depth_col m) (NumCol (depth_values S m)) cs)
                  ls (columns d))).
Proof.
  induction ls as [|m ls IH]; intros d HS.
  - now destruct d.
  - cbn [for_]. unfold lbind.
    rewrite (depth_body_run S) by (intros; apply HS; now left).
    rewrite IH; [reflexivity|].
    intros s m' Hm'. rewrite getitem_setitem_other by apply depth_not_size.
    apply HS. now right.
Qed.

Lemma with_depth_timestamps :
  forall d S ts, has_timestamps d ts -> has_timestamps (with_depth d S) ts.
Proof.
  intros d S ts H. unfold has_timestamps, getitem, with_depth in *.
  cbn [columns]. rewrite assoc_fold_set_other; auto.
  intros m _. discriminate.
Qed.

Lemma with_depth_columns :
  forall d S m, (m < 10)%nat ->
    getitem (with_depth d S) (depth_col m) = inr (NumCol (depth_values S m)).
Proof.
  intros d S m Hm. unfold getitem, with_depth. cbn [columns].
  rewrite (assoc_fold_set_in depth_col (fun m => NumCol (depth_values S m))).
  - reflexivity.
  - now apply In_LEVELS.
  - intros m' Hm' E. apply depth_col_inj; auto. now apply In_LEVELS.
Qed.

(* ------------------------------------------------------------------ *)
(** ** Row means, alignment and division *)
(* ------------------------------------------------------------------ *)

Lemma rows_of_tabulated :
  forall (ls : list nat) (cell : nat -> Z -> float64) idx,
    rows_of (List.length idx) (map (fun m => map (cell m) idx) ls) =
    map (fun b => map (fun m => cell m b) ls) idx.
Proof.
  intros ls cell. induction idx as [|b idx IH]; simpl; auto.
  rewrite !map_map. simpl. f_equal.
  rewrite <- IH. f_equal.
Qed.

Lemma mean_axis1_tabulate :
  forall idx ls name cell,
    mean_axis1 (tabulate idx ls name cell) =
    inr (mkSeries idx (map (fun b => nanmean (map (fun m => cell m b) ls)) idx)).
Proof.
  intros. unfold mean_axis1. rewrite numeric_columns_tabulate. cbn [rbind].
  unfold tabulate. cbn [index]. rewrite map_map. cbn [snd].
  rewrite rows_of_tabulated. now rewrite map_map.
Qed.

Lemma mem_label_iff : forall b l, mem_label b l = true <-> In b l.
Proof.
  intros b l. unfold mem_label. rewrite existsb_exists. split.
  - intros (x & Hx & E). apply Z.eqb_eq in E. now subst.
  - intros H. exists b. split; auto. apply Z.eqb_refl.
Qed.

Lemma reindex_tabulated :
  forall (g : Z -> float64) idx new,
    reindex idx (map g idx) new =
    map (fun b => or_missing (mem_label b idx) (g b)) new.
Proof.
  intros g idx new. unfold reindex. apply map_ext. intros b.
  destruct (mem_label b idx) eqn:E.
  - apply mem_label_iff in E. now rewrite at_label_map.
  - rewrite at_label_map_absent; auto.
    intros H. apply mem_label_iff in H. congruence.
Qed.

Lemma index_eqb_eq : forall l1 l2, index_eqb l1 l2 = true -> l1 = l2.
Proof.
  induction l1 as [|x l1 IH]; intros [|y l2] H; simpl in H; try discriminate; auto.
  apply andb_true_iff in H. destruct H as [E H].
  apply Z.eqb_eq in E. subst. f_equal. now apply IH.
Qed.

Lemma div_axis0_tabulated :
  forall kb kd ls name (cell : nat -> Z -> float64) (dv : Z -> float64),
    div_axis0 (tabulate kb ls name cell) (mkSeries kd (map dv kd)) =
    inr (tabulate (joined_labels kb kd) ls name
           (fun m b => fdiv (or_missing (mem_label b kb) (cell m b))
                            (or_missing (mem_label b kd) (dv b)))).
Proof.
  intros kb kd ls name cell dv. unfold div_axis0.
  rewrite numeric_columns_tabulate. cbn [rbind].
  unfold joined_labels, tabulate. cbn [index s_index s_values].
  destruct (index_eqb kb kd) eqn:E.
  - apply index_eqb_eq in E. subst kd. f_equal. f_equal.
    rewrite map_map. apply map_ext. intros m. cbn [fst snd]. f_equal. f_equal.
    rewrite map2_map. apply map_ext_in. intros b Hb.
    apply mem_label_iff in Hb. now rewrite Hb.
  - f_equal. f_equal.
    rewrite map_map. apply map_ext. intros m. cbn [fst snd]. f_equal. f_equal.
    rewrite !reindex_tabulated. now rewrite map2_map.
Qed.

(* ------------------------------------------------------------------ *)
(** ** [aggregate_ofi] with normalisation *)
(* ------------------------------------------------------------------ *)

Lemma depth_label_not_ts : forall m, depth_col m <> "ts_event"%string.
Proof. intros m. discriminate. Qed.

Lemma nth_error_in_heap :
  forall (h : heap) r d, nth_error h r = Some d -> (r < List.length h)%nat.
Proof.
  intros h r d H. apply nth_error_Some. congruence.
Qed.

Lemma aggregate_ofi_normalised_run :
  forall h r d ts V S w,
    0 < w -> nth_error h r = Some d ->
    has_timestamps d ts -> has_ofi d V -> has_sizes d S ->
    aggregate_ofi r w true h =
    (inr (normalised_bars w ts V S), update r (with_depth d S) h).
Proof.
  intros h r d ts V S w Hw Hr Hts HV HS.
  unfold aggregate_ofi, mbind, deref, lift, mret, with_frame. rewrite Hr.
  rewrite (resample_levels_then _ sum_min_count1 w d ts ofi_col V Hw Hts
             (fun m _ => ofi_label_not_ts m) HV).
  rewrite dropna_tabulate.
  cbn [negb]. rewrite Hr.
  rewrite (depth_loop_run S)
    by (intros s m Hm; apply HS; now apply In_LEVELS).
  fold (with_depth d S).
  rewrite nth_error_update_same by (eapply nth_error_in_heap; eauto).
  rewrite (resample_levels_then _ nanmean w (with_depth d S) ts depth_col
             (depth_values S) Hw (with_depth_timestamps d S ts Hts)
             (fun m _ => depth_label_not_ts m)
             (fun m Hm => with_depth_columns d S m Hm)).
  cbv zeta. rewrite dropna_tabulate.
  rewrite mean_axis1_tabulate. cbn [rbind].
  unfold series_div_scalar. cbn [s_index s_values]. rewrite map_map.
  rewrite (div_axis0_tabulated _ _ LEVELS ofi_col
             (fun m b => sum_min_count1 (bucket_rows w b ts (V m)))
             (fun b => row_divisor w b ts S)).
  reflexivity.
Qed.

Lemma insert_label_In :
  forall x l b, In b (insert_label x l) <-> b = x \/ In b l.
Proof.
  intros x. induction l as [|y l IH]; intros b; simpl.
  - intuition.
  - destruct (Z.ltb_spec x y); [simpl; intuition|].
    destruct (Z.eqb_spec x y); simpl; [subst; intuition|].
    rewrite IH. intuition.
Qed.

Lemma index_union_In :
  forall l1 l2 b, In b (index_union l1 l2) <-> In b l1 \/ In b l2.
Proof.
  intros l1 l2 b. unfold index_union. rewrite <- in_app_iff.
  induction (l1 ++ l2) as [|x l IH]; simpl; [tauto|].
  rewrite insert_label_In, IH. intuition.
Qed.

Lemma joined_labels_In :
  forall kb kd b, In b (joined_labels kb kd) <-> In b kb \/ In b kd.
Proof.
  intros kb kd b. unfold joined_labels.
  destruct (index_eqb kb kd) eqn:E.
  - apply index_eqb_eq in E. subst. tauto.
  - apply index_union_In.
Qed.

(** A cell of the normalised table. *)
Lemma loc_normalised_bars :
  forall w ts V S b m,
    In b (index (normalised_bars w ts V S)) -> (m < 10)%nat ->
    loc (normalised_bars w ts V S) b (ofi_col m) =
    Some (fdiv (aligned_sum w ts V m b) (aligned_divisor w ts S b)).
Proof.
  intros w ts V S b m Hb Hm. unfold normalised_bars in *.
  apply (loc_tabulate _ LEVELS ofi_col
           (fun m b => fdiv (aligned_sum w ts V m b) (aligned_divisor w ts S b)));
    auto.
  - now apply In_LEVELS.
  - intros m' Hm' E. apply ofi_col_inj; auto. now apply In_LEVELS.
Qed.

Lemma fdiv_nan_r : forall x, fdiv x NaN = NaN.
Proof. now intros [a| | |]. Qed.

Lemma fdiv_nan_l : forall y, fdiv NaN y = NaN.
Proof. now intros [a| | |]. Qed.

Lemma fdiv_missing_divisor : forall x y, isna y = true -> fdiv x y = NaN.
Proof. intros x [a| | |] H; try discriminate. apply fdiv_nan_r. Qed.

Lemma fdiv_zero_divisor :
  forall x y, feq y fzero = true -> fdiv x y = div_by_zero x.
Proof.
  intros x [b| | |] H; simpl in H; try discriminate.
  unfold fdiv, div_by_zero, Qsign.
  destruct (b ?= 0)%Q; try discriminate. now destruct x.
Qed.

(* ------------------------------------------------------------------ *)
(** ** The divisor *)
(* ------------------------------------------------------------------ *)

Lemma fadd_nan_r : forall x, fadd x NaN = NaN.
Proof. now intros [a| | |]. Qed.

Lemma fold_fadd_nan : forall l, fold_left fadd l NaN = NaN.
Proof. induction l as [|x l IH]; simpl; auto. Qed.

Lemma fsum_missing : forall l, In NaN l -> fsum l = NaN.
Proof.
  unfold fsum. intros l. generalize fzero.
  induction l as [|x l IH]; intros acc H; simpl in *; [contradiction|].
  destruct H as [->|H]; [|now apply IH].
  rewrite fadd_nan_r. apply fold_fadd_nan.
Qed.

Lemma filter_all {A} (p : A -> bool) :
  forall l, forallb p l = true -> filter p l = l.
Proof.
  induction l as [|x l IH]; simpl; intros H; auto.
  apply andb_true_iff in H. destruct H as [-> H]. now rewrite IH.
Qed.

(** Without missing values the mean that skips them is the plain mean. *)
Lemma nanmean_no_missing :
  forall l, l <> [] -> forallb notna l = true -> nanmean l = mean l.
Proof.
  intros l Hne H. unfold nanmean, mean. rewrite (filter_all notna l H).
  destruct l; [now elim Hne | reflexivity].
Qed.

Lemma complete_row_false :
  forall ls cell b,
    complete_row ls cell b = false -> In NaN (map (fun m => cell m b) ls).
Proof.
  intros ls cell b. unfold complete_row.
  induction ls as [|m ls IH]; simpl; intros H; [discriminate|].
  apply andb_false_iff in H. destruct H as [H|H].
  - left. unfold notna in H. apply negb_false_iff in H.
    now destruct (cell m b).
  - right. now apply IH.
Qed.

Lemma complete_row_true :
  forall ls (cell : nat -> Z -> float64) b,
    complete_row ls cell b = true ->
    forallb notna (map (fun m => cell m b) ls) = true.
Proof.
  intros ls cell b. unfold complete_row.
  induction ls as [|m ls IH]; simpl; intros H; auto.
  apply andb_true_iff in H. destruct H as [-> H]. now apply IH.
Qed.

(** On the bucket grid, the divisor applied after alignment is the
    divisor of the specification: when a level has no mean depth in the
    bucket, both are missing. *)
Lemma aligned_divisor_spec :
  forall w ts S b,
    In b (bin_labels w ts) ->
    aligned_divisor w ts S b = bucket_divisor w b ts S.
Proof.
  intros w ts S b Hb. unfold aligned_divisor, bucket_divisor, row_divisor.
  unfold depth_bars, tabulate, kept_labels. cbn [index].
  destruct (complete_row LEVELS (depth_cell w ts S) b) eqn:E.
  - assert (Hin : mem_label b (filter (complete_row LEVELS (depth_cell w ts S))
                                      (bin_labels w ts)) = true).
    { apply mem_label_iff. apply filter_In. now split. }
    rewrite Hin. unfold or_missing. f_equal.
    apply nanmean_no_missing; [discriminate|].
    now apply (complete_row_true LEVELS (depth_cell w ts S)).
  - assert (Hout : mem_label b (filter (complete_row LEVELS (depth_cell w ts S))
                                       (bin_labels w ts)) = false).
    { apply not_true_is_false. intros H. apply mem_label_iff in H.
      apply filter_In in H. destruct H as [_ H]. congruence. }
    rewrite Hout. unfold or_missing, mean.
    rewrite fsum_missing
      by (apply (complete_row_false LEVELS (depth_cell w ts S)); exact E).
    reflexivity.
Qed.

Lemma normalised_labels_on_grid :
  forall w ts V S b,
    In b (index (normalised_bars w ts V S)) -> In b (bin_labels w ts).
Proof.
  intros w ts V S b H. unfold normalised_bars, tabulate in H. cbn [index] in H.
  apply joined_labels_In in H. unfold ofi_bars, depth_bars, tabulate in H.
  cbn [index] in H. unfold kept_labels in H.
  destruct H as [H|H]; apply filter_In in H; tauto.
Qed.

Lemma aligned_sum_present :
  forall w ts V m b,
    In b (index (ofi_bars w ts V)) ->
    aligned_sum w ts V m b = bucket_sum w b ts (V m).
Proof.
  intros w ts V m b H. unfold aligned_sum.
  apply mem_label_iff in H. now rewrite H.
Qed.

Lemma aligned_sum_absent :
  forall w ts V m b,
    ~ In b (index (ofi_bars w ts V)) -> aligned_sum w ts V m b = NaN.
Proof.
  intros w ts V m b H. unfold aligned_sum.
  destruct (mem_label b (index (ofi_bars w ts V))) eqn:E; auto.
  apply mem_label_iff in E. contradiction.
Qed.

Lemma aligned_divisor_absent :
  forall w ts S b,
    ~ In b (index (depth_bars w ts S)) -> aligned_divisor w ts S b = NaN.
Proof.
  intros w ts S b H. unfold aligned_divisor.
  destruct (mem_label b (index (depth_bars w ts S))) eqn:E; auto.
  apply mem_label_iff in E. contradiction.
Qed.

(** The example tables have the columns [aggregate_ofi] reads. *)
Lemma ofi_messages_columns :
  forall ts ofi bs az,
    has_timestamps (ofi_messages ts ofi bs az) ts /\
    has_ofi (ofi_messages ts ofi bs az) (fun _ => ofi) /\
    has_sizes (ofi_messages ts ofi bs az)
              (fun s _ => match s with bid => bs | ask => az end).
Proof.
  intros ts ofi bs az. split; [reflexivity|]. split.
  - intros m Hm. apply In_LEVELS in Hm. unfold LEVELS in Hm; simpl in Hm.
    repeat (destruct Hm as [<-|Hm]); try contradiction; reflexivity.
  - intros s m Hm. apply In_LEVELS in Hm. unfold LEVELS in Hm; simpl in Hm.
    repeat (destruct Hm as [<-|Hm]); try contradiction; destruct s; reflexivity.
Qed.

(* ------------------------------------------------------------------ *)
(** ** C3: what the stages do to their input *)
(* ------------------------------------------------------------------ *)

(** C3.  [aggregate_ofi] with normalisation writes into the frame it is
    given: called on [two_minutes], which has no [depth_00] column, it
    leaves the caller's frame with ten more columns, [depth_00] to
    [depth_09]. *)
Theorem aggregate_ofi_normalise_mutates_input :
  exists res d',
    aggregate_ofi 0%nat minute true [two_minutes] = (inr res, [d']) /\
    getitem two_minutes "depth_00" = inl (KeyError_column "depth_00") /\
    getitem d' "depth_00" = inr (NumCol [num 2; num 2]) /\
    List.length (columns two_minutes) = 31%nat /\
    List.length (columns d') = 41%nat /\
    d' <> two_minutes.
Proof.
  destruct (ofi_messages_columns [0; minute] [num 3; num 4]
              [num 1; num 1] [num 1; num 1]) as (Hts & HV & HS).
  fold two_minutes in Hts, HV, HS.
  eexists. eexists. split.
  - rewrite (aggregate_ofi_normalised_run [two_minutes] 0%nat two_minutes
               _ _ _ minute eq_refl eq_refl Hts HV HS).
    reflexivity.
  - cbn [update]. split; [reflexivity|]. split; [reflexivity|].
    split; [reflexivity|]. split; [reflexivity|].
    intros E. apply (f_equal (fun d => List.length (columns d))) in E.
    vm_compute in E. discriminate.
Qed.

(* ------------------------------------------------------------------ *)
(** ** C7: how sums and divisors are joined *)
(* ------------------------------------------------------------------ *)

(** C7, as stated, fails: in [missing_first_ofi] the first minute has a
    mean depth but no OFI sum, and it is a row of the result all the
    same, filled with missing values. *)
Lemma normalised_join_keeps_unmatched_bucket :
  exists res h',
    aggregate_ofi 0%nat minute true [missing_first_ofi] = (inr res, h') /\
    ~ In 0 (index (ofi_bars minute [0; minute] (fun _ => [NaN; num 4]))) /\
    In 0 (index (depth_bars minute [0; minute] (fun _ _ => [num 1; num 1]))) /\
    In 0 (index res) /\
    index res = [0; minute] /\
    getitem res "ofi_00" = inr (NumCol [NaN; num 4]).
Proof.
  destruct (aggregate_ofi 0%nat minute true [missing_first_ofi])
    as [[e|res] h'] eqn:E; vm_compute in E; [discriminate|].
  inversion E as [[Hres Hh]]. clear E.
  eexists. eexists. split; [reflexivity|].
  split.
  - vm_compute. intros [H|[]]. discriminate.
  - split; [vm_compute; auto|]. split; [vm_compute; auto|].
    split; reflexivity.
Qed.

(** C7 (amended).  The normalised table has a row for every bucket that
    has an OFI sum or a mean depth (the union of the two sets of labels),
    and in the row of a bucket that one of the two lacks every value is
    missing. *)
Theorem normalised_bars_outer_join :
  forall h r d ts V S w,
    0 < w -> nth_error h r = Some d ->
    has_timestamps d ts -> has_ofi d V -> has_sizes d S ->
    exists res h',
      aggregate_ofi r w true h = (inr res, h') /\
      (forall b, In b (index res) <->
                 In b (index (ofi_bars w ts V)) \/
                 In b (index (depth_bars w ts S))) /\
      (forall b m, In b (index res) -> (m < 10)%nat ->
         ~ In b (index (ofi_bars w ts V)) \/
         ~ In b (index (depth_bars w ts S)) ->
         loc res b (ofi_col m) = Some NaN).
Proof.
  intros h r d ts V S w Hw Hr Hts HV HS.
  eexists. eexists.
  split; [now apply (aggregate_ofi_normalised_run h r d ts V S w)|].
  split.
  - intros b. unfold normalised_bars, tabulate. cbn [index].
    apply joined_labels_In.
  - intros b m Hb Hm Hone. rewrite loc_normalised_bars by auto.
    destruct Hone as [H|H].
    + rewrite aligned_sum_absent by auto. now rewrite fdiv_nan_l.
    + rewrite aligned_divisor_absent by auto. now rewrite fdiv_nan_r.
Qed.

Lemma normalised_bars_outer_join_witness :
  exists res h',
    aggregate_ofi 0%nat minute true [missing_first_ofi] = (inr res, h') /\
    loc res 0 (ofi_col 3) = Some NaN.
Proof.
  destruct (ofi_messages_columns [0; minute] [NaN; num 4]
              [num 1; num 1] [num 1; num 1]) as (Hts & HV & HS).
  destruct (normalised_bars_outer_join [missing_first_ofi] 0%nat
              missing_first_ofi _ _ _ minute eq_refl eq_refl Hts HV HS)
    as (res & h' & Hrun & Hidx & Hnan).
  exists res, h'. split; [exact Hrun|].
  apply Hnan.
  - apply Hidx. right. vm_compute. auto.
  - lia.
  - left. vm_compute. intros [H|[]]. discriminate.
Defined.

(** Every cell of the normalised table, in terms of the divisor of the
    specification. *)
Lemma normalised_cells_by_divisor :
  forall h r d ts V S w,
    0 < w -> nth_error h r = Some d ->
    has_timestamps d ts -> has_ofi d V -> has_sizes d S ->
    exists res h',
      aggregate_ofi r w true h = (inr res, h') /\
      forall b m, In b (index res) -> (m < 10)%nat ->
        loc res b (ofi_col m) =
          Some (fdiv (aligned_sum w ts V m b) (bucket_divisor w b ts S)).
Proof.
  intros h r d ts V S w Hw Hr Hts HV HS.
  eexists. eexists.
  split; [now apply (aggregate_ofi_normalised_run h r d ts V S w)|].
  intros b m Hb Hm.
  rewrite loc_normalised_bars by auto.
  rewrite aligned_divisor_spec; auto.
  now apply (normalised_labels_on_grid w ts V S).
Qed.

(* ------------------------------------------------------------------ *)
(** ** C6: the divisor of a bucket *)
(* ------------------------------------------------------------------ *)

(** C6.  With normalisation, every cell of the result is the summed OFI
    of its bucket and level divided by the divisor of the bucket, and
    that divisor is the one the specification describes: depth (bid size
    plus ask size) per message and level, mean over the messages of the
    bucket, mean over the ten levels, halved.  It depends on the bucket
    and not on the level. *)
Theorem normalised_bars_divisor :
  forall h r d ts V S w,
    0 < w -> nth_error h r = Some d ->
    has_timestamps d ts -> has_ofi d V -> has_sizes d S ->
    exists res h',
      aggregate_ofi r w true h = (inr res, h') /\
      forall b m, In b (index res) -> (m < 10)%nat ->
        loc res b (ofi_col m) =
          Some (fdiv (aligned_sum w ts V m b) (bucket_divisor w b ts S)) /\
        (In b (index (ofi_bars w ts V)) ->
         aligned_sum w ts V m b = bucket_sum w b ts (V m)).
Proof.
  intros h r d ts V S w Hw Hr Hts HV HS.
  eexists. eexists.
  split; [now apply (aggregate_ofi_normalised_run h r d ts V S w)|].
  intros b m Hb Hm. split.
  - rewrite loc_normalised_bars by auto.
    rewrite aligned_divisor_spec; auto.
    now apply (normalised_labels_on_grid w ts V S).
  - apply aligned_sum_present.
Qed.

Lemma normalised_bars_divisor_witness :
  exists res h',
    aggregate_ofi 0%nat minute true [two_minutes] = (inr res, h') /\
    loc res minute (ofi_col 2) = Some (num 4).
Proof.
  destruct (ofi_messages_columns [0; minute] [num 3; num 4]
              [num 1; num 1] [num 1; num 1]) as (Hts & HV & HS).
  destruct (normalised_bars_divisor [two_minutes] 0%nat two_minutes
              _ _ _ minute eq_refl eq_refl Hts HV HS)
    as (res & h' & Hrun & Hcell).
  exists res, h'. split; [exact Hrun|].
  assert (Hin : In minute (index res)).
  { rewrite (aggregate_ofi_normalised_run [two_minutes] 0%nat two_minutes
               _ _ _ minute eq_refl eq_refl Hts HV HS) in Hrun.
    inversion Hrun. vm_compute. auto. }
  destruct (Hcell minute 2%nat Hin ltac:(lia)) as [Hloc _].
  rewrite Hloc. reflexivity.
Defined.

(* ------------------------------------------------------------------ *)
(** ** C4: a zero or missing divisor *)
(* ------------------------------------------------------------------ *)

(** C4, as stated, fails: in [empty_first_minute] nothing is displayed in
    the first minute, the divisor of that bucket is zero, and the
    normalised value is plus infinity. *)
Lemma zero_divisor_gives_infinity :
  exists res h',
    aggregate_ofi 0%nat minute true [empty_first_minute] = (inr res, h') /\
    bucket_divisor minute 0 [0; minute]
      (fun s _ => match s with bid => [num 0; num 1] | ask => [num 0; num 1] end)
      = Fin 0 /\
    loc res 0 "ofi_00" = Some PInf /\
    getitem res "ofi_00" = inr (NumCol [PInf; num 4]).
Proof.
  destruct (aggregate_ofi 0%nat minute true [empty_first_minute])
    as [[e|res] h'] eqn:E; vm_compute in E; [discriminate|].
  inversion E as [[Hres Hh]]. clear E.
  eexists. eexists. split; [reflexivity|].
  split; [reflexivity|]. split; reflexivity.
Qed.

(** C4 (amended).  The normalised aggregation raises nothing on a
    degenerate divisor.  In a bucket whose divisor is missing every
    value is missing; in a bucket whose divisor is zero a value is the
    quotient of the summed OFI by zero: missing when the sum is zero or
    missing, and otherwise the infinity that has the sign of the sum. *)
Theorem normalised_bars_degenerate_divisor :
  forall h r d ts V S w,
    0 < w -> nth_error h r = Some d ->
    has_timestamps d ts -> has_ofi d V -> has_sizes d S ->
    exists res h',
      aggregate_ofi r w true h = (inr res, h') /\
      forall b m, In b (index res) -> (m < 10)%nat ->
        (isna (bucket_divisor w b ts S) = true ->
         loc res b (ofi_col m) = Some NaN) /\
        (feq (bucket_divisor w b ts S) fzero = true ->
         loc res b (ofi_col m) = Some (div_by_zero (aligned_sum w ts V m b))).
Proof.
  intros h r d ts V S w Hw Hr Hts HV HS.
  destruct (normalised_cells_by_divisor h r d ts V S w Hw Hr Hts HV HS)
    as (res & h' & Hrun & Hcell).
  exists res, h'. split; [exact Hrun|].
  intros b m Hb Hm. rewrite (Hcell b m Hb Hm). split; intros H.
  - now rewrite fdiv_missing_divisor.
  - now rewrite fdiv_zero_divisor.
Qed.

Lemma normalised_bars_degenerate_divisor_witness :
  exists res h',
    aggregate_ofi 0%nat minute true [empty_first_minute] = (inr res, h') /\
    loc res 0 (ofi_col 0) = Some PInf.
Proof.
  destruct (ofi_messages_columns [0; minute] [num 3; num 4]
              [num 0; num 1] [num 0; num 1]) as (Hts & HV & HS).
  destruct (normalised_bars_degenerate_divisor [empty_first_minute] 0%nat
              empty_first_minute _ _ _ minute eq_refl eq_refl Hts HV HS)
    as (res & h' & Hrun & Hcell).
  exists res, h'. split; [exact Hrun|].
  assert (Hin : In 0 (index res)).
  { rewrite (aggregate_ofi_normalised_run [empty_first_minute] 0%nat
               empty_first_minute _ _ _ minute eq_refl eq_refl Hts HV HS) in Hrun.
    inversion Hrun. vm_compute. auto. }
  destruct (Hcell 0 0%nat Hin ltac:(lia)) as [_ Hzero].
  rewrite Hzero; reflexivity.
Defined.

(* ------------------------------------------------------------------ *)
(** ** Instances of C1 and C5 *)
(* ------------------------------------------------------------------ *)

Lemma side_flow_three_branch_rule_witness :
  exists flow,
    _side_flow book4 bid 0 = inr flow /\
    nth_error (s_values flow) 1 = Some (num 7).
Proof.
  destruct (side_flow_three_branch_rule book4 bid 0
              [num 100; num 101; num 101; num 100] [num 5; num 7; num 9; num 4]
              0 (num 100) (num 101) (num 5) (num 7)
              eq_refl eq_refl eq_refl eq_refl eq_refl eq_refl)
    as (flow & v & Hrun & _ & Hv & _ & Hrule).
  exists flow. split; [exact Hrun|].
  rewrite Hv. f_equal. now apply (Hrule I I).
Defined.

Lemma aggregate_ofi_bar_sums_witness :
  exists bar,
    aggregate_ofi 0%nat minute false [two_minutes] = (inr bar, [two_minutes]) /\
    loc bar minute (ofi_col 0) = Some (num 4).
Proof.
  destruct (ofi_messages_columns [0; minute] [num 3; num 4]
              [num 1; num 1] [num 1; num 1]) as (Hts & HV & _).
  destruct (aggregate_ofi_bar_sums [two_minutes] 0%nat two_minutes
              _ _ minute eq_refl eq_refl Hts HV)
    as (bar & Hrun & _ & _ & Hcell & _ & Hin).
  exists bar. split; [exact Hrun|].
  assert (Hb : In minute (index bar)).
  { apply (Hin minute); [simpl; auto|]. intros m Hm. reflexivity. }
  destruct (Hcell minute 0%nat Hb ltac:(lia)) as [Hloc _].
  rewrite Hloc. reflexivity.
Defined.

(* ------------------------------------------------------------------ *)
(** ** C8: the integrated OFI *)
(* ------------------------------------------------------------------ *)

Local Open Scope Q_scope.

Lemma finite_list :
  forall w, Forall finite w -> w = map Fin (map qval w).
Proof.
  induction w as [|x w IH]; intros H; simpl; auto.
  inversion H as [|? ? Hx Hw]; subst.
  destruct x; try contradiction. simpl. f_equal. now apply IH.
Qed.

Lemma fold_fadd_fin :
  forall l acc,
    exists q,
      fold_left fadd (map Fin l) (Fin acc) = Fin q /\
      q == acc + Qsum l /\
      ((l = [] /\ q = acc) \/ Qred q = q).
Proof.
  induction l as [|x l IH]; intros acc; simpl.
  - exists acc. split; [reflexivity|]. split; [ring | now left].
  - destruct (IH (Qred (acc + x))) as (q & Hq & Heq & Hcanon).
    exists q. split; [exact Hq|]. split.
    + rewrite Heq, Qred_correct. ring.
    + right. destruct Hcanon as [[-> ->]|H]; auto.
      apply Qred_involutive.
Qed.

Lemma fsum_fin :
  forall l,
    exists q,
      fsum (map Fin l) = Fin q /\ q == Qsum l /\ (l = [] \/ Qred q = q).
Proof.
  intros l. unfold fsum, fzero.
  destruct (fold_fadd_fin l 0) as (q & Hq & Heq & Hcanon).
  exists q. split; [exact Hq|]. split.
  - rewrite Heq. ring.
  - destruct Hcanon as [[-> _]|H]; auto.
Qed.

Lemma Qsum_abs_nonneg : forall l, 0 <= Qsum (Qabs_list l).
Proof.
  induction l as [|a l IH]; simpl.
  - apply Qle_refl.
  - rewrite Qred_correct.
    pose proof (Qabs_nonneg a) as Ha.
    replace 0 with (0 + 0) by reflexivity. now apply Qplus_le_compat.
Qed.

Lemma Qsum_abs_pos :
  forall l a, In a l -> ~ a == 0 -> 0 < Qsum (Qabs_list l).
Proof.
  induction l as [|x l IH]; intros a Hin Hne; simpl in *; [contradiction|].
  rewrite Qred_correct.
  pose proof (Qabs_nonneg x) as Hx.
  pose proof (Qsum_abs_nonneg l) as Hl.
  destruct Hin as [->|Hin].
  - assert (0 < Qabs a).
    { destruct (Qlt_le_dec 0 (Qabs a)) as [Hpos|Hle]; auto.
      exfalso. apply Hne. apply Qabs_Qle_condition in Hle.
      destruct Hle as [H1 H2]. now apply Qle_antisym. }
    replace 0 with (0 + 0) by reflexivity. now apply Qplus_lt_le_compat.
  - specialize (IH a Hin Hne). rewrite Qplus_comm.
    replace 0 with (0 + 0) by reflexivity. now apply Qplus_lt_le_compat.
Qed.

Lemma Qabs_scaled :
  forall a s, 0 < s -> Qred (Qabs (Qred (a / s))) == Qred (Qabs a) / s.
Proof.
  intros a s Hs. rewrite !Qred_correct. unfold Qdiv.
  rewrite Qabs_Qmult. rewrite (Qabs_pos (/ s)); [reflexivity|].
  apply Qinv_le_0_compat. now apply Qlt_le_weak.
Qed.

Lemma Qsum_scaled :
  forall s l, 0 < s ->
    Qsum (Qabs_list (map (fun a => Qred (a / s)) l)) == Qsum (Qabs_list l) / s.
Proof.
  intros s l Hs. unfold Qabs_list, Qsum.
  induction l as [|a l IH]; cbn [map fold_right].
  - unfold Qdiv. ring.
  - rewrite IH. rewrite (Qabs_scaled a s Hs). unfold Qdiv. ring.
Qed.

Lemma fabs_fin_list :
  forall l, map fabs (map Fin l) = map Fin (Qabs_list l).
Proof.
  intros l. unfold Qabs_list. now rewrite !map_map.
Qed.

(** The entries of a finite, non-zero vector scaled by its L1 norm have
    absolute values that sum to one. *)
Lemma l1_normalised_norm :
  forall w,
    Forall finite w -> (exists x, In x w /\ feq x fzero = false) ->
    np_sum (map fabs (l1_normalised w)) = Fin 1.
Proof.
  intros w Hfin (x & Hx & Hnz).
  rewrite (finite_list w Hfin) in *. set (l := map qval w) in *.
  apply in_map_iff in Hx. destruct Hx as (a & <- & Ha).
  assert (Hne : ~ a == 0).
  { intros E. unfold feq, fzero in Hnz. apply Qeq_alt in E.
    rewrite E in Hnz. discriminate. }
  unfold l1_normalised, np_sum. rewrite fabs_fin_list.
  destruct (fsum_fin (Qabs_list l)) as (s & Hs & Hseq & _).
  rewrite Hs.
  assert (Hpos : 0 < s) by (rewrite Hseq; now apply (Qsum_abs_pos l a)).
  assert (Hdiv : map (fun y => fdiv y (Fin s)) (map Fin l) =
                 map Fin (map (fun a => Qred (a / s)) l)).
  { rewrite !map_map. apply map_ext. intros b. unfold fdiv, Qsign.
    apply Qgt_alt in Hpos. now rewrite Hpos. }
  rewrite Hdiv, fabs_fin_list.
  destruct (fsum_fin (Qabs_list (map (fun a => Qred (a / s)) l)))
    as (t & Ht & Hteq & Hcanon).
  rewrite Ht. f_equal.
  assert (Hone : t == 1).
  { rewrite Hteq, Qsum_scaled by exact Hpos. rewrite <- Hseq.
    field. intros E. rewrite E in Hpos. now apply Qlt_irrefl in Hpos. }
  destruct Hcanon as [Hnil|Hcanon].
  - destruct l; [contradiction | discriminate].
  - rewrite <- Hcanon. now rewrite (Qred_complete t 1 Hone).
Qed.

Local Close Scope Q_scope.

(** C8.  Let the fit return the directions [w :: rest] for a numeric bar
    table (scikit-learn does when the table has at least [n_components]
    bars), with [w] finite, not zero, and one weight per column.  Then
    [integrated_ofi] scales [w] by the sum of the absolute values of its
    entries, the scaled weights have absolute values that sum to 1, and
    the value returned for a bar is the dot product of that bar's row
    with the scaled weights.  This holds for [w] and for [-w] alike. *)
Theorem integrated_ofi_l1_projection :
  forall PCA_components ofi_bar n_components w rest cols,
    PCA_components ofi_bar n_components = inr (w :: rest) ->
    Forall finite w -> (exists x, In x w /\ feq x fzero = false) ->
    numeric_columns (columns ofi_bar) = inr cols ->
    List.length cols = List.length w ->
    np_sum (map fabs (l1_normalised w)) = Fin 1 /\
    integrated_ofi PCA_components ofi_bar n_components =
    inr (mkSeries (index ofi_bar)
           (map (fun row => dot row (l1_normalised w))
                (rows_of (List.length (index ofi_bar)) (map snd cols)))).
Proof.
  intros PCA ofi_bar k w rest cols Hfit Hfin Hnz Hcols Hlen.
  split; [now apply l1_normalised_norm|].
  unfold integrated_ofi. rewrite Hfit. cbn [rbind].
  unfold matmul. rewrite Hcols. cbn [rbind].
  rewrite length_map, Hlen, Nat.eqb_refl. reflexivity.
Qed.

Lemma integrated_ofi_l1_projection_witness :
  np_sum (map fabs (l1_normalised [Fin (3 # 5); Fin (- 4 # 5)])) = Fin 1 /\
  integrated_ofi fit_3_4_5 two_level_bars 2 =
  inr (mkSeries [0; minute] [Fin (- 9 # 7); Fin (- 10 # 7)]).
Proof.
  destruct (integrated_ofi_l1_projection fit_3_4_5 two_level_bars 2%nat
              [Fin (3 # 5); Fin (- 4 # 5)]
              [[Fin (4 # 5); Fin (3 # 5)]]
              [("ofi_00"%string, [num 1; num 2]); ("ofi_01"%string, [num 3; num 4])]
              eq_refl) as [Hnorm Hrun].
  - repeat constructor.
  - exists (Fin (3 # 5)). split; [now left | reflexivity].
  - reflexivity.
  - reflexivity.
  - split; [exact Hnorm|]. rewrite Hrun. reflexivity.
Defined.

(* ------------------------------------------------------------------ *)
(** ** Row selection and the heap effects of the stages *)
(* ------------------------------------------------------------------ *)

Lemma assoc_map_columns :
  forall (f : column -> column) n cs,
    assoc n (map (fun nc : string * column => (fst nc, f (snd nc))) cs) =
    option_map f (assoc n cs).
Proof.
  intros f n. induction cs as [|[k c] cs IH]; simpl; auto.
  destruct (String.eqb k n); auto.
Qed.

Lemma getitem_select_rows :
  forall mask d n c,
    getitem d n = inr c ->
    getitem (select_rows mask d) n = inr (select_col mask c).
Proof.
  intros mask d n c H. unfold getitem, select_rows in *. cbn [columns].
  rewrite assoc_map_columns.
  destruct (assoc n (columns d)); inversion H. reflexivity.
Qed.

Lemma select_none {A} :
  forall mask (l : list A),
    existsb (fun b : bool => b) mask = false -> select mask l = [].
Proof.
  induction mask as [|b mask IH]; intros [|x l] H; simpl in *; auto;
    destruct b; simpl in *; try discriminate; auto.
Qed.

Lemma select_some {A} :
  forall mask (l : list A),
    existsb (fun b : bool => b) mask = true ->
    List.length l = List.length mask -> select mask l <> [].
Proof.
  induction mask as [|b mask IH]; intros [|x l] H Hlen; simpl in *;
    try discriminate.
  destruct b; simpl in *; [discriminate|]. apply IH; auto.
Qed.

Lemma assoc_In :
  forall n c cs, assoc n cs = Some c -> In (n, c) cs.
Proof.
  induction cs as [|[k v] cs IH]; simpl; intros H; [discriminate|].
  destruct (String.eqb_spec k n).
  - inversion H. subst. now left.
  - right. now apply IH.
Qed.

Lemma length_eq_mask :
  forall c sym, List.length (eq_mask c sym) = col_length c.
Proof.
  intros [v|v|v] sym; simpl; apply length_map.
Qed.

(** The reference [add_level_ofi] returns is the one it has just
    allocated. *)
Lemma add_level_ofi_ref :
  forall r h r' h',
    add_level_ofi r h = (inr r', h') -> r' = List.length h.
Proof.
  intros r h r' h'.
  unfold add_level_ofi, copy, mbind, deref, alloc, with_frame, mret.
  destruct (nth_error h r) as [d|]; [|discriminate].
  rewrite nth_error_alloc.
  destruct (for_ LEVELS level_body d) as [[e|[]] d']; intros H; inversion H.
  reflexivity.
Qed.

(** Whatever it returns, [aggregate_ofi] leaves every frame but the one
    it is given as it was. *)
Lemma aggregate_ofi_heap_other :
  forall r w n h i,
    i <> r -> nth_error (snd (aggregate_ofi r w n h)) i = nth_error h i.
Proof.
  intros r w n h i Hi.
  destruct n; [|now rewrite aggregate_ofi_unnormalised_heap].
  unfold aggregate_ofi, mbind, deref, mret, with_frame. cbn [negb].
  destruct (nth_error h r) as [d|] eqn:Hr; [|reflexivity].
  match goal with |- context [lift ?x h] => destruct x as [e|bar] end;
    [reflexivity|].
  unfold lift at 1. rewrite Hr.
  destruct (for_ LEVELS depth_body d) as [[e|[]] d'].
  - cbn [snd]. now apply nth_error_update_other.
  - rewrite nth_error_update_same by (eapply nth_error_in_heap; eauto).
    unfold lift. cbn [snd]. now apply nth_error_update_other.
Qed.

(* ------------------------------------------------------------------ *)
(** ** C9: a requested symbol without rows *)
(* ------------------------------------------------------------------ *)

Lemma absent_symbol_empty :
  forall d c sym,
    getitem d "symbol" = inr c -> has_symbol d sym = false ->
    empty (select_rows (eq_mask c sym) d) = true.
Proof.
  intros d c sym Hc H. unfold has_symbol in H. rewrite Hc in H.
  unfold empty, select_rows. cbn [index]. now rewrite select_none.
Qed.

(** The loop stops with an exception as soon as one of the symbols has
    no rows, if it has not stopped before. *)
Lemma collect_frames_missing_fails :
  forall raw rawd w n sym symbols,
    In sym symbols -> has_symbol rawd sym = false ->
    forall h frames,
      nth_error h raw = Some rawd ->
      exists e h', collect_frames raw symbols w n frames h = (inl e, h').
Proof.
  intros raw rawd w n sym. induction symbols as [|s symbols IH];
    intros Hin Hmiss h frames Hraw; [contradiction|].
  cbn [collect_frames]. unfold mbind, deref, lift, alloc, raise.
  rewrite Hraw.
  destruct (getitem rawd "symbol") as [e|c] eqn:Hc;
    [eexists; eexists; reflexivity|].
  rewrite nth_error_alloc.
  destruct (empty (select_rows (eq_mask c s) rawd)) eqn:He;
    [eexists; eexists; reflexivity|].
  destruct (add_level_ofi (List.length h) (h ++ [select_rows (eq_mask c s) rawd]))
    as [[e|msg] h1] eqn:Ha; [eexists; eexists; reflexivity|].
  destruct (aggregate_ofi msg w n h1) as [[e|bar] h2] eqn:Hb;
    [eexists; eexists; reflexivity|].
  apply IH; auto.
  - destruct Hin as [->|Hin]; auto.
    rewrite (absent_symbol_empty rawd c sym Hc Hmiss) in He. discriminate.
  - pose proof (nth_error_in_heap h raw rawd Hraw) as Hlt.
    pose proof (add_level_ofi_ref _ _ _ _ Ha) as Hmsg.
    destruct (add_level_ofi_extends_heap (List.length h)
                (h ++ [select_rows (eq_mask c s) rawd])) as (extra & Hext).
    rewrite Ha in Hext. cbn [snd] in Hext.
    replace h2 with (snd (aggregate_ofi msg w n h1)) by now rewrite Hb.
    rewrite aggregate_ofi_heap_other.
    + rewrite Hext, <- app_assoc. now rewrite nth_error_app1.
    + rewrite Hmsg, length_app. simpl. lia.
Qed.

Lemma assoc_fold_level_other :
  forall P S n ls cs,
    ~ In n (flat_map (fun m => [of_col bid m; of_col ask m; ofi_col m]) ls) ->
    assoc n (fold_left (fun cs m => set_all (level_columns P S m) cs) ls cs) =
    assoc n cs.
Proof.
  intros P S n. induction ls as [|m ls IH]; intros cs H; cbn [fold_left]; auto.
  cbn [flat_map] in H. rewrite in_app_iff in H.
  rewrite IH by tauto.
  apply assoc_set_all_other. intros nc Hnc E. apply H. left.
  simpl in Hnc. destruct Hnc as [<-|[<-|[<-|[]]]]; simpl in *; subst; auto.
Qed.

Lemma assoc_fold_level_ofi :
  forall P S ls m cs,
    In m ls -> (forall k, In k ls -> (k < 10)%nat) ->
    exists v,
      assoc (ofi_col m)
        (fold_left (fun cs m => set_all (level_columns P S m) cs) ls cs) =
      Some (NumCol v).
Proof.
  intros P S. induction ls as [|k ls IH]; intros m cs Hm Hlt; [contradiction|].
  cbn [fold_left].
  destruct (in_dec Nat.eq_dec m ls) as [Hin|Hout].
  - apply IH; auto. intros j Hj. apply Hlt. now right.
  - destruct Hm as [->|Hm]; [|contradiction].
    rewrite assoc_fold_level_other.
    + unfold set_all, level_columns. cbn [fold_left fst snd].
      rewrite assoc_set_same. eexists. reflexivity.
    + intros H. apply in_flat_map in H. destruct H as (j & Hj & Hin).
      simpl in Hin. destruct Hin as [E|[E|[E|[]]]].
      * symmetry in E. now apply ofi_not_of in E.
      * symmetry in E. now apply ofi_not_of in E.
      * apply ofi_col_inj in E; [congruence | |].
        -- apply Hlt. now right.
        -- apply Hlt. now left.
Qed.

Lemma not_flow_label :
  forall n,
    (forall s m, n <> of_col s m) -> (forall m, n <> ofi_col m) ->
    ~ In n flow_labels.
Proof.
  intros n Hof Hofi H. unfold flow_labels in H.
  apply in_flat_map in H. destruct H as (m & _ & Hin).
  simpl in Hin. destruct Hin as [E|[E|[E|[]]]]; symmetry in E.
  - now apply Hof in E.
  - now apply Hof in E.
  - now apply Hofi in E.
Qed.

(** The frame [add_level_ofi] returns has what [aggregate_ofi] reads. *)
Lemma flow_frame_columns :
  forall d P S ts Sz,
    has_timestamps d ts -> has_sizes d Sz ->
    let out := mkFrame (index d)
                 (fold_left (fun cs m => set_all (level_columns P S m) cs)
                            LEVELS (columns d)) in
    has_timestamps out ts /\ has_sizes out Sz /\ exists V, has_ofi out V.
Proof.
  intros d P S ts Sz Hts Hsz out. split; [|split].
  - unfold has_timestamps, getitem in *. unfold out. cbn [columns].
    rewrite assoc_fold_level_other; auto.
    apply not_flow_label; [intros [] m | intros m]; discriminate.
  - intros s m Hm. specialize (Hsz s m Hm).
    unfold getitem in *. unfold out. cbn [columns].
    rewrite assoc_fold_level_other; auto.
    apply not_flow_label.
    + intros s' m' E. symmetry in E.
      now apply (flow_label_not_book s' m' s m) in E.
    + intros m' E. symmetry in E.
      now apply (flow_label_not_book bid m' s m) in E.
  - exists (fun m =>
         match assoc (ofi_col m) (columns out) with
         | Some (NumCol v) => v
         | _ => []
         end).
    intros m Hm. unfold getitem.
    destruct (assoc_fold_level_ofi P S LEVELS m (columns d)) as (v & Hv).
    + now apply In_LEVELS.
    + intros k. apply In_LEVELS.
    + unfold out. cbn [columns]. now rewrite Hv.
Qed.

Lemma present_symbol_not_empty :
  forall d c sym,
    wf_frame d -> getitem d "symbol" = inr c -> has_symbol d sym = true ->
    empty (select_rows (eq_mask c sym) d) = false.
Proof.
  intros d c sym [_ Hlen] Hc H. unfold has_symbol in H. rewrite Hc in H.
  unfold getitem in Hc.
  destruct (assoc "symbol" (columns d)) as [c'|] eqn:E; inversion Hc; subst c'.
  apply assoc_In in E.
  pose proof (select_some (eq_mask c sym) (index d) H) as Hne.
  rewrite length_eq_mask, (Hlen _ _ E) in Hne. specialize (Hne eq_refl).
  unfold empty, select_rows. cbn [index columns].
  destruct (select (eq_mask c sym) (index d)); [now elim Hne|].
  destruct (columns d); [contradiction | reflexivity].
Qed.

(** One round of the loop for a symbol that has rows, on a raw table
    with the expected columns: both stages succeed and the raw table is
    left as it was. *)
Lemma present_symbol_round :
  forall raw rawd c w n s h,
    0 < w -> raw_schema rawd -> getitem rawd "symbol" = inr c ->
    nth_error h raw = Some rawd ->
    exists msg bar h1 h2,
      add_level_ofi (List.length h) (h ++ [select_rows (eq_mask c s) rawd])
        = (inr msg, h1) /\
      aggregate_ofi msg w n h1 = (inr bar, h2) /\
      nth_error h2 raw = Some rawd.
Proof.
  intros raw rawd c w n s h Hw (Hwf & _ & (ts & Hts) & (P & HP) & (Sz & HS))
         Hc Hraw.
  set (mask := eq_mask c s). set (sel := select_rows mask rawd).
  assert (Hts' : has_timestamps sel (select mask ts))
    by (apply (getitem_select_rows mask rawd _ _ Hts)).
  assert (HP' : has_prices sel (fun s m => select mask (P s m)))
    by (intros s' m Hm; apply (getitem_select_rows mask rawd _ _ (HP s' m Hm))).
  assert (HS' : has_sizes sel (fun s m => select mask (Sz s m)))
    by (intros s' m Hm; apply (getitem_select_rows mask rawd _ _ (HS s' m Hm))).
  pose proof (add_level_ofi_run (h ++ [sel]) (List.length h) sel _ _
                (nth_error_alloc h sel) HP' HS') as Hadd.
  set (out := mkFrame (index sel)
                (fold_left (fun cs m =>
                   set_all (level_columns (fun s m => select mask (P s m))
                                          (fun s m => select mask (Sz s m)) m) cs)
                   LEVELS (columns sel))) in *.
  destruct (flow_frame_columns sel (fun s m => select mask (P s m))
              (fun s m => select mask (Sz s m)) _ _ Hts' HS')
    as (Hts2 & HS2 & V & HV2). fold out in Hts2, HS2, HV2.
  pose proof (nth_error_alloc (h ++ [sel]) out) as Hout.
  pose proof (nth_error_in_heap h raw rawd Hraw) as Hlt.
  assert (Hkeep : forall h2,
             h2 = snd (aggregate_ofi (List.length (h ++ [sel])) w n
                         ((h ++ [sel]) ++ [out])) ->
             nth_error h2 raw = Some rawd).
  { intros h2 ->. rewrite aggregate_ofi_heap_other.
    - rewrite <- app_assoc. now rewrite nth_error_app1.
    - rewrite length_app. simpl. lia. }
  exists (List.length (h ++ [sel])).
  destruct n.
  - pose proof (aggregate_ofi_normalised_run _ _ out _ V _ w Hw Hout
                  Hts2 HV2 HS2) as Hagg.
    eexists. eexists. eexists. split; [exact Hadd|]. split; [exact Hagg|].
    apply Hkeep. now rewrite Hagg.
  - pose proof (aggregate_ofi_unnormalised_run _ _ out _ V w Hw Hout
                  Hts2 HV2) as Hagg.
    eexists. eexists. eexists. split; [exact Hadd|]. split; [exact Hagg|].
    apply Hkeep. now rewrite Hagg.
Qed.

Lemma collect_frames_first_missing :
  forall raw rawd w n sym post pre,
    0 < w -> raw_schema rawd ->
    (forall s, In s pre -> has_symbol rawd s = true) ->
    has_symbol rawd sym = false ->
    forall h frames,
      nth_error h raw = Some rawd ->
      exists h',
        collect_frames raw (pre ++ sym :: post) w n frames h =
        (inl (KeyError_symbol sym), h').
Proof.
  intros raw rawd w n sym post.
  induction pre as [|s pre IH]; intros Hw Hschema Hpre Hmiss h frames Hraw;
    pose proof Hschema as (Hwf & (syms & Hc) & _);
    cbn [app collect_frames]; unfold mbind at 1 2 3 4;
    unfold deref, lift, alloc, raise; rewrite Hraw, Hc, nth_error_alloc.
  - rewrite (absent_symbol_empty rawd _ sym Hc Hmiss).
    eexists. reflexivity.
  - rewrite (present_symbol_not_empty rawd _ s Hwf Hc)
      by (apply Hpre; now left).
    destruct (present_symbol_round raw rawd _ w n s h Hw Hschema Hc Hraw)
      as (msg & bar & h1 & h2 & Hadd & Hagg & Hkeep).
    unfold mbind. rewrite Hadd, Hagg.
    apply IH; auto. intros s' Hs'. apply Hpre. now right.
Qed.

(** C9.  When a requested symbol has no row in the raw table,
    [multi_asset_ofi] returns no combined table: it ends with an
    exception.  On a raw table that has the columns the pipeline reads,
    and for a positive bucket width, the exception is the symbol-not-found
    [KeyError] for the first requested symbol without rows: the symbols
    before it do not make the call fail, and the missing one is not
    skipped. *)
Theorem multi_asset_ofi_missing_symbol :
  forall h raw rawd symbols w n sym,
    nth_error h raw = Some rawd ->
    In sym symbols -> has_symbol rawd sym = false ->
    (exists e h', multi_asset_ofi raw symbols w n h = (inl e, h')) /\
    (0 < w -> raw_schema rawd ->
     forall pre post,
       symbols = pre ++ sym :: post ->
       (forall s, In s pre -> has_symbol rawd s = true) ->
       exists h',
         multi_asset_ofi raw symbols w n h = (inl (KeyError_symbol sym), h')).
Proof.
  intros h raw rawd symbols w n sym Hraw Hin Hmiss. split.
  - destruct (collect_frames_missing_fails raw rawd w n sym symbols Hin Hmiss
                h [] Hraw) as (e & h' & Hrun).
    exists e, h'. unfold multi_asset_ofi, mbind. now rewrite Hrun.
  - intros Hw Hschema pre post -> Hpre.
    destruct (collect_frames_first_missing raw rawd w n sym post pre Hw Hschema
                Hpre Hmiss h [] Hraw) as (h' & Hrun).
    exists h'. unfold multi_asset_ofi, mbind. now rewrite Hrun.
Qed.

Lemma book4_schema : raw_schema book4.
Proof.
  split; [split|].
  - unfold book4, book. cbn [columns map fst app flat_map LEVELS seq].
    repeat (constructor; [simpl; intuition discriminate|]). constructor.
  - intros n c H. unfold book4, book in H.
    cbn [columns app flat_map LEVELS seq] in H.
    repeat (destruct H as [H|H]; [inversion H; reflexivity|]). contradiction.
  - split; [eexists; reflexivity|]. split; [eexists; reflexivity|].
    split; [eexists; apply book_has_prices | eexists; apply book_has_sizes].
Qed.

Lemma multi_asset_ofi_missing_symbol_witness :
  (exists e h',
      multi_asset_ofi 0%nat ["A"; "B"]%string minute true [book4] = (inl e, h')) /\
  (exists h',
      multi_asset_ofi 0%nat ["A"; "B"]%string minute true [book4] =
      (inl (KeyError_symbol "B"), h')).
Proof.
  destruct (multi_asset_ofi_missing_symbol [book4] 0%nat book4
              ["A"; "B"]%string minute true "B"%string eq_refl)
    as [Hfail Hkey].
  - simpl. auto.
  - reflexivity.
  - split; [exact Hfail|].
    apply (Hkey eq_refl book4_schema ["A"%string] []); [reflexivity|].
    intros s [<-|[]]. reflexivity.
Defined.

(* ================================================================== *)
(** * Further properties *)
(* ================================================================== *)

(* ------------------------------------------------------------------ *)
(** ** [_side_flow]: shape of the result *)
(* ------------------------------------------------------------------ *)

Lemma length_flow_values :
  forall s P Q,
    List.length P = List.length Q ->
    List.length (flow_values s P Q) = List.length P.
Proof.
  intros s P Q H. unfold flow_values.
  destruct s; rewrite length_np_where; rewrite ?length_map, ?length_diff; auto;
    rewrite length_np_where; rewrite ?length_map, ?length_diff; auto.
Qed.

(** X1.  On a frame whose price and size columns for the side and level
    are numeric and equally long, [_side_flow] returns a series that
    carries the index of the frame and one flow per row. *)
Theorem side_flow_one_flow_per_row :
  forall df s level P Q,
    getitem df (px_col s level) = inr (NumCol P) ->
    getitem df (sz_col s level) = inr (NumCol Q) ->
    List.length P = List.length Q ->
    exists flow,
      _side_flow df s level = inr flow /\
      s_index flow = index df /\
      List.length (s_values flow) = List.length P.
Proof.
  intros df s level P Q HP HQ Hlen.
  rewrite (side_flow_eq df s level P Q HP HQ).
  eexists. split; [reflexivity|]. split; [reflexivity|].
  cbn [s_values]. now apply length_flow_values.
Qed.

Lemma side_flow_one_flow_per_row_witness :
  exists flow,
    _side_flow book4 ask 3 = inr flow /\
    s_index flow = [0; 1; 2; 3] /\
    List.length (s_values flow) = 4%nat.
Proof.
  exact (side_flow_one_flow_per_row book4 ask 3
           [num 102; num 102; num 101; num 103] [num 6; num 6; num 8; num 2]
           eq_refl eq_refl eq_refl).
Defined.

(* ------------------------------------------------------------------ *)
(** ** [add_level_ofi]: what the new columns hold *)
(* ------------------------------------------------------------------ *)

Lemma assoc_set_all_level :
  forall P S m cs nc,
    In nc (level_columns P S m) ->
    assoc (fst nc) (set_all (level_columns P S m) cs) = Some (snd nc).
Proof.
  intros P S m cs nc H. unfold set_all, level_columns in *.
  cbn [fold_left fst snd]. simpl in H.
  destruct H as [<-|[<-|[<-|[]]]]; cbn [fst snd].
  - rewrite assoc_set_other by apply ofi_not_of.
    rewrite assoc_set_other by discriminate.
    apply assoc_set_same.
  - rewrite assoc_set_other by apply ofi_not_of.
    apply assoc_set_same.
  - apply assoc_set_same.
Qed.

Lemma level_labels_of_columns :
  forall P S m nc,
    In nc (level_columns P S m) ->
    In (fst nc) [of_col bid m; of_col ask m; ofi_col m].
Proof.
  intros P S m nc H. simpl in H.
  destruct H as [<-|[<-|[<-|[]]]]; simpl; auto.
Qed.

Lemma assoc_fold_level_in :
  forall P S ls m cs nc,
    In m ls -> (forall k, In k ls -> (k < 10)%nat) ->
    In nc (level_columns P S m) ->
    assoc (fst nc)
      (fold_left (fun cs m => set_all (level_columns P S m) cs) ls cs) =
    Some (snd nc).
Proof.
  intros P S. induction ls as [|k ls IH]; intros m cs nc Hm Hlt Hnc;
    [contradiction|].
  cbn [fold_left].
  destruct (in_dec Nat.eq_dec m ls) as [Hin|Hout].
  - apply (IH m); auto. intros j Hj. apply Hlt. now right.
  - destruct Hm as [->|Hm]; [|contradiction].
    rewrite assoc_fold_level_other.
    + now apply assoc_set_all_level.
    + intros H. apply in_flat_map in H. destruct H as (j & Hj & Hin).
      apply (level_labels_disjoint m j (fst nc)).
      * apply Hlt. now left.
      * apply Hlt. now right.
      * intros ->. contradiction.
      * now apply (level_labels_of_columns P S).
      * exact Hin.
Qed.

(** X2.  On a frame with the forty numeric book columns, whether or not
    it already has flow columns, [add_level_ofi] returns a frame in which,
    on every level, [of_bid_NN] and [of_ask_NN] hold the flows
    [_side_flow] computes on the input, and [ofi_NN] is their difference
    row by row: bid flow minus ask flow. *)
Theorem add_level_ofi_flow_columns :
  forall h r d P S m,
    nth_error h r = Some d -> has_prices d P -> has_sizes d S ->
    (m < 10)%nat ->
    exists out fb fa,
      add_level_ofi r h = (inr (List.length h), h ++ [out]) /\
      _side_flow d bid m = inr (mkSeries (index d) fb) /\
      _side_flow d ask m = inr (mkSeries (index d) fa) /\
      getitem out (of_col bid m) = inr (NumCol fb) /\
      getitem out (of_col ask m) = inr (NumCol fa) /\
      getitem out (ofi_col m) = inr (NumCol (map2 fsub fb fa)) /\
      forall i x y,
        nth_error fb i = Some x -> nth_error fa i = Some y ->
        nth_error (map2 fsub fb fa) i = Some (fsub x y).
Proof.
  intros h r d P S m Hr HP HS Hm.
  rewrite (add_level_ofi_run h r d P S Hr HP HS).
  eexists. eexists. eexists. split; [reflexivity|].
  split; [apply side_flow_eq; [apply HP | apply HS]; exact Hm|].
  split; [apply side_flow_eq; [apply HP | apply HS]; exact Hm|].
  assert (Hcol : forall nc, In nc (level_columns P S m) ->
            getitem (mkFrame (index d)
                       (fold_left (fun cs m => set_all (level_columns P S m) cs)
                                  LEVELS (columns d))) (fst nc) = inr (snd nc)).
  { intros nc Hnc. unfold getitem. cbn [columns].
    rewrite (assoc_fold_level_in P S LEVELS m); auto.
    - now apply In_LEVELS.
    - intros k. apply In_LEVELS. }
  split; [apply (Hcol (_, _)); simpl; auto|].
  split; [apply (Hcol (_, _)); simpl; auto|].
  split; [apply (Hcol (_, _)); simpl; auto|].
  intros i x y. apply nth_error_map2.
Qed.

Lemma add_level_ofi_flow_columns_witness :
  exists out,
    add_level_ofi 0%nat [book4_with_ofi] = (inr 1%nat, [book4_with_ofi; out]) /\
    getitem out (of_col bid 4) = inr (NumCol [num (-5); num 7; num 2; num (-4)]) /\
    getitem out (of_col ask 4) = inr (NumCol [num 6; num 0; num (-8); num 2]) /\
    getitem out (ofi_col 0) = inr (NumCol [num (-11); num 7; num 10; num (-6)]).
Proof.
  assert (HP : has_prices book4_with_ofi
                 (fun s _ => match s with
                             | bid => [num 100; num 101; num 101; num 100]
                             | ask => [num 102; num 102; num 101; num 103]
                             end)).
  { intros s m Hm. apply In_LEVELS in Hm. unfold LEVELS in Hm; simpl in Hm.
    repeat (destruct Hm as [<-|Hm]); try contradiction; destruct s; reflexivity. }
  assert (HS : has_sizes book4_with_ofi
                 (fun s _ => match s with
                             | bid => [num 5; num 7; num 9; num 4]
                             | ask => [num 6; num 6; num 8; num 2]
                             end)).
  { intros s m Hm. apply In_LEVELS in Hm. unfold LEVELS in Hm; simpl in Hm.
    repeat (destruct Hm as [<-|Hm]); try contradiction; destruct s; reflexivity. }
  destruct (add_level_ofi_flow_columns [book4_with_ofi] 0%nat _ _ _ 4%nat
              eq_refl HP HS ltac:(lia))
    as (out & fb & fa & Hrun & Hb & Ha & Hob & Hoa & _).
  destruct (add_level_ofi_flow_columns [book4_with_ofi] 0%nat _ _ _ 0%nat
              eq_refl HP HS ltac:(lia))
    as (out0 & fb0 & fa0 & Hrun0 & Hb0 & Ha0 & _ & _ & Hofi0 & _).
  rewrite Hrun in Hrun0. inversion Hrun0; subst out0.
  inversion Hb; subst fb. inversion Ha; subst fa.
  inversion Hb0; subst fb0. inversion Ha0; subst fa0.
  exists out. split; [exact Hrun|]. split; [exact Hob|]. split; [exact Hoa|].
  exact Hofi0.
Defined.

(* ------------------------------------------------------------------ *)
(** ** [add_level_ofi]: missing columns, and the frames it leaves alone *)
(* ------------------------------------------------------------------ *)

Lemma find_ext_in {A} (p q : A -> bool) :
  forall l, (forall x, In x l -> p x = q x) -> find p l = find q l.
Proof.
  induction l as [|x l IH]; intros H; simpl; auto.
  rewrite (H x) by now left. destruct (q x); auto.
  apply IH. intros y Hy. apply H. now right.
Qed.

Lemma find_append {A} (p : A -> bool) :
  forall l1 l2,
    find p (l1 ++ l2) =
    match find p l1 with Some x => Some x | None => find p l2 end.
Proof.
  induction l1 as [|x l1 IH]; intros l2; simpl; auto.
  destruct (p x); auto.
Qed.

Lemma is_missing_getitem :
  forall d n,
    (is_missing d n = true /\ getitem d n = inl (KeyError_column n)) \/
    (is_missing d n = false /\ exists c, getitem d n = inr c).
Proof.
  intros d n. unfold is_missing, getitem.
  destruct (assoc n (columns d)) as [c|]; [right | left]; eauto.
Qed.

(** One round of the loop: it stops at the first of the four labels of
    the level that has no column. *)
Lemma level_body_outcome :
  forall m d,
    numeric_where_present
      [px_col bid m; sz_col bid m; px_col ask m; sz_col ask m] d ->
    match find (is_missing d)
               [px_col bid m; sz_col bid m; px_col ask m; sz_col ask m] with
    | Some n => fst (level_body m d) = inl (KeyError_column n)
    | None =>
        exists P S,
          (forall s, getitem d (px_col s m) = inr (NumCol (P s m))) /\
          (forall s, getitem d (sz_col s m) = inr (NumCol (S s m)))
    end.
Proof.
  intros m d Hnum. cbn [find].
  destruct (is_missing_getitem d (px_col bid m)) as [[-> E1]|[-> (c1 & E1)]].
  { unfold level_body, lbind, setcol, _side_flow. now rewrite E1. }
  destruct (Hnum (px_col bid m) c1 ltac:(simpl; auto) E1) as (v1 & ->).
  destruct (is_missing_getitem d (sz_col bid m)) as [[-> E2]|[-> (c2 & E2)]].
  { unfold level_body, lbind, setcol, _side_flow. now rewrite E1, E2. }
  destruct (Hnum (sz_col bid m) c2 ltac:(simpl; auto) E2) as (v2 & ->).
  pose proof (flow_label_not_book bid m ask m) as (Hpx & Hsz & _).
  destruct (is_missing_getitem d (px_col ask m)) as [[-> E3]|[-> (c3 & E3)]].
  { unfold level_body, lbind, setcol.
    rewrite (side_flow_eq d bid m v1 v2 E1 E2). cbn [rbind s_values].
    unfold _side_flow. rewrite getitem_setitem_other by exact Hpx.
    now rewrite E3. }
  destruct (Hnum (px_col ask m) c3 ltac:(simpl; auto) E3) as (v3 & ->).
  destruct (is_missing_getitem d (sz_col ask m)) as [[-> E4]|[-> (c4 & E4)]].
  { unfold level_body, lbind, setcol.
    rewrite (side_flow_eq d bid m v1 v2 E1 E2). cbn [rbind s_values].
    unfold _side_flow. rewrite !getitem_setitem_other by assumption.
    now rewrite E3, E4. }
  destruct (Hnum (sz_col ask m) c4 ltac:(simpl; auto 6) E4) as (v4 & ->).
  exists (fun s _ => match s with bid => v1 | ask => v3 end),
         (fun s _ => match s with bid => v2 | ask => v4 end).
  split; intros []; assumption.
Qed.

Lemma level_loop_outcome :
  forall ls d,
    numeric_where_present
      (flat_map (fun m => [px_col bid m; sz_col bid m; px_col ask m; sz_col ask m])
                ls) d ->
    fst (for_ ls level_body d) =
    match find (is_missing d)
               (flat_map (fun m => [px_col bid m; sz_col bid m;
                                    px_col ask m; sz_col ask m]) ls) with
    | Some n => inl (KeyError_column n)
    | None => inr tt
    end.
Proof.
  induction ls as [|m ls IH]; intros d Hnum; [reflexivity|].
  cbn [for_ flat_map]. unfold lbind.
  assert (Hnum4 : numeric_where_present
                    [px_col bid m; sz_col bid m; px_col ask m; sz_col ask m] d).
  { intros n c Hn. apply Hnum. cbn [flat_map]. apply in_or_app. now left. }
  pose proof (level_body_outcome m d Hnum4) as Hout.
  rewrite find_append.
  destruct (find (is_missing d)
                 [px_col bid m; sz_col bid m; px_col ask m; sz_col ask m])
    as [n|] eqn:E.
  - destruct (level_body m d) as [[e|[]] d']; cbn [fst] in *; congruence.
  - destruct Hout as (P & S & HP & HS).
    rewrite (level_body_run P S m d HP HS).
    set (d' := mkFrame (index d) (set_all (level_columns P S m) (columns d))).
    assert (Hsame : forall n,
              In n (flat_map (fun m => [px_col bid m; sz_col bid m;
                                        px_col ask m; sz_col ask m]) ls) ->
              assoc n (columns d') = assoc n (columns d)).
    { intros n Hn. unfold d'. cbn [columns].
      apply assoc_set_all_other. intros nc Hnc E'.
      apply in_flat_map in Hn. destruct Hn as (j & _ & Hj).
      simpl in Hj.
      destruct Hj as [<-|[<-|[<-|[<-|[]]]]];
        now apply (level_columns_not_book P S m nc _ j Hnc) in E'. }
    rewrite IH.
    + rewrite (find_ext_in (is_missing d') (is_missing d)); auto.
      intros n Hn. unfold is_missing. now rewrite Hsame.
    + intros n c Hn Hc. apply (Hnum n c).
      * cbn [flat_map]. apply in_or_app. now right.
      * unfold getitem in *. now rewrite <- Hsame.
Qed.

(** X3.  [add_level_ofi] reads forty columns: price and size of the bid
    and of the ask side for the ten levels.  When one of them is missing
    it raises the [KeyError] of the first missing label, in the order bid
    price, bid size, ask price, ask size, level after level, and every
    frame that existed before the call is as it was.  When none is
    missing it returns a new frame. *)
Theorem add_level_ofi_missing_column :
  forall h r d,
    nth_error h r = Some d -> numeric_where_present book_labels d ->
    match first_missing book_labels d with
    | Some n =>
        exists h',
          add_level_ofi r h = (inl (KeyError_column n), h') /\
          forall i, (i < List.length h)%nat -> nth_error h' i = nth_error h i
    | None =>
        exists out, add_level_ofi r h = (inr (List.length h), h ++ [out])
    end.
Proof.
  intros h r d Hr Hnum.
  pose proof (level_loop_outcome LEVELS d Hnum) as Hout.
  fold book_labels in Hout. unfold first_missing.
  unfold add_level_ofi, copy, mbind, deref, alloc, with_frame, mret.
  rewrite Hr, nth_error_alloc.
  destruct (for_ LEVELS level_body d) as [res d'].
  cbn [fst] in Hout. rewrite update_alloc.
  destruct (find (is_missing d) book_labels) as [n|]; subst res.
  - eexists. split; [reflexivity|].
    intros i Hi. now rewrite nth_error_app1.
  - eexists. reflexivity.
Qed.

Lemma add_level_ofi_missing_column_witness :
  exists h',
    add_level_ofi 0%nat [book4_without_ask_size] =
      (inl (KeyError_column "ask_sz_02"), h') /\
    nth_error h' 0 = Some book4_without_ask_size.
Proof.
  assert (Hnum : numeric_where_present book_labels book4_without_ask_size).
  { intros n c Hn Hc. unfold book_labels in Hn. simpl in Hn.
    repeat (destruct Hn as [<-|Hn];
            [vm_compute in Hc; inversion Hc; eexists; reflexivity|]).
    contradiction. }
  pose proof (add_level_ofi_missing_column [book4_without_ask_size] 0%nat
                book4_without_ask_size eq_refl Hnum) as H.
  assert (E : first_missing book_labels book4_without_ask_size
              = Some "ask_sz_02"%string) by reflexivity.
  rewrite E in H. destruct H as (h' & Hrun & Hkeep).
  exists h'. split; [exact Hrun|].
  rewrite (Hkeep 0%nat); [reflexivity | simpl; lia].
Defined.

(** X4.  Whatever [add_level_ofi] is given and whether it returns or
    raises, every frame that existed before the call is left exactly as
    it was; the reference it returns is a new one, different from every
    reference that was in use. *)
Theorem add_level_ofi_keeps_existing_frames :
  forall r h i d,
    nth_error h i = Some d ->
    nth_error (snd (add_level_ofi r h)) i = Some d /\
    forall out, fst (add_level_ofi r h) = inr out ->
                out = List.length h /\ out <> i.
Proof.
  intros r h i d Hi.
  pose proof (nth_error_in_heap h i d Hi) as Hlt.
  destruct (add_level_ofi_extends_heap r h) as (extra & Hext).
  split.
  - rewrite Hext. now rewrite nth_error_app1.
  - intros out Hout.
    destruct (add_level_ofi r h) as [res h'] eqn:E. cbn [fst] in Hout.
    subst res. apply add_level_ofi_ref in E. split; [exact E | lia].
Qed.

Lemma add_level_ofi_keeps_existing_frames_witness :
  nth_error (snd (add_level_ofi 0%nat [book4_without_ask_size; book4])) 1
    = Some book4 /\
  nth_error (snd (add_level_ofi 1%nat [book4_without_ask_size; book4])) 1
    = Some book4.
Proof.
  split.
  - exact (proj1 (add_level_ofi_keeps_existing_frames 0%nat
                    [book4_without_ask_size; book4] 1%nat book4 eq_refl)).
  - exact (proj1 (add_level_ofi_keeps_existing_frames 1%nat
                    [book4_without_ask_size; book4] 1%nat book4 eq_refl)).
Defined.

(* ------------------------------------------------------------------ *)
(** ** [aggregate_ofi]: what it may change, and missing columns *)
(* ------------------------------------------------------------------ *)






Lemma select_columns_outcome :
  forall cs names,
    match find (fun n => match assoc n cs with None => true | _ => false end)
               names with
    | Some n => select_columns cs names = inl (KeyError_column n)
    | None => exists sel, select_columns cs names = inr sel
    end.
Proof.
  intros cs. induction names as [|n names IH]; cbn [find select_columns].
  - eexists. reflexivity.
  - destruct (assoc n cs) as [c|]; [|reflexivity].
    destruct (find _ names) as [k|].
    + now rewrite IH.
    + destruct IH as (sel & ->). eexists. reflexivity.
Qed.

Lemma aggregate_ofi_first_missing :
  forall h r d w normalise n,
    nth_error h r = Some d ->
    first_missing ("ts_event"%string :: map ofi_col LEVELS) d = Some n ->
    aggregate_ofi r w normalise h = (inl (KeyError_column n), h).
Proof.
  intros h r d w normalise n Hr Hmiss.
  unfold first_missing in Hmiss. cbn [find] in Hmiss.
  unfold aggregate_ofi, mbind, deref, lift. rewrite Hr.
  unfold set_index.
  destruct (is_missing_getitem d "ts_event") as [[E1 E2]|[E1 (c & E2)]];
    rewrite E1 in Hmiss; rewrite E2; cbn [rbind].
  - now inversion Hmiss.
  - unfold getitems. cbn [kcolumns].
    pose proof (select_columns_outcome
                  (remove_assoc "ts_event" (columns d)) (map ofi_col LEVELS))
      as Hsel.
    rewrite (find_ext_in _ (is_missing d)) in Hsel.
    + rewrite Hmiss in Hsel. now rewrite Hsel.
    + intros k Hk. apply in_map_iff in Hk. destruct Hk as (m & <- & _).
      unfold is_missing.
      rewrite assoc_remove_other by (apply not_eq_sym, ofi_label_not_ts).
      reflexivity.
Qed.

(** X6.  [aggregate_ofi] needs the column [ts_event] and the ten columns
    [ofi_00] to [ofi_09].  When one of them is missing it raises a
    [KeyError] for a missing label, whatever the frequency and with or
    without normalisation, and it has not touched its input: the columns
    are selected before any depth column is written. *)
Theorem aggregate_ofi_missing_column :
  forall h r d w normalise n,
    nth_error h r = Some d ->
    In n ("ts_event"%string :: map ofi_col LEVELS) -> is_missing d n = true ->
    exists n',
      In n' ("ts_event"%string :: map ofi_col LEVELS) /\
      is_missing d n' = true /\
      aggregate_ofi r w normalise h = (inl (KeyError_column n'), h).
Proof.
  intros h r d w normalise n Hr Hin Hmiss.
  destruct (first_missing ("ts_event"%string :: map ofi_col LEVELS) d)
    as [n'|] eqn:E.
  - exists n'. pose proof E as E'. unfold first_missing in E'.
    apply find_some in E'. destruct E' as [H1 H2].
    split; [exact H1|]. split; [exact H2|].
    now apply (aggregate_ofi_first_missing h r d).
  - unfold first_missing in E.
    pose proof (find_none _ _ E n Hin) as H. congruence.
Qed.

Lemma aggregate_ofi_missing_column_witness :
  exists n',
    aggregate_ofi 0%nat minute true [two_minutes_without_ofi] =
    (inl (KeyError_column n'), [two_minutes_without_ofi]).
Proof.
  destruct (aggregate_ofi_missing_column [two_minutes_without_ofi] 0%nat
              two_minutes_without_ofi minute true "ofi_04"%string eq_refl)
    as (n' & _ & _ & Hrun).
  - simpl. auto 10.
  - reflexivity.
  - exists n'. exact Hrun.
Defined.

(* ------------------------------------------------------------------ *)
(** ** [aggregate_ofi]: a size column missing half-way *)
(* ------------------------------------------------------------------ *)

Lemma for_app {A} (body : A -> L unit) :
  forall l1 l2 d,
    for_ (l1 ++ l2) body d =
    match for_ l1 body d with
    | (inl e, d') => (inl e, d')
    | (inr _, d') => for_ l2 body d'
    end.
Proof.
  induction l1 as [|x l1 IH]; intros l2 d; cbn [app for_].
  - unfold lret. reflexivity.
  - unfold lbind. destruct (body x d) as [[e|[]] d']; auto.
Qed.

Lemma levels_split :
  forall k, (k < 10)%nat -> LEVELS = seq 0 k ++ k :: seq (S k) (9 - k).
Proof.
  intros k Hk. unfold LEVELS.
  replace 10%nat with (k + S (9 - k))%nat by lia.
  rewrite seq_app. reflexivity.
Qed.

(** X7.  With normalisation the depth columns are written level after
    level, before anything is divided.  If the sizes of the levels below
    [k] are there and a size column of level [k] is missing, the call
    raises the [KeyError] of that column, and the [depth] columns of the
    levels below [k] stay in the caller's frame. *)
Theorem aggregate_ofi_partial_depth_columns :
  forall h r d ts V S w k s,
    0 < w -> nth_error h r = Some d ->
    has_timestamps d ts -> has_ofi d V -> (k < 10)%nat ->
    (forall s' m, (m < k)%nat -> getitem d (sz_col s' m) = inr (NumCol (S s' m))) ->
    (s = ask -> getitem d (sz_col bid k) = inr (NumCol (S bid k))) ->
    getitem d (sz_col s k) = inl (KeyError_column (sz_col s k)) ->
    aggregate_ofi r w true h =
    (inl (KeyError_column (sz_col s k)), update r (with_depth_below k d S) h).
Proof.
  intros h r d ts V S w k s Hw Hr Hts HV Hk Hbelow Hbid Hmiss.
  unfold aggregate_ofi, mbind, deref, lift, mret, with_frame. rewrite Hr.
  rewrite (resample_levels_then _ sum_min_count1 w d ts ofi_col V Hw Hts
             (fun m _ => ofi_label_not_ts m) HV).
  cbn [negb]. rewrite Hr.
  rewrite (levels_split k Hk), for_app.
  rewrite (depth_loop_run S)
    by (intros s' m Hm; apply Hbelow; apply in_seq in Hm; lia).
  fold (with_depth_below k d S).
  assert (Hsz : forall s', getitem (with_depth_below k d S) (sz_col s' k) =
                           getitem d (sz_col s' k)).
  { intros s'. unfold getitem, with_depth_below. cbn [columns].
    rewrite assoc_fold_set_other; auto. intros m _. apply depth_not_size. }
  cbn [for_]. unfold lbind, depth_body at 1, setcol.
  destruct s.
  - rewrite Hsz, Hmiss. reflexivity.
  - rewrite (Hsz bid), (Hbid eq_refl), (Hsz ask), Hmiss. reflexivity.
Qed.

Lemma aggregate_ofi_partial_depth_columns_witness :
  exists d',
    aggregate_ofi 0%nat minute true [two_minutes_without_ask_size] =
      (inl (KeyError_column "ask_sz_01"), [d']) /\
    getitem d' "depth_00" = inr (NumCol [num 2; num 2]) /\
    getitem d' "depth_01" = inl (KeyError_column "depth_01").
Proof.
  eexists. split.
  - apply (aggregate_ofi_partial_depth_columns
             [two_minutes_without_ask_size] 0%nat two_minutes_without_ask_size
             [0; minute] (fun _ => [num 3; num 4])
             (fun _ _ => [num 1; num 1]) minute 1%nat ask);
      try reflexivity; try lia.
    + intros m Hm. apply In_LEVELS in Hm. unfold LEVELS in Hm; simpl in Hm.
      repeat (destruct Hm as [<-|Hm]); try contradiction; reflexivity.
    + intros s' m Hm. assert (m = 0%nat) as -> by lia. destruct s'; reflexivity.
  - split; reflexivity.
Defined.

(* ------------------------------------------------------------------ *)
(** ** [aggregate_ofi]: calling it again *)
(* ------------------------------------------------------------------ *)

Lemma set_assoc_same_value :
  forall n c cs, assoc n cs = Some c -> set_assoc n c cs = cs.
Proof.
  induction cs as [|[k v] cs IH]; simpl; intros H; [discriminate|].
  destruct (String.eqb_spec k n).
  - now inversion H.
  - now rewrite IH.
Qed.

Lemma fold_set_assoc_same :
  forall (name : nat -> string) (c : nat -> column) ls cs,
    (forall m, In m ls -> assoc (name m) cs = Some (c m)) ->
    fold_left (fun cs m => set_assoc (name m) (c m) cs) ls cs = cs.
Proof.
  intros name c. induction ls as [|m ls IH]; intros cs H; cbn [fold_left]; auto.
  rewrite set_assoc_same_value by (apply H; now left).
  apply IH. intros k Hk. apply H. now right.
Qed.

Lemma with_depth_again :
  forall d S, with_depth (with_depth d S) S = with_depth d S.
Proof.
  intros d S. unfold with_depth at 1. cbn [index].
  rewrite fold_set_assoc_same; [reflexivity|].
  intros m Hm. apply In_LEVELS in Hm.
  pose proof (with_depth_columns d S m Hm) as H. unfold getitem in H.
  destruct (assoc (depth_col m) (columns (with_depth d S))); now inversion H.
Qed.

Lemma update_update :
  forall (h : heap) r x y, update r x (update r y h) = update r x h.
Proof.
  induction h as [|z h IH]; intros [|r] x y; simpl; auto. now rewrite IH.
Qed.

Lemma with_depth_keeps :
  forall d S name,
    (forall m, name <> depth_col m) ->
    getitem (with_depth d S) name = getitem d name.
Proof.
  intros d S name H. unfold getitem, with_depth. cbn [columns].
  rewrite assoc_fold_set_other; [reflexivity|].
  intros m _. apply not_eq_sym, H.
Qed.

Lemma ofi_not_depth : forall m k, ofi_col m <> depth_col k.
Proof. intros m k. discriminate. Qed.

Lemma size_not_depth : forall s m k, sz_col s m <> depth_col k.
Proof. intros s m k. apply not_eq_sym, depth_not_size. Qed.

(** X8.  The depth columns a normalising call leaves in its input do not
    change what later calls return: a second normalising call on the
    same frame returns the same table and changes nothing any more, and a
    call without normalisation returns what it would have returned
    before. *)
Theorem aggregate_ofi_again :
  forall h r d ts V S w,
    0 < w -> nth_error h r = Some d ->
    has_timestamps d ts -> has_ofi d V -> has_sizes d S ->
    exists res h1,
      aggregate_ofi r w true h = (inr res, h1) /\
      aggregate_ofi r w true h1 = (inr res, h1) /\
      aggregate_ofi r w false h1 = (fst (aggregate_ofi r w false h), h1).
Proof.
  intros h r d ts V S w Hw Hr Hts HV HS.
  pose proof (nth_error_in_heap h r d Hr) as Hlt.
  pose proof (nth_error_update_same h r (with_depth d S) Hlt) as Hr1.
  assert (HV1 : has_ofi (with_depth d S) V).
  { intros m Hm. rewrite with_depth_keeps; [now apply HV|].
    apply ofi_not_depth. }
  assert (HS1 : has_sizes (with_depth d S) S).
  { intros s m Hm. rewrite with_depth_keeps; [now apply HS|].
    apply size_not_depth. }
  pose proof (with_depth_timestamps d S ts Hts) as Hts1.
  eexists. eexists.
  split; [apply (aggregate_ofi_normalised_run h r d ts V S w); assumption|].
  split.
  - rewrite (aggregate_ofi_normalised_run _ r _ ts V S w Hw Hr1 Hts1 HV1 HS1).
    now rewrite with_depth_again, update_update.
  - rewrite (aggregate_ofi_unnormalised_run _ r _ ts V w Hw Hr1 Hts1 HV1).
    now rewrite (aggregate_ofi_unnormalised_run h r d ts V w Hw Hr Hts HV).
Qed.

Lemma aggregate_ofi_again_witness :
  exists res h1,
    aggregate_ofi 0%nat minute true [two_minutes] = (inr res, h1) /\
    aggregate_ofi 0%nat minute true h1 = (inr res, h1).
Proof.
  destruct (ofi_messages_columns [0; minute] [num 3; num 4]
              [num 1; num 1] [num 1; num 1]) as (Hts & HV & HS).
  destruct (aggregate_ofi_again [two_minutes] 0%nat two_minutes _ _ _ minute
              eq_refl eq_refl Hts HV HS) as (res & h1 & H1 & H2 & _).
  exists res, h1. now split.
Defined.

(* ------------------------------------------------------------------ *)
(** ** [aggregate_ofi]: the labels of the bars *)
(* ------------------------------------------------------------------ *)

Lemma bin_labels_grid :
  forall w ts b,
    0 < w -> In b (bin_labels w ts) ->
    (b - start_day (earliest ts)) mod w = 0 /\
    (DAY mod w = 0 -> b mod w = 0).
Proof.
  intros w ts b Hw Hb. unfold bin_labels in Hb.
  destruct ts as [|t0 rest]; [contradiction|].
  set (o := start_day (earliest (t0 :: rest))) in *.
  cbv zeta in Hb. apply in_map_iff in Hb. destruct Hb as (k & <- & _).
  unfold bin_label.
  set (q := (earliest (t0 :: rest) - o) / w).
  split.
  - replace (o + q * w + Z.of_nat k * w - o) with ((q + Z.of_nat k) * w) by lia.
    apply Z.mod_mul. lia.
  - intros Hday. unfold o, start_day.
    set (c := earliest (t0 :: rest) / DAY).
    assert (E : DAY = w * (DAY / w)) by (apply Z_div_exact_2; lia).
    rewrite E at 1.
    replace (c * (w * (DAY / w)) + q * w + Z.of_nat k * w)
      with ((c * (DAY / w) + q + Z.of_nat k) * w) by lia.
    apply Z.mod_mul. lia.
Qed.

Lemma insert_label_sorted :
  forall x l, StronglySorted Z.lt l -> StronglySorted Z.lt (insert_label x l).
Proof.
  intros x. induction l as [|y l IH]; intros H; simpl.
  - repeat constructor.
  - inversion H as [|? ? Hs Hall]; subst.
    destruct (Z.ltb_spec x y) as [Hlt|Hge].
    + constructor; auto. constructor; [lia|].
      rewrite Forall_forall in *. intros z Hz. specialize (Hall z Hz). lia.
    + destruct (Z.eqb_spec x y) as [->|Hne]; auto.
      constructor; [now apply IH|].
      rewrite Forall_forall in *. intros z Hz.
      apply insert_label_In in Hz. destruct Hz as [->|Hz]; [lia | auto].
Qed.

Lemma index_union_sorted :
  forall l1 l2, StronglySorted Z.lt (index_union l1 l2).
Proof.
  intros l1 l2. unfold index_union.
  induction (l1 ++ l2) as [|x l IH]; simpl.
  - constructor.
  - now apply insert_label_sorted.
Qed.

Lemma joined_labels_sorted :
  forall kb kd,
    StronglySorted Z.lt kb -> StronglySorted Z.lt (joined_labels kb kd).
Proof.
  intros kb kd H. unfold joined_labels.
  destruct (index_eqb kb kd); [exact H | apply index_union_sorted].
Qed.

Lemma nanmean_defined :
  forall w b ts v,
    notna (nanmean (bucket_rows w b ts v)) = true ->
    exists t, In t ts /\ b <= t < b + w.
Proof.
  intros w b ts v H. apply (bucket_rows_nonempty w b ts v).
  intros E. rewrite E in H. discriminate.
Qed.

(** X9.  With or without normalisation, the rows of the table
    [aggregate_ofi] returns are labelled by strictly increasing bucket
    starts; every label lies on the grid of step [freq] anchored at
    midnight of the day of the first message, so that it is a multiple of
    [freq] whenever [freq] divides a day; and every row is the bucket of
    at least one message.  A table without messages gives a table
    without rows. *)
Theorem aggregate_ofi_bar_labels :
  forall h r d ts V S w normalise,
    0 < w -> nth_error h r = Some d ->
    has_timestamps d ts -> has_ofi d V -> has_sizes d S ->
    exists res h',
      aggregate_ofi r w normalise h = (inr res, h') /\
      map fst (columns res) = map ofi_col LEVELS /\
      StronglySorted Z.lt (index res) /\
      (forall b, In b (index res) ->
         (b - start_day (earliest ts)) mod w = 0 /\
         (DAY mod w = 0 -> b mod w = 0) /\
         exists t, In t ts /\ b <= t < b + w) /\
      (ts = [] -> index res = []).
Proof.
  intros h r d ts V S w normalise Hw Hr Hts HV HS.
  assert (Hkb : forall b, In b (index (ofi_bars w ts V)) ->
                 In b (bin_labels w ts) /\ exists t, In t ts /\ b <= t < b + w).
  { intros b Hb. unfold ofi_bars, tabulate in Hb. cbn [index] in Hb.
    apply kept_labels_iff in Hb. destruct Hb as [Hgrid Hdef]. split; auto.
    apply (bucket_sum_defined w b ts (V 0%nat)). apply Hdef. lia. }
  assert (Hkd : forall b, In b (index (depth_bars w ts S)) ->
                 In b (bin_labels w ts) /\ exists t, In t ts /\ b <= t < b + w).
  { intros b Hb. unfold depth_bars, tabulate in Hb. cbn [index] in Hb.
    apply kept_labels_iff in Hb. destruct Hb as [Hgrid Hdef]. split; auto.
    apply (nanmean_defined w b ts (depth_values S 0%nat)). apply Hdef. lia. }
  assert (Hall : forall res,
            (forall b, In b (index res) ->
               In b (bin_labels w ts) /\ exists t, In t ts /\ b <= t < b + w) ->
            (forall b, In b (index res) ->
               (b - start_day (earliest ts)) mod w = 0 /\
               (DAY mod w = 0 -> b mod w = 0) /\
               exists t, In t ts /\ b <= t < b + w) /\
            (ts = [] -> index res = [])).
  { intros res Hres. split.
    - intros b Hb. destruct (Hres b Hb) as [Hgrid Hmsg].
      destruct (bin_labels_grid w ts b Hw Hgrid) as [H1 H2]. auto.
    - intros ->. destruct (index res) as [|b l]; auto.
      destruct (Hres b (or_introl eq_refl)) as [_ (t & [] & _)]. }
  destruct normalise.
  - exists (normalised_bars w ts V S). eexists.
    split; [now apply (aggregate_ofi_normalised_run h r d)|].
    split; [unfold normalised_bars, tabulate; cbn [columns]; now rewrite map_map|].
    split.
    + unfold normalised_bars, tabulate. cbn [index].
      apply joined_labels_sorted. unfold ofi_bars, tabulate. cbn [index].
      now apply kept_labels_sorted.
    + apply Hall. intros b Hb.
      unfold normalised_bars, tabulate in Hb. cbn [index] in Hb.
      apply joined_labels_In in Hb. destruct Hb as [Hb|Hb]; auto.
  - exists (ofi_bars w ts V). eexists.
    split; [now apply (aggregate_ofi_unnormalised_run h r d)|].
    split; [unfold ofi_bars, tabulate; cbn [columns]; now rewrite map_map|].
    split.
    + unfold ofi_bars, tabulate. cbn [index]. now apply kept_labels_sorted.
    + now apply Hall.
Qed.

Lemma aggregate_ofi_bar_labels_witness :
  exists res h',
    aggregate_ofi 0%nat minute true [missing_first_ofi] = (inr res, h') /\
    StronglySorted Z.lt (index res) /\
    forall b, In b (index res) -> b mod minute = 0.
Proof.
  destruct (ofi_messages_columns [0; minute] [NaN; num 4]
              [num 1; num 1] [num 1; num 1]) as (Hts & HV & HS).
  destruct (aggregate_ofi_bar_labels [missing_first_ofi] 0%nat
              missing_first_ofi _ _ _ minute true eq_refl eq_refl Hts HV HS)
    as (res & h' & Hrun & _ & Hsorted & Hgrid & _).
  exists res, h'. split; [exact Hrun|]. split; [exact Hsorted|].
  intros b Hb. destruct (Hgrid b Hb) as (_ & Hmod & _).
  apply Hmod. reflexivity.
Defined.

(* ------------------------------------------------------------------ *)
(** ** [aggregate_ofi]: books without missing values *)
(* ------------------------------------------------------------------ *)

Lemma positive_finite : forall x, positive x -> finite x.
Proof. intros [a| | |] H; simpl in *; auto. Qed.

Lemma finite_notna : forall l, Forall finite l -> filter notna l = l.
Proof.
  induction l as [|x l IH]; intros H; simpl; auto.
  inversion H as [|? ? Hx Hl]; subst.
  destruct x; try contradiction. simpl. now rewrite IH.
Qed.

Lemma Qsum_pos :
  forall l, l <> [] -> (forall a, In a l -> (0 < a)%Q) -> (0 < Qsum l)%Q.
Proof.
  induction l as [|a l IH]; intros Hne H; [now elim Hne|].
  simpl. destruct l as [|a' l'].
  - simpl. rewrite Qplus_0_r. apply H. now left.
  - replace 0%Q with (0 + 0)%Q by reflexivity.
    apply Qplus_lt_le_compat; [apply H; now left|].
    apply Qlt_le_weak. apply IH; [discriminate|].
    intros b Hb. apply H. now right.
Qed.

Lemma fsum_positive :
  forall l, Forall positive l -> l <> [] ->
    exists q, fsum l = Fin q /\ (0 < q)%Q.
Proof.
  intros l Hpos Hne.
  assert (Hfin : Forall finite l)
    by (eapply Forall_impl; [apply positive_finite | exact Hpos]).
  rewrite (finite_list l Hfin).
  destruct (fsum_fin (map qval l)) as (q & Hq & Heq & _).
  exists q. split; [exact Hq|]. rewrite Heq.
  apply Qsum_pos.
  - destruct l; [now elim Hne | discriminate].
  - intros a Ha. apply in_map_iff in Ha. destruct Ha as (x & <- & Hx).
    rewrite Forall_forall in Hpos. specialize (Hpos x Hx).
    now destruct x.
Qed.

Lemma fdiv_positive :
  forall a b, (0 < a)%Q -> (0 < b)%Q ->
    exists q, fdiv (Fin a) (Fin b) = Fin q /\ (0 < q)%Q.
Proof.
  intros a b Ha Hb. unfold fdiv, Qsign.
  pose proof Hb as Hb'. apply Qgt_alt in Hb'. rewrite Hb'.
  eexists. split; [reflexivity|]. rewrite Qred_correct.
  apply Qlt_shift_div_l; auto. now rewrite Qmult_0_l.
Qed.

Lemma length_positive :
  forall {A} (l : list A), l <> [] ->
    (0 < inject_Z (Z.of_nat (List.length l)))%Q.
Proof.
  intros A [|x l] H; [now elim H|].
  replace 0%Q with (inject_Z 0) by reflexivity.
  rewrite <- Zlt_Qlt. simpl List.length. lia.
Qed.

Lemma mean_positive :
  forall l, Forall positive l -> l <> [] ->
    exists q, mean l = Fin q /\ (0 < q)%Q.
Proof.
  intros l Hpos Hne. unfold mean, of_int.
  destruct (fsum_positive l Hpos Hne) as (s & -> & Hs).
  apply fdiv_positive; auto. now apply length_positive.
Qed.

Lemma nanmean_positive :
  forall l, Forall positive l -> l <> [] ->
    exists q, nanmean l = Fin q /\ (0 < q)%Q.
Proof.
  intros l Hpos Hne.
  rewrite nanmean_no_missing; auto.
  - now apply mean_positive.
  - assert (Hfin : Forall finite l)
      by (eapply Forall_impl; [apply positive_finite | exact Hpos]).
    apply forallb_forall. intros x Hx.
    rewrite Forall_forall in Hfin. specialize (Hfin x Hx). now destruct x.
Qed.

Lemma sum_min_count1_finite :
  forall l, Forall finite l -> l <> [] -> exists q, sum_min_count1 l = Fin q.
Proof.
  intros l Hfin Hne. unfold sum_min_count1. rewrite (finite_notna l Hfin).
  destruct l as [|x l']; [now elim Hne|].
  rewrite (finite_list (x :: l') Hfin).
  destruct (fsum_fin (map qval (x :: l'))) as (q & Hq & _).
  exists q. exact Hq.
Qed.

Lemma bucket_rows_Forall :
  forall (P : float64 -> Prop) w b ts v,
    Forall P v -> Forall P (bucket_rows w b ts v).
Proof.
  intros P w b ts v H. unfold bucket_rows. apply Forall_forall.
  intros x Hx. apply in_map_iff in Hx. destruct Hx as ([t y] & <- & Hin).
  apply filter_In in Hin. destruct Hin as [Hin _].
  apply in_combine_r in Hin. rewrite Forall_forall in H. now apply H.
Qed.

Lemma bucket_rows_occupied :
  forall w b ts v,
    List.length v = List.length ts -> occupied w ts b ->
    bucket_rows w b ts v <> [].
Proof.
  intros w b. unfold bucket_rows, occupied.
  induction ts as [|t ts IH]; intros [|x v] Hlen (t' & Hin & Hb);
    simpl in *; try contradiction; try discriminate.
  destruct ((b <=? t) && (t <? b + w)) eqn:E; [simpl; discriminate|].
  destruct Hin as [->|Hin].
  - apply andb_false_iff in E. destruct E as [E|E]; [apply Z.leb_gt in E | apply Z.ltb_ge in E]; lia.
  - apply IH; [lia|]. exists t'. now split.
Qed.

Lemma positive_map2_fadd :
  forall a b,
    Forall positive a -> Forall positive b -> Forall positive (map2 fadd a b).
Proof.
  induction a as [|x a IH]; intros [|y b] Ha Hb; simpl; auto.
  inversion Ha; inversion Hb; subst. constructor; [|now apply IH].
  destruct x, y; cbn [positive fadd] in *; try contradiction.
  rewrite Qred_correct.
  replace 0%Q with (0 + 0)%Q by reflexivity.
  apply Qplus_lt_le_compat; auto. now apply Qlt_le_weak.
Qed.

Lemma index_eqb_refl : forall l, index_eqb l l = true.
Proof.
  induction l as [|x l IH]; simpl; auto. now rewrite Z.eqb_refl.
Qed.

Lemma complete_row_iff :
  forall (cell : nat -> Z -> float64) b,
    complete_row LEVELS cell b = true <->
    forall m, (m < 10)%nat -> notna (cell m b) = true.
Proof.
  intros cell b. unfold complete_row. rewrite forallb_forall.
  split; intros H m Hm; apply H; now apply In_LEVELS.
Qed.

Lemma bool_eq_iff :
  forall x y : bool, (x = true <-> y = true) -> x = y.
Proof.
  intros [] [] [H1 H2]; auto.
  symmetry. now apply H1.
Qed.

Lemma ofi_row_complete_iff :
  forall w ts (V : nat -> list float64) b,
    (forall m, (m < 10)%nat ->
       List.length (V m) = List.length ts /\ Forall finite (V m)) ->
    complete_row LEVELS (ofi_cell w ts V) b = true <-> occupied w ts b.
Proof.
  intros w ts V b HV. rewrite complete_row_iff. split.
  - intros H. apply (bucket_sum_defined w b ts (V 0%nat)). apply H. lia.
  - intros Hocc m Hm. destruct (HV m Hm) as [Hlen Hfin].
    unfold ofi_cell, bucket_sum.
    destruct (sum_min_count1_finite (bucket_rows w b ts (V m))) as (q & ->).
    + now apply bucket_rows_Forall.
    + now apply bucket_rows_occupied.
    + reflexivity.
Qed.

Lemma depth_values_clean :
  forall (ts : list Z) (S : side -> nat -> list float64) m,
    (forall s m, (m < 10)%nat ->
       List.length (S s m) = List.length ts /\ Forall positive (S s m)) ->
    (m < 10)%nat ->
    List.length (depth_values S m) = List.length ts /\
    Forall positive (depth_values S m).
Proof.
  intros ts S m HS Hm. unfold depth_values.
  destruct (HS bid m Hm) as [Lb Pb]. destruct (HS ask m Hm) as [La Pa].
  split.
  - rewrite length_map2; congruence.
  - now apply positive_map2_fadd.
Qed.

Lemma depth_cell_positive :
  forall w ts (S : side -> nat -> list float64) b m,
    (forall s m, (m < 10)%nat ->
       List.length (S s m) = List.length ts /\ Forall positive (S s m)) ->
    occupied w ts b -> (m < 10)%nat ->
    positive (depth_cell w ts S m b).
Proof.
  intros w ts S b m HS Hocc Hm.
  destruct (depth_values_clean ts S m HS Hm) as [Hlen Hpos].
  unfold depth_cell.
  destruct (nanmean_positive (bucket_rows w b ts (depth_values S m)))
    as (q & -> & Hq); auto.
  - now apply bucket_rows_Forall.
  - now apply bucket_rows_occupied.
Qed.

Lemma depth_row_complete_iff :
  forall w ts (S : side -> nat -> list float64) b,
    (forall s m, (m < 10)%nat ->
       List.length (S s m) = List.length ts /\ Forall positive (S s m)) ->
    complete_row LEVELS (depth_cell w ts S) b = true <-> occupied w ts b.
Proof.
  intros w ts S b HS. rewrite complete_row_iff. split.
  - intros H. apply (nanmean_defined w b ts (depth_values S 0%nat)).
    apply H. lia.
  - intros Hocc m Hm.
    pose proof (depth_cell_positive w ts S b m HS Hocc Hm) as Hp.
    now destruct (depth_cell w ts S m b).
Qed.

Lemma bucket_divisor_positive :
  forall w ts (S : side -> nat -> list float64) b,
    (forall s m, (m < 10)%nat ->
       List.length (S s m) = List.length ts /\ Forall positive (S s m)) ->
    occupied w ts b ->
    exists dv, bucket_divisor w b ts S = Fin dv /\ (0 < dv)%Q.
Proof.
  intros w ts S b HS Hocc. unfold bucket_divisor.
  destruct (mean_positive
              (map (fun m => nanmean (bucket_rows w b ts (depth_values S m)))
                   LEVELS)) as (s & -> & Hs).
  - apply Forall_forall. intros x Hx. apply in_map_iff in Hx.
    destruct Hx as (m & <- & Hm). apply In_LEVELS in Hm.
    apply (depth_cell_positive w ts S b m HS Hocc Hm).
  - discriminate.
  - apply fdiv_positive; auto. reflexivity.
Qed.

(** X10.  On a table without missing values (every OFI finite, every
    size finite and strictly positive, one cell per message) the
    normalised aggregation is well defined: the table has exactly the
    rows of the table without normalisation, one for every bucket that
    holds a message, every divisor is a strictly positive number, and
    every value is the finite quotient of the summed OFI by the
    divisor. *)
Theorem aggregate_ofi_clean_book :
  forall h r d ts V S w,
    0 < w -> nth_error h r = Some d ->
    has_timestamps d ts -> has_ofi d V -> has_sizes d S ->
    (forall m, (m < 10)%nat ->
       List.length (V m) = List.length ts /\ Forall finite (V m)) ->
    (forall s m, (m < 10)%nat ->
       List.length (S s m) = List.length ts /\ Forall positive (S s m)) ->
    exists res h',
      aggregate_ofi r w true h = (inr res, h') /\
      index res = index (ofi_bars w ts V) /\
      (forall b, In b (index res) <->
                 In b (bin_labels w ts) /\ occupied w ts b) /\
      forall b m, In b (index res) -> (m < 10)%nat ->
        exists q dv,
          bucket_sum w b ts (V m) = Fin q /\
          bucket_divisor w b ts S = Fin dv /\ (0 < dv)%Q /\
          loc res b (ofi_col m) = Some (Fin (Qred (q / dv))).
Proof.
  intros h r d ts V S w Hw Hr Hts HV HS HcleanV HcleanS.
  assert (Hsame : kept_labels w ts (depth_cell w ts S) =
                  kept_labels w ts (ofi_cell w ts V)).
  { unfold kept_labels. apply filter_ext. intros b. apply bool_eq_iff.
    rewrite (depth_row_complete_iff w ts S b HcleanS).
    now rewrite (ofi_row_complete_iff w ts V b HcleanV). }
  assert (Hidx : index (normalised_bars w ts V S) = index (ofi_bars w ts V)).
  { unfold normalised_bars, depth_bars, ofi_bars, tabulate. cbn [index].
    rewrite Hsame. unfold joined_labels. now rewrite index_eqb_refl. }
  assert (Hrows : forall b, In b (index (ofi_bars w ts V)) <->
                            In b (bin_labels w ts) /\ occupied w ts b).
  { intros b. unfold ofi_bars, tabulate, kept_labels. cbn [index].
    rewrite filter_In. now rewrite (ofi_row_complete_iff w ts V b HcleanV). }
  exists (normalised_bars w ts V S). eexists.
  split; [now apply (aggregate_ofi_normalised_run h r d)|].
  split; [exact Hidx|]. split; [now rewrite Hidx|].
  intros b m Hb Hm.
  pose proof Hb as Hb'. rewrite Hidx in Hb'.
  destruct (proj1 (Hrows b) Hb') as [Hgrid Hocc].
  destruct (HcleanV m Hm) as [Hlen Hfin].
  destruct (sum_min_count1_finite (bucket_rows w b ts (V m))) as (q & Hq);
    [now apply bucket_rows_Forall | now apply bucket_rows_occupied |].
  destruct (bucket_divisor_positive w ts S b HcleanS Hocc) as (dv & Hdv & Hpos).
  exists q, dv. split; [exact Hq|]. split; [exact Hdv|]. split; [exact Hpos|].
  rewrite loc_normalised_bars by auto.
  rewrite aligned_sum_present by exact Hb'.
  rewrite aligned_divisor_spec by exact Hgrid.
  unfold bucket_sum. rewrite Hq, Hdv. unfold fdiv, Qsign.
  apply Qgt_alt in Hpos. now rewrite Hpos.
Qed.

Lemma aggregate_ofi_clean_book_witness :
  exists res h',
    aggregate_ofi 0%nat minute true [two_minutes] = (inr res, h') /\
    index res = [0; minute] /\
    loc res 0 (ofi_col 7) = Some (num 3).
Proof.
  destruct (ofi_messages_columns [0; minute] [num 3; num 4]
              [num 1; num 1] [num 1; num 1]) as (Hts & HV & HS).
  destruct (aggregate_ofi_clean_book [two_minutes] 0%nat two_minutes
              _ _ _ minute eq_refl eq_refl Hts HV HS)
    as (res & h' & Hrun & Hidx & _ & Hcell).
  - intros m _. split; [reflexivity | repeat constructor].
  - intros s m _. destruct s; (split; [reflexivity | repeat constructor]).
  - exists res, h'. split; [exact Hrun|]. split; [now rewrite Hidx|].
    assert (Hin : In 0 (index res)) by (rewrite Hidx; vm_compute; auto).
    destruct (Hcell 0 7%nat Hin ltac:(lia)) as (q & dv & Hq & Hdv & _ & Hloc).
    rewrite Hloc. vm_compute in Hq. vm_compute in Hdv.
    inversion Hq; inversion Hdv; subst. reflexivity.
Defined.

(* ------------------------------------------------------------------ *)
(** ** [integrated_ofi]: the sign of the direction *)
(* ------------------------------------------------------------------ *)

Lemma Qsign_opp : forall a, Qsign (Qred (- a)) = CompOpp (Qsign a).
Proof.
  intros a. unfold Qsign. rewrite (Qred_correct (- a)).
  destruct (Qcompare_spec a 0) as [E|E|E]; simpl.
  - apply Qeq_alt. rewrite E. reflexivity.
  - apply Qgt_alt. apply (Qplus_lt_l _ _ a). ring_simplify. exact E.
  - apply Qlt_alt. apply (Qplus_lt_l _ _ a). ring_simplify. exact E.
Qed.

Lemma fabs_fneg : forall x, fabs (fneg x) = fabs x.
Proof.
  intros [a| | |]; cbn [fabs fneg]; auto. f_equal. apply Qred_complete.
  rewrite Qred_correct. apply Qabs_opp.
Qed.

Lemma fadd_fneg : forall x y, fadd (fneg x) (fneg y) = fneg (fadd x y).
Proof.
  intros [a| | |] [b| | |]; cbn [fadd fneg]; auto. f_equal.
  apply Qred_complete. rewrite !Qred_correct. ring.
Qed.

Lemma fmul_fneg_r : forall x y, fmul x (fneg y) = fneg (fmul x y).
Proof.
  intros [a| | |] [b| | |]; cbn [fmul fneg]; auto;
    try rewrite Qsign_opp;
    try (destruct (Qsign a); reflexivity);
    try (destruct (Qsign b); reflexivity).
  f_equal. apply Qred_complete. rewrite !Qred_correct. ring.
Qed.

Lemma fdiv_fneg_l : forall x y, fdiv (fneg x) y = fneg (fdiv x y).
Proof.
  intros [a| | |] [b| | |]; cbn [fdiv fneg]; auto;
    try (destruct (Qsign b); reflexivity).
  rewrite Qsign_opp. destruct (Qsign b) eqn:Eb.
  - destruct (Qsign a); reflexivity.
  - cbn [fneg]. f_equal. apply Qred_complete. rewrite !Qred_correct.
    field. intros E. unfold Qsign in Eb. apply Qeq_alt in E. congruence.
  - cbn [fneg]. f_equal. apply Qred_complete. rewrite !Qred_correct.
    field. intros E. unfold Qsign in Eb. apply Qeq_alt in E. congruence.
Qed.

Lemma fold_fadd_fneg :
  forall l acc,
    fold_left fadd (map fneg l) (fneg acc) = fneg (fold_left fadd l acc).
Proof.
  induction l as [|x l IH]; intros acc; simpl; auto.
  rewrite fadd_fneg. apply IH.
Qed.

Lemma fsum_fneg : forall l, fsum (map fneg l) = fneg (fsum l).
Proof. intros l. unfold fsum. apply (fold_fadd_fneg l fzero). Qed.

Lemma dot_fneg : forall row w, dot row (map fneg w) = fneg (dot row w).
Proof.
  intros row w. unfold dot, np_sum. rewrite <- fsum_fneg. f_equal.
  revert w. induction row as [|x row IH]; intros [|y w]; simpl; auto.
  now rewrite fmul_fneg_r, IH.
Qed.

Lemma l1_normalised_fneg :
  forall w, l1_normalised (map fneg w) = map fneg (l1_normalised w).
Proof.
  intros w. unfold l1_normalised. rewrite !map_map.
  replace (map (fun x => fabs (fneg x)) w) with (map fabs w)
    by (apply map_ext; intros x; now rewrite fabs_fneg).
  apply map_ext. intros x. apply fdiv_fneg_l.
Qed.

(** X11.  The direction a fit returns is determined up to its sign only.
    If the fit hands [integrated_ofi] the opposite of a direction [w],
    the call fails as it does for [w], or returns the series it returns
    for [w] with every value negated: the sign of the integrated OFI is
    that of the fitted direction. *)
Theorem integrated_ofi_sign_flip :
  forall fit fit' ofi_bar k w rest rest',
    fit ofi_bar k = inr (w :: rest) ->
    fit' ofi_bar k = inr (map fneg w :: rest') ->
    match integrated_ofi fit ofi_bar k with
    | inr s =>
        integrated_ofi fit' ofi_bar k =
        inr (mkSeries (s_index s) (map fneg (s_values s)))
    | inl e => integrated_ofi fit' ofi_bar k = inl e
    end.
Proof.
  intros fit fit' ofi_bar k w rest rest' Hfit Hfit'.
  unfold integrated_ofi. rewrite Hfit, Hfit'. cbn [rbind].
  fold (l1_normalised w). fold (l1_normalised (map fneg w)).
  rewrite l1_normalised_fneg. unfold matmul.
  destruct (numeric_columns (columns ofi_bar)) as [e|cols]; cbn [rbind]; auto.
  rewrite !length_map.
  destruct (Nat.eqb (List.length cols) (List.length (l1_normalised w))); auto.
  cbn [s_index s_values]. rewrite map_map.
  apply f_equal. apply f_equal.
  apply map_ext. intros row. apply dot_fneg.
Qed.

Lemma integrated_ofi_sign_flip_witness :
  integrated_ofi fit_3_4_5 two_level_bars 2 =
    inr (mkSeries [0; minute] [Fin (- 9 # 7); Fin (- 10 # 7)]) /\
  integrated_ofi fit_3_4_5_flipped two_level_bars 2 =
    inr (mkSeries [0; minute] [Fin (9 # 7); Fin (10 # 7)]).
Proof.
  pose proof (integrated_ofi_sign_flip fit_3_4_5 fit_3_4_5_flipped
                two_level_bars 2%nat [Fin (3 # 5); Fin (- 4 # 5)]
                [[Fin (4 # 5); Fin (3 # 5)]] [[Fin (4 # 5); Fin (3 # 5)]]
                eq_refl eq_refl) as H.
  assert (E : integrated_ofi fit_3_4_5 two_level_bars 2 =
              inr (mkSeries [0; minute] [Fin (- 9 # 7); Fin (- 10 # 7)]))
    by reflexivity.
  rewrite E in H. split; [exact E|]. rewrite H. reflexivity.
Defined.

(* ------------------------------------------------------------------ *)
(** ** [integrated_ofi]: a bound on the projection *)
(* ------------------------------------------------------------------ *)

Local Open Scope Q_scope.








Local Close Scope Q_scope.





(* ------------------------------------------------------------------ *)
(** ** [multi_asset_ofi]: the frames it leaves alone *)
(* ------------------------------------------------------------------ *)

Lemma collect_frames_keeps :
  forall raw w n symbols frames h i d,
    nth_error h i = Some d ->
    nth_error (snd (collect_frames raw symbols w n frames h)) i = Some d.
Proof.
  intros raw w n. induction symbols as [|s symbols IH]; intros frames h i d Hi;
    [exact Hi|].
  pose proof (nth_error_in_heap h i d Hi) as Hlt.
  cbn [collect_frames]. unfold mbind, deref, lift, alloc, raise.
  destruct (nth_error h raw) as [rawd|]; [|exact Hi].
  destruct (getitem rawd "symbol") as [e|c]; [exact Hi|].
  rewrite nth_error_alloc.
  set (sel := select_rows (eq_mask c s) rawd).
  assert (Hi1 : nth_error (h ++ [sel]) i = Some d) by now rewrite nth_error_app1.
  destruct (empty sel); [exact Hi1|].
  destruct (add_level_ofi_extends_heap (List.length h) (h ++ [sel]))
    as (extra & Hext).
  destruct (add_level_ofi (List.length h) (h ++ [sel])) as [[e|msg] h1] eqn:Ha;
    cbn [snd] in Hext.
  - cbn [snd]. rewrite Hext, <- app_assoc. now rewrite nth_error_app1.
  - pose proof (add_level_ofi_ref _ _ _ _ Ha) as Hmsg.
    assert (Hi2 : nth_error (snd (aggregate_ofi msg w n h1)) i = Some d).
    { rewrite aggregate_ofi_heap_other.
      - rewrite Hext, <- app_assoc. now rewrite nth_error_app1.
      - rewrite Hmsg, length_app. simpl. lia. }
    destruct (aggregate_ofi msg w n h1) as [[e|bar] h2]; cbn [snd] in *;
      [exact Hi2|].
    now apply IH.
Qed.

(** X13.  Whatever it is given and whether it returns or raises,
    [multi_asset_ofi] leaves every frame that existed before the call
    exactly as it was, the raw table included, also when it normalises:
    the depth columns are written into the copy [add_level_ofi] made. *)
Theorem multi_asset_ofi_keeps_existing_frames :
  forall raw symbols w n h i d,
    nth_error h i = Some d ->
    nth_error (snd (multi_asset_ofi raw symbols w n h)) i = Some d.
Proof.
  intros raw symbols w n h i d Hi.
  pose proof (collect_frames_keeps raw w n symbols [] h i d Hi) as H.
  unfold multi_asset_ofi, mbind, lift.
  destruct (collect_frames raw symbols w n [] h) as [[e|frames] h'];
    cbn [snd] in *; exact H.
Qed.

Lemma multi_asset_ofi_keeps_existing_frames_witness :
  nth_error (snd (multi_asset_ofi 0%nat ["A"; "B"]%string minute true
                    [book_two_symbols])) 0 = Some book_two_symbols.
Proof.
  exact (multi_asset_ofi_keeps_existing_frames 0%nat ["A"; "B"]%string minute
           true [book_two_symbols] 0%nat book_two_symbols eq_refl).
Defined.

(* ------------------------------------------------------------------ *)
(** ** [multi_asset_ofi]: the aligned table *)
(* ------------------------------------------------------------------ *)

(** One round of the loop, for a raw table with the expected columns:
    the table the two stages return does not depend on the frames that
    exist already. *)
Lemma symbol_round_table :
  forall rawd c w n s,
    0 < w -> raw_schema rawd -> getitem rawd "symbol" = inr c ->
    exists idx cell,
      StronglySorted Z.lt idx /\
      (n = false -> forall b m, In b idx -> (m < 10)%nat ->
                                notna (cell m b) = true) /\
      forall h, exists h1 h2,
        add_level_ofi (List.length h) (h ++ [select_rows (eq_mask c s) rawd])
          = (inr (List.length (h ++ [select_rows (eq_mask c s) rawd])), h1) /\
        aggregate_ofi (List.length (h ++ [select_rows (eq_mask c s) rawd])) w n h1
          = (inr (tabulate idx LEVELS ofi_col cell), h2).
Proof.
  intros rawd c w n s Hw (Hwf & _ & (ts & Hts) & (P & HP) & (Sz & HS)) Hc.
  set (mask := eq_mask c s). set (sel := select_rows mask rawd).
  assert (Hts' : has_timestamps sel (select mask ts))
    by (apply (getitem_select_rows mask rawd _ _ Hts)).
  assert (HP' : has_prices sel (fun s m => select mask (P s m)))
    by (intros s' m Hm; apply (getitem_select_rows mask rawd _ _ (HP s' m Hm))).
  assert (HS' : has_sizes sel (fun s m => select mask (Sz s m)))
    by (intros s' m Hm; apply (getitem_select_rows mask rawd _ _ (HS s' m Hm))).
  set (out := mkFrame (index sel)
                (fold_left (fun cs m =>
                   set_all (level_columns (fun s m => select mask (P s m))
                                          (fun s m => select mask (Sz s m)) m) cs)
                   LEVELS (columns sel))).
  destruct (flow_frame_columns sel (fun s m => select mask (P s m))
              (fun s m => select mask (Sz s m)) _ _ Hts' HS')
    as (Hts2 & HS2 & V & HV2). fold out in Hts2, HS2, HV2.
  assert (Hadd : forall h,
             add_level_ofi (List.length h) (h ++ [sel]) =
             (inr (List.length (h ++ [sel])), (h ++ [sel]) ++ [out])).
  { intros h. apply (add_level_ofi_run (h ++ [sel]) (List.length h) sel _ _
                       (nth_error_alloc h sel) HP' HS'). }
  destruct n.
  - eexists. eexists. split; [|split; [discriminate|]].
    2:{ intros h. eexists. eexists. split; [apply Hadd|].
        apply (aggregate_ofi_normalised_run _ _ out _ V _ w Hw
                 (nth_error_alloc (h ++ [sel]) out) Hts2 HV2 HS2). }
    apply joined_labels_sorted. unfold ofi_bars, tabulate. cbn [index].
    now apply kept_labels_sorted.
  - eexists. eexists. split; [|split].
    3:{ intros h. eexists. eexists. split; [apply Hadd|].
        apply (aggregate_ofi_unnormalised_run _ _ out _ V w Hw
                 (nth_error_alloc (h ++ [sel]) out) Hts2 HV2). }
    + now apply kept_labels_sorted.
    + intros _ b m Hb Hm. apply kept_labels_iff in Hb. now apply Hb.
Qed.

(** The table of a symbol, on a raw table with the expected columns. *)
Lemma bars_of_table :
  forall rawd c w n s,
    0 < w -> raw_schema rawd -> getitem rawd "symbol" = inr c ->
    symbol_bars rawd s w n = inr (bars_of rawd w n s) /\
    (exists idx cell,
       bars_of rawd w n s = tabulate idx LEVELS ofi_col cell /\
       StronglySorted Z.lt idx /\
       (n = false -> forall b m, In b idx -> (m < 10)%nat ->
                                 notna (cell m b) = true)) /\
    forall h, exists h1 h2,
      add_level_ofi (List.length h) (h ++ [select_rows (eq_mask c s) rawd])
        = (inr (List.length (h ++ [select_rows (eq_mask c s) rawd])), h1) /\
      aggregate_ofi (List.length (h ++ [select_rows (eq_mask c s) rawd])) w n h1
        = (inr (bars_of rawd w n s), h2).
Proof.
  intros rawd c w n s Hw Hschema Hc.
  destruct (symbol_round_table rawd c w n s Hw Hschema Hc)
    as (idx & cell & Hsorted & Hnotna & Hrun).
  assert (E : symbol_bars rawd s w n = inr (tabulate idx LEVELS ofi_col cell)).
  { unfold symbol_bars, symbol_rows. rewrite Hc. cbn [rbind].
    destruct (Hrun []) as (h1 & h2 & Hadd & Hagg).
    cbn [app List.length] in Hadd, Hagg.
    unfold mbind. rewrite Hadd, Hagg. reflexivity. }
  assert (E' : bars_of rawd w n s = tabulate idx LEVELS ofi_col cell)
    by (unfold bars_of; now rewrite E).
  rewrite E'. split; [exact E|]. split; [|exact Hrun].
  exists idx, cell. auto.
Qed.

Lemma collect_frames_all_present :
  forall raw rawd w n,
    0 < w -> raw_schema rawd ->
    forall symbols frames h,
      nth_error h raw = Some rawd ->
      (forall s, In s symbols -> has_symbol rawd s = true) ->
      exists h',
        collect_frames raw symbols w n frames h =
        (inr (fold_left (fun fr s => dict_set s (bars_of rawd w n s) fr)
                        symbols frames), h').
Proof.
  intros raw rawd w n Hw Hschema.
  pose proof Hschema as (Hwf & (syms & Hc) & _).
  induction symbols as [|s symbols IH]; intros frames h Hraw Hall.
  - exists h. reflexivity.
  - cbn [collect_frames fold_left]. unfold mbind at 1 2 3 4.
    unfold deref, lift, alloc, raise. rewrite Hraw, Hc, nth_error_alloc.
    rewrite (present_symbol_not_empty rawd _ s Hwf Hc)
      by (apply Hall; now left).
    destruct (bars_of_table rawd _ w n s Hw Hschema Hc) as (_ & _ & Hrun).
    destruct (Hrun h) as (h1 & h2 & Hadd & Hagg).
    unfold mbind. rewrite Hadd, Hagg.
    apply IH.
    + replace h2 with
        (snd (collect_frames raw [s] w n [] h)).
      * now apply collect_frames_keeps.
      * cbn [collect_frames]. unfold mbind at 1 2 3 4.
        unfold deref, lift, alloc, raise. rewrite Hraw, Hc, nth_error_alloc.
        rewrite (present_symbol_not_empty rawd _ s Hwf Hc)
          by (apply Hall; now left).
        unfold mbind, mret. now rewrite Hadd, Hagg.
    + intros s' Hs'. apply Hall. now right.
Qed.

(** *** The keys of the dict *)

Lemma dict_set_known :
  forall (B : string -> DataFrame) s K,
    dict_set s (B s) (map (fun k => (k, B k)) K) =
    map (fun k => (k, B k))
        (if existsb (String.eqb s) K then K else K ++ [s]).
Proof.
  intros B s. induction K as [|k K IH]; cbn [map dict_set existsb]; auto.
  rewrite (String.eqb_sym s k).
  destruct (String.eqb_spec k s) as [->|Hne]; cbn [orb]; auto.
  rewrite IH. destruct (existsb (String.eqb s) K); reflexivity.
Qed.

Lemma filter_twice {A} (p q : A -> bool) :
  forall l, filter p (filter q l) = filter (fun x => p x && q x) l.
Proof.
  induction l as [|x l IH]; simpl; auto.
  destruct (q x); simpl; rewrite ?andb_true_r, ?andb_false_r;
    [destruct (p x)|]; now rewrite IH.
Qed.

Lemma dict_keys :
  forall (B : string -> DataFrame) symbols K,
    fold_left (fun fr s => dict_set s (B s) fr) symbols
              (map (fun k => (k, B k)) K) =
    map (fun k => (k, B k))
        (K ++ filter (fun x => negb (existsb (String.eqb x) K)) (distinct symbols)).
Proof.
  intros B. induction symbols as [|s symbols IH]; intros K;
    cbn [fold_left distinct filter].
  - now rewrite app_nil_r.
  - rewrite dict_set_known, IH. f_equal.
    destruct (existsb (String.eqb s) K) eqn:E; cbn [negb].
    + f_equal. rewrite filter_twice. apply filter_ext. intros x.
      destruct (String.eqb_spec x s) as [->|Hne]; cbn [negb].
      * now rewrite E.
      * now rewrite andb_true_r.
    + rewrite <- app_assoc. cbn [app]. f_equal. f_equal.
      rewrite filter_twice. apply filter_ext. intros x.
      rewrite existsb_app. cbn [existsb]. rewrite orb_false_r.
      now rewrite negb_orb.
Qed.

Lemma filter_everything {A} (l : list A) : filter (fun _ => true) l = l.
Proof. induction l as [|x l IH]; simpl; congruence. Qed.

Lemma distinct_In : forall l s, In s (distinct l) <-> In s l.
Proof.
  induction l as [|x l IH]; intros s; cbn [distinct]; [tauto|].
  cbn [In]. rewrite filter_In, IH.
  destruct (String.eqb_spec s x) as [->|Hne]; cbn [negb].
  - intuition.
  - intuition congruence.
Qed.

Lemma distinct_NoDup : forall l, NoDup (distinct l).
Proof.
  induction l as [|x l IH]; cbn [distinct]; constructor.
  - rewrite filter_In. intros [_ H]. now rewrite String.eqb_refl in H.
  - now apply NoDup_filter.
Qed.

(** *** The inner join *)

Lemma inner_index_In :
  forall (rest : list (string * DataFrame)) acc b,
    In b (fold_left (fun acc sf =>
                       filter (fun b => mem_label b (index (snd sf))) acc)
                    rest acc) <->
    In b acc /\ forall sf, In sf rest -> In b (index (snd sf)).
Proof.
  induction rest as [|sf rest IH]; intros acc b; cbn [fold_left].
  - split; [intros H; split; [exact H | intros ? []] | tauto].
  - rewrite IH, filter_In, mem_label_iff. split.
    + intros [[H1 H2] H3]. split; auto. intros sf' [<-|H]; auto.
    + intros [H1 H2]. split; [split|]; auto.
      * apply H2. now left.
      * intros sf' H. apply H2. now right.
Qed.

Lemma inner_index_sorted :
  forall (rest : list (string * DataFrame)) acc,
    StronglySorted Z.lt acc ->
    StronglySorted Z.lt
      (fold_left (fun acc sf =>
                    filter (fun b => mem_label b (index (snd sf))) acc)
                 rest acc).
Proof.
  induction rest as [|sf rest IH]; intros acc H; cbn [fold_left]; auto.
  apply IH. now apply filter_sorted.
Qed.

Lemma massoc_other_symbol :
  forall s name s0 (c : nat -> column) ls cs,
    s0 <> s ->
    massoc (s, name) (map (fun m => ((s0, ofi_col m), c m)) ls ++ cs) =
    massoc (s, name) cs.
Proof.
  intros s name s0 c ls cs Hne. induction ls as [|m ls IH]; cbn [map app massoc]; auto.
  cbn [fst snd]. destruct (String.eqb_spec s0 s); [contradiction|]. exact IH.
Qed.

Lemma massoc_level :
  forall s (c : nat -> column) ls cs m,
    In m ls -> (forall k, In k ls -> (k < 10)%nat) ->
    massoc (s, ofi_col m) (map (fun k => ((s, ofi_col k), c k)) ls ++ cs) =
    Some (c m).
Proof.
  intros s c ls cs m. induction ls as [|k ls IH]; intros Hm Hlt; [contradiction|].
  cbn [map app massoc fst snd]. rewrite String.eqb_refl. cbn [andb].
  destruct (String.eqb_spec (ofi_col k) (ofi_col m)) as [E|E].
  - apply ofi_col_inj in E; [now subst | apply Hlt; now left |].
    apply Hlt. destruct Hm as [<-|Hm]; [now left | now right].
  - destruct Hm as [->|Hm]; [congruence|].
    apply IH; auto. intros j Hj. apply Hlt. now right.
Qed.

(** The columns of the join of tabulated frames. *)
Lemma concat_columns :
  forall idx (frames : list (string * DataFrame)),
    (forall sf, In sf frames ->
       exists i cell, snd sf = tabulate i LEVELS ofi_col cell) ->
    exists cols,
      fold_right
        (fun sf acc =>
           acc <- acc ;;
           cs <- numeric_columns (columns (snd sf)) ;;
           inr (map (fun nv =>
                       ((fst sf, fst nv),
                        NumCol (reindex (index (snd sf)) (snd nv) idx))) cs
                  ++ acc))%res
        (inr []) frames = inr cols /\
      map fst cols =
      flat_map (fun sf => map (fun m => (fst sf, ofi_col m)) LEVELS) frames /\
      (NoDup (map fst frames) ->
       forall s bar m b,
         In (s, bar) frames -> (m < 10)%nat -> In b idx -> In b (index bar) ->
         exists v x,
           massoc (s, ofi_col m) cols = Some (NumCol v) /\
           at_label idx v b = Some x /\
           loc bar b (ofi_col m) = Some x).
Proof.
  intros idx. induction frames as [|[s0 bar0] frames IH]; intros Htab.
  - exists []. split; [reflexivity|]. split; [reflexivity|].
    intros _ s bar m b [].
  - destruct IH as (cols & Hcols & Hlabels & Hcells).
    { intros sf Hsf. apply Htab. now right. }
    destruct (Htab (s0, bar0) (or_introl eq_refl)) as (i0 & cell0 & E0).
    cbn [snd] in E0. subst bar0.
    cbn [fold_right]. rewrite Hcols. cbn [rbind snd fst].
    rewrite numeric_columns_tabulate. cbn [rbind].
    rewrite map_map. cbn [fst snd].
    eexists. split; [reflexivity|]. split.
    + rewrite map_app, map_map. cbn [fst flat_map]. now rewrite Hlabels.
    + intros Hnd s bar m b Hin Hm Hb Hbar.
      cbn [map fst] in Hnd. inversion Hnd as [|? ? Hfresh Hnd']; subst.
      destruct Hin as [Hin|Hin].
      * injection Hin as -> <-.
        rewrite (massoc_level s
                   (fun k => NumCol (reindex (index (tabulate i0 LEVELS ofi_col cell0))
                                             (map (cell0 k) i0) idx)))
          by (try (now apply In_LEVELS); intros k; apply In_LEVELS).
        unfold tabulate in Hbar |- *. cbn [index] in Hbar |- *.
        eexists. exists (cell0 m b). split; [reflexivity|]. split.
        -- unfold reindex. rewrite (at_label_map _ idx b Hb).
           now rewrite (at_label_map (cell0 m) i0 b Hbar).
        -- apply (loc_tabulate i0 LEVELS ofi_col cell0 b m Hbar).
           ++ now apply In_LEVELS.
           ++ intros m' Hm' E. apply ofi_col_inj in E; auto.
              now apply In_LEVELS.
      * rewrite massoc_other_symbol.
        -- apply Hcells; auto.
        -- intros ->. apply Hfresh.
           apply (in_map fst) in Hin. exact Hin.
Qed.

Lemma concat_inner_tables :
  forall sf0 (rest : list (string * DataFrame)),
    (forall sf, In sf (sf0 :: rest) ->
       exists i cell, snd sf = tabulate i LEVELS ofi_col cell /\
                      StronglySorted Z.lt i) ->
    exists mf,
      concat_inner (sf0 :: rest) = inr mf /\
      map fst (m_columns mf) =
      flat_map (fun sf => map (fun m => (fst sf, ofi_col m)) LEVELS) (sf0 :: rest) /\
      StronglySorted Z.lt (m_index mf) /\
      (forall b, In b (m_index mf) <->
                 forall sf, In sf (sf0 :: rest) -> In b (index (snd sf))) /\
      (NoDup (map fst (sf0 :: rest)) ->
       forall s bar m b,
         In (s, bar) (sf0 :: rest) -> (m < 10)%nat -> In b (m_index mf) ->
         exists x,
           mloc mf b (s, ofi_col m) = Some x /\ loc bar b (ofi_col m) = Some x).
Proof.
  intros [s0 f0] rest Htab.
  set (idx := fold_left (fun acc sf =>
                filter (fun b => mem_label b (index (snd sf))) acc)
              rest (index f0)).
  assert (Hidx : forall b, In b idx <->
                   forall sf, In sf ((s0, f0) :: rest) -> In b (index (snd sf))).
  { intros b. unfold idx. rewrite inner_index_In. split.
    - intros [H1 H2] sf [<-|H]; auto.
    - intros H. split; [apply (H (s0, f0)); now left|].
      intros sf Hsf. apply H. now right. }
  destruct (concat_columns idx ((s0, f0) :: rest)) as (cols & Hcols & Hlabels & Hcells).
  { intros sf Hsf. destruct (Htab sf Hsf) as (i & cell & E & _). eauto. }
  exists (mkMulti idx cols). split.
  - unfold concat_inner. fold idx. rewrite Hcols. reflexivity.
  - cbn [m_index m_columns]. split; [exact Hlabels|]. split.
    + unfold idx. apply inner_index_sorted.
      destruct (Htab (s0, f0) (or_introl eq_refl)) as (i & cell & E & Hs).
      cbn [snd] in E. subst f0. exact Hs.
    + split; [exact Hidx|].
      intros Hnd s bar m b Hin Hm Hb.
      assert (Hbar : In b (index bar))
        by (apply (proj1 (Hidx b) Hb (s, bar) Hin)).
      destruct (Hcells Hnd s bar m b Hin Hm Hb Hbar) as (v & x & Hv & Hx & Hloc).
      exists x. split; [|exact Hloc].
      unfold mloc. cbn [m_index m_columns]. now rewrite Hv.
Qed.

Lemma flat_map_of_map {A B C} (f : A -> B) (g : B -> list C) :
  forall l, flat_map g (map f l) = flat_map (fun x => g (f x)) l.
Proof.
  induction l as [|x l IH]; cbn [map flat_map]; congruence.
Qed.

(** When every requested symbol has rows, on a raw table with the
    expected columns: the table [multi_asset_ofi] returns. *)
Lemma multi_asset_ofi_success :
  forall h raw rawd symbols w n,
    nth_error h raw = Some rawd -> 0 < w -> raw_schema rawd ->
    symbols <> [] -> (forall s, In s symbols -> has_symbol rawd s = true) ->
    exists mf h',
      multi_asset_ofi raw symbols w n h = (inr mf, h') /\
      map fst (m_columns mf) =
      flat_map (fun s => map (fun m => (s, ofi_col m)) LEVELS) (distinct symbols) /\
      StronglySorted Z.lt (m_index mf) /\
      (forall b, In b (m_index mf) <->
                 forall s, In s symbols -> In b (index (bars_of rawd w n s))) /\
      (forall s m b,
         In s symbols -> (m < 10)%nat -> In b (m_index mf) ->
         exists x,
           mloc mf b (s, ofi_col m) = Some x /\
           loc (bars_of rawd w n s) b (ofi_col m) = Some x /\
           (n = false -> notna x = true)) /\
      (forall s, symbol_bars rawd s w n = inr (bars_of rawd w n s)).
Proof.
  intros h raw rawd symbols w n Hraw Hw Hschema Hne Hall.
  pose proof Hschema as (_ & (syms & Hc) & _).
  destruct (collect_frames_all_present raw rawd w n Hw Hschema symbols [] h
              Hraw Hall) as (h' & Hrun).
  pose proof (dict_keys (bars_of rawd w n) symbols []) as Hkeys.
  cbn [map app existsb negb] in Hkeys. rewrite filter_everything in Hkeys.
  rewrite Hkeys in Hrun. clear Hkeys.
  assert (Htab : forall sf,
             In sf (map (fun k => (k, bars_of rawd w n k)) (distinct symbols)) ->
             exists i cell, snd sf = tabulate i LEVELS ofi_col cell /\
                            StronglySorted Z.lt i).
  { intros sf Hsf. apply in_map_iff in Hsf. destruct Hsf as (k & <- & _).
    destruct (bars_of_table rawd _ w n k Hw Hschema Hc)
      as (_ & (i & cell & E & Hs & _) & _).
    exists i, cell. cbn [snd]. auto. }
  assert (Hnd : NoDup (map fst (map (fun k => (k, bars_of rawd w n k))
                                     (distinct symbols)))).
  { rewrite map_map. cbn [fst]. rewrite map_id. apply distinct_NoDup. }
  assert (Hfirst : exists s0 D, distinct symbols = s0 :: D).
  { destruct symbols as [|s0 l]; [now elim Hne|].
    cbn [distinct]. eauto. }
  destruct Hfirst as (s0 & D & ED).
  assert (Hin : forall s, In s symbols <->
                  In (s, bars_of rawd w n s)
                     (map (fun k => (k, bars_of rawd w n k)) (distinct symbols))).
  { intros s. rewrite <- distinct_In. split.
    - intros H. apply in_map_iff. exists s. auto.
    - intros H. apply in_map_iff in H. destruct H as (k & E & Hk).
      inversion E. now subst. }
  rewrite ED in Hrun, Htab, Hnd, Hin. cbn [map] in Hrun, Htab, Hnd, Hin.
  destruct (concat_inner_tables _ _ Htab)
    as (mf & Hcat & Hlabels & Hsorted & Hidx & Hcells).
  specialize (Hcells Hnd).
  assert (Hidx' : forall b, In b (m_index mf) <->
                    forall s, In s symbols -> In b (index (bars_of rawd w n s))).
  { intros b. rewrite Hidx. split.
    - intros H s Hs. apply (H (s, bars_of rawd w n s)). now apply Hin.
    - intros H sf Hsf.
      assert (E : sf = (fst sf, bars_of rawd w n (fst sf))).
      { destruct Hsf as [<-|Hsf]; [reflexivity|].
        apply in_map_iff in Hsf. destruct Hsf as (k & <- & _). reflexivity. }
      rewrite E in Hsf. apply Hin in Hsf. rewrite E. cbn [snd]. now apply H. }
  exists mf, h'. split.
  - unfold multi_asset_ofi, mbind, lift. rewrite Hrun. now rewrite Hcat.
  - split.
    { rewrite Hlabels, ED.
      change ((s0, bars_of rawd w n s0)
              :: map (fun k => (k, bars_of rawd w n k)) D)
        with (map (fun k => (k, bars_of rawd w n k)) (s0 :: D)).
      now rewrite flat_map_of_map. }
    split; [exact Hsorted|]. split; [exact Hidx'|]. split.
    + intros s m b Hs Hm Hb.
      destruct (Hcells s (bars_of rawd w n s) m b (proj1 (Hin s) Hs) Hm Hb)
        as (x & Hx & Hloc).
      exists x. split; [exact Hx|]. split; [exact Hloc|].
      intros ->.
      destruct (bars_of_table rawd _ w false s Hw Hschema Hc)
        as (_ & (i & cell & E & _ & Hnotna) & _).
      pose proof (proj1 (Hidx' b) Hb s Hs) as Hbs.
      rewrite E in Hloc, Hbs. unfold tabulate in Hbs. cbn [index] in Hbs.
      rewrite (loc_tabulate i LEVELS ofi_col cell b m Hbs) in Hloc.
      * inversion Hloc. subst x. now apply Hnotna.
      * now apply In_LEVELS.
      * intros m' Hm' E'. apply ofi_col_inj in E'; auto. now apply In_LEVELS.
    + intros s. now destruct (bars_of_table rawd _ w n s Hw Hschema Hc).
Qed.

(** X14.  When every requested symbol has rows, on a raw table with the
    columns the pipeline reads and for a positive bucket width,
    [multi_asset_ofi] returns a table whose columns are labelled
    [(symbol, ofi_NN)], ten per symbol, the symbols in the order of their
    first occurrence in the request and each one once; whose row labels
    are strictly increasing; and whose rows are exactly the buckets that
    are rows of the bar table of every requested symbol. *)
Theorem multi_asset_ofi_inner_join :
  forall h raw rawd symbols w n,
    nth_error h raw = Some rawd -> 0 < w -> raw_schema rawd ->
    symbols <> [] -> (forall s, In s symbols -> has_symbol rawd s = true) ->
    exists mf h',
      multi_asset_ofi raw symbols w n h = (inr mf, h') /\
      map fst (m_columns mf) =
      flat_map (fun s => map (fun m => (s, ofi_col m)) LEVELS) (distinct symbols) /\
      StronglySorted Z.lt (m_index mf) /\
      forall b,
        In b (m_index mf) <->
        forall s, In s symbols ->
                  exists bar, symbol_bars rawd s w n = inr bar /\ In b (index bar).
Proof.
  intros h raw rawd symbols w n Hraw Hw Hschema Hne Hall.
  destruct (multi_asset_ofi_success h raw rawd symbols w n Hraw Hw Hschema Hne Hall)
    as (mf & h' & Hrun & Hlabels & Hsorted & Hidx & _ & Hbars).
  exists mf, h'. split; [exact Hrun|]. split; [exact Hlabels|].
  split; [exact Hsorted|].
  intros b. rewrite Hidx. split.
  - intros H s Hs. exists (bars_of rawd w n s). split; [apply Hbars | now apply H].
  - intros H s Hs. destruct (H s Hs) as (bar & E & Hb).
    rewrite Hbars in E. inversion E. now subst.
Qed.

Lemma book_two_symbols_schema : raw_schema book_two_symbols.
Proof.
  split; [split|].
  - unfold book_two_symbols, book. cbn [columns map fst app flat_map LEVELS seq].
    repeat (constructor; [simpl; intuition discriminate|]). constructor.
  - intros n c H. unfold book_two_symbols, book in H.
    cbn [columns app flat_map LEVELS seq] in H.
    repeat (destruct H as [H|H]; [inversion H; reflexivity|]). contradiction.
  - split; [eexists; reflexivity|]. split; [eexists; reflexivity|].
    split; [eexists; apply book_has_prices | eexists; apply book_has_sizes].
Qed.

Lemma multi_asset_ofi_inner_join_witness :
  exists mf h',
    multi_asset_ofi 0%nat ["B"; "A"; "B"]%string minute true [book_two_symbols]
      = (inr mf, h') /\
    map fst (m_columns mf) =
    flat_map (fun s => map (fun m => (s, ofi_col m)) LEVELS) ["B"; "A"]%string /\
    StronglySorted Z.lt (m_index mf).
Proof.
  destruct (multi_asset_ofi_inner_join [book_two_symbols] 0%nat book_two_symbols
              ["B"; "A"; "B"]%string minute true eq_refl eq_refl
              book_two_symbols_schema)
    as (mf & h' & Hrun & Hlabels & Hsorted & _).
  - discriminate.
  - intros s [<-|[<-|[<-|[]]]]; reflexivity.
  - exists mf, h'. split; [exact Hrun|]. split; [exact Hlabels | exact Hsorted].
Defined.

(** X15.  Under the same conditions, the cell of the aligned table at a
    row [b] and a column [(symbol, ofi_NN)] is the cell of that symbol's
    own bar table at [b] and [ofi_NN]; without normalisation no cell of
    the aligned table is missing. *)
Theorem multi_asset_ofi_cells :
  forall h raw rawd symbols w n,
    nth_error h raw = Some rawd -> 0 < w -> raw_schema rawd ->
    symbols <> [] -> (forall s, In s symbols -> has_symbol rawd s = true) ->
    exists mf h',
      multi_asset_ofi raw symbols w n h = (inr mf, h') /\
      forall s m b,
        In s symbols -> (m < 10)%nat -> In b (m_index mf) ->
        exists bar x,
          symbol_bars rawd s w n = inr bar /\
          loc bar b (ofi_col m) = Some x /\
          mloc mf b (s, ofi_col m) = Some x /\
          (n = false -> notna x = true).
Proof.
  intros h raw rawd symbols w n Hraw Hw Hschema Hne Hall.
  destruct (multi_asset_ofi_success h raw rawd symbols w n Hraw Hw Hschema Hne Hall)
    as (mf & h' & Hrun & _ & _ & _ & Hcells & Hbars).
  exists mf, h'. split; [exact Hrun|].
  intros s m b Hs Hm Hb.
  destruct (Hcells s m b Hs Hm Hb) as (x & Hx & Hloc & Hnotna).
  exists (bars_of rawd w n s), x. auto.
Qed.

Lemma multi_asset_ofi_cells_witness :
  exists mf h',
    multi_asset_ofi 0%nat ["A"; "B"]%string minute false [book_two_symbols]
      = (inr mf, h') /\
    forall b, In b (m_index mf) ->
      exists x, mloc mf b ("B", "ofi_03")%string = Some x /\ notna x = true.
Proof.
  destruct (multi_asset_ofi_cells [book_two_symbols] 0%nat book_two_symbols
              ["A"; "B"]%string minute false eq_refl eq_refl
              book_two_symbols_schema)
    as (mf & h' & Hrun & Hcells).
  - discriminate.
  - intros s [<-|[<-|[]]]; reflexivity.
  - exists mf, h'. split; [exact Hrun|].
    intros b Hb.
    destruct (Hcells "B"%string 3%nat b) as (bar & x & _ & _ & Hx & Hnotna);
      [simpl; auto | lia | exact Hb |].
    exists x. split; [exact Hx | now apply Hnotna].
Defined.
